(** * RSS synchronisation service (rss-sync-service.js): model and properties

    The class [RSSyncService] pulls the WordPress feeds of its sources, skips
    the articles the Firestore collection [news] already holds (by [url]),
    cleans the others and adds them.  This file embeds the class: strings are
    JavaScript strings (sequences of UTF-16 code units), the regular
    expressions of [cleanContent], [extractSummary] and [extractCity] are
    written as syntax trees and run by a backtracking matcher that follows the
    ECMAScript semantics, and the [async] methods are computations in a state
    and exception monad over the instance fields and the outside world. *)

From Stdlib Require Import String Ascii DecimalString.
From Stdlib Require Import List NArith ZArith Bool Arith Lia.
Import ListNotations.

(** ** JavaScript strings *)

(** A string is its sequence of UTF-16 code units. *)
Definition jsstring := list N.

(** ASCII literals of the source. Code units above 127 are written out. *)
Definition lit (s : string) : jsstring :=
  map N_of_ascii (list_ascii_of_string s).

Fixpoint jseqb (a b : jsstring) : bool :=
  match a, b with
  | [], [] => true
  | x :: a', y :: b' => N.eqb x y && jseqb a' b'
  | _, _ => false
  end.

(** WhiteSpace and LineTerminator code points, the ones [trim] removes. *)
Definition isWhiteSpace (c : N) : bool :=
  ((9 <=? c) && (c <=? 13) || (c =? 32) || (c =? 160) || (c =? 5760)
   || (8192 <=? c) && (c <=? 8202) || (c =? 8232) || (c =? 8233)
   || (c =? 8239) || (c =? 8287) || (c =? 12288) || (c =? 65279))%N.

Fixpoint trimStart (s : jsstring) : jsstring :=
  match s with
  | c :: s' => if isWhiteSpace c then trimStart s' else s
  | [] => []
  end.

Definition trimEnd (s : jsstring) : jsstring := rev (trimStart (rev s)).

(** [String.prototype.trim] *)
Definition trim (s : jsstring) : jsstring := trimEnd (trimStart s).

(** [s.substring(0, n)] for [0 <= n] *)
Definition substring0 (n : nat) (s : jsstring) : jsstring := firstn n s.

Fixpoint startsWith (p s : jsstring) : bool :=
  match p, s with
  | [], _ => true
  | x :: p', y :: s' => N.eqb x y && startsWith p' s'
  | _ :: _, [] => false
  end.

(** [s.includes(p)] *)
Fixpoint includes (s p : jsstring) : bool :=
  startsWith p s ||
  match s with
  | [] => false
  | _ :: s' => includes s' p
  end.

(** [s.lastIndexOf(String.fromCharCode(c))]: the greatest index holding [c],
    or -1. [i] is the index of the head of [s]. *)
Fixpoint lastIndexOf_from (c : N) (i : Z) (s : jsstring) : Z :=
  match s with
  | [] => (-1)%Z
  | x :: s' =>
      let later := lastIndexOf_from c (i + 1) s' in
      if (0 <=? later)%Z then later
      else if N.eqb x c then i else (-1)%Z
  end.

Definition lastIndexOf (s : jsstring) (c : N) : Z := lastIndexOf_from c 0 s.

(** Decimal rendering of a number in a template literal. *)
Definition showNat (n : nat) : jsstring :=
  lit (NilEmpty.string_of_uint (Nat.to_uint n)).

(** The code points of a string: a high surrogate followed by a low one is
    one code point; a surrogate without its other half has none, and there
    are no code points of the string ([None]). *)
Definition isHighSurrogate (c : N) : bool := ((55296 <=? c) && (c <=? 56319))%N.
Definition isLowSurrogate (c : N) : bool := ((56320 <=? c) && (c <=? 57343))%N.

Fixpoint codePoints (s : jsstring) : option (list N) :=
  match s with
  | [] => Some []
  | c :: s' =>
      if isHighSurrogate c then
        match s' with
        | d :: s'' =>
            if isLowSurrogate d
            then option_map
                   (cons (65536 + (c - 55296) * 1024 + (d - 56320))%N)
                   (codePoints s'')
            else None
        | [] => None
        end
      else if isLowSurrogate c then None
      else option_map (cons c) (codePoints s')
  end.

(** The UTF-8 bytes of a code point. *)
Definition utf8 (cp : N) : list N :=
  (if cp <? 128 then [cp]
   else if cp <? 2048 then [192 + cp / 64; 128 + cp mod 64]
   else if cp <? 65536 then
     [224 + cp / 4096; 128 + (cp / 64) mod 64; 128 + cp mod 64]
   else
     [240 + cp / 262144; 128 + (cp / 4096) mod 64; 128 + (cp / 64) mod 64;
      128 + cp mod 64])%N.

Definition isUnreserved (c : N) : bool :=
  ((65 <=? c) && (c <=? 90) || (97 <=? c) && (c <=? 122)
   || (48 <=? c) && (c <=? 57)
   || (c =? 45) || (c =? 95) || (c =? 46) || (c =? 33) || (c =? 126)
   || (c =? 42) || (c =? 39) || (c =? 40) || (c =? 41))%N.

Definition hexDigit (d : N) : N :=
  (if d <? 10 then 48 + d else 55 + d)%N.

Definition percent (byte : N) : jsstring :=
  [37%N; hexDigit (byte / 16); hexDigit (byte mod 16)].

(** [encodeURIComponent]: unreserved characters stay, every other code point
    becomes the [%XX] of its UTF-8 bytes. On a string with a lone surrogate
    the builtin throws a URIError ([None]). *)
Definition encodeURIComponent (s : jsstring) : option jsstring :=
  option_map
    (flat_map (fun cp => if isUnreserved cp then [cp]
                         else flat_map percent (utf8 cp)))
    (codePoints s).

(** ** Regular expressions *)

Module Regex.

(** The constructs the source's patterns use. *)
Inductive regex : Type :=
| Chr (p : N -> bool)        (* one code unit in a class *)
| Cat (r1 r2 : regex)        (* r1 r2 *)
| Star (r : regex)           (* r*   greedy *)
| LazyStar (r : regex)       (* r*?  *)
| NotAhead (r : regex)       (* (?!r) *)
| WordBoundary               (* \b *)
| Eps.

(** A position in the subject: the code unit before it and what follows. *)
Record cursor : Type := Cursor { before : option N; rest : jsstring }.

Definition Cont := cursor -> option cursor.

Definition isWordChar (c : N) : bool :=
  ((65 <=? c) && (c <=? 90) || (97 <=? c) && (c <=? 122)
   || (48 <=? c) && (c <=? 57) || (c =? 95))%N.

Definition wordBefore (x : cursor) : bool :=
  match before x with Some c => isWordChar c | None => false end.

Definition wordAfter (x : cursor) : bool :=
  match rest x with c :: _ => isWordChar c | [] => false end.

Definition shorter (y x : cursor) : bool :=
  length (rest y) <? length (rest x).

(** RepeatMatcher: an iteration that consumes nothing is refused; [n] bounds
    the number of iterations, and each one consumes a code unit. *)
Fixpoint repeat_loop (greedy : bool) (body : cursor -> Cont -> option cursor)
    (n : nat) (x : cursor) (k : Cont) {struct n} : option cursor :=
  match n with
  | O => k x
  | S n' =>
      let again :=
        body x (fun y => if shorter y x then repeat_loop greedy body n' y k
                         else None) in
      if greedy then
        match again with Some z => Some z | None => k x end
      else
        match k x with Some z => Some z | None => again end
  end.

(** The matcher of a pattern, in continuation-passing style: [k] is the rest
    of the pattern, [None] is failure and makes the caller backtrack. *)
Fixpoint run (r : regex) (fuel : nat) (x : cursor) (k : Cont)
    {struct r} : option cursor :=
  match r with
  | Eps => k x
  | Chr p =>
      match rest x with
      | c :: s => if p c then k (Cursor (Some c) s) else None
      | [] => None
      end
  | Cat r1 r2 => run r1 fuel x (fun y => run r2 fuel y k)
  | Star r1 => repeat_loop true (run r1 fuel) fuel x k
  | LazyStar r1 => repeat_loop false (run r1 fuel) fuel x k
  | NotAhead r1 =>
      match run r1 fuel x Some with
      | Some _ => None
      | None => k x
      end
  | WordBoundary => if xorb (wordBefore x) (wordAfter x) then k x else None
  end.

(** A match attempt at one position; the result is the position after it. *)
Definition exec (r : regex) (x : cursor) : option cursor :=
  run r (S (length (rest x))) x Some.

(** [s.replace(/r/g, repl)] from position [x] on, for a matcher [m]: the
    leftmost match is replaced and the search resumes after it (one code unit
    further after an empty match); code units that start no match are kept. *)
Fixpoint replace_from (fuel : nat) (m : cursor -> option cursor)
    (repl : jsstring) (x : cursor) : jsstring :=
  match fuel with
  | O => rest x
  | S fuel' =>
      match m x with
      | Some y =>
          if shorter y x then repl ++ replace_from fuel' m repl y
          else
            match rest x with
            | [] => repl
            | c :: s => repl ++ c :: replace_from fuel' m repl (Cursor (Some c) s)
            end
      | None =>
          match rest x with
          | [] => []
          | c :: s => c :: replace_from fuel' m repl (Cursor (Some c) s)
          end
      end
  end.

Definition replaceAll (r : regex) (repl : jsstring) (s : jsstring) : jsstring :=
  replace_from (S (length s)) (exec r) repl (Cursor None s).

(** Canonicalize of the [i] flag, on the ASCII range. The patterns are ASCII,
    and a code unit above 127 never canonicalizes to one below 128. *)
Definition canonicalize (c : N) : N :=
  (if (97 <=? c) && (c <=? 122) then c - 32 else c)%N.

Definition isChar (c : N) : N -> bool := fun x => N.eqb x c.
Definition isNot (c : N) : N -> bool := fun x => negb (N.eqb x c).
Definition isCI (c : N) : N -> bool :=
  fun x => N.eqb (canonicalize x) (canonicalize c).
Definition any : N -> bool := fun _ => true.

(** A literal: one class per code unit. [str] is the literal as written,
    [strCI] the literal under the [i] flag. *)
Fixpoint chars (cls : N -> N -> bool) (s : jsstring) : regex :=
  match s with
  | [] => Eps
  | c :: s' => Cat (Chr (cls c)) (chars cls s')
  end.

Definition str : jsstring -> regex := chars isChar.
Definition strCI : jsstring -> regex := chars isCI.

End Regex.

Import Regex.

Definition LT : N := 60.  (* less-than sign *)
Definition GT : N := 62.  (* greater-than sign *)

(** The pattern /<[^>]*>/g *)
Definition tagRe : regex :=
  Cat (Chr (isChar LT)) (Cat (Star (Chr (isNot GT))) (Chr (isChar GT))).

Definition openTag (T : string) : jsstring := lit "<" ++ lit T.
Definition closeTag (T : string) : jsstring := lit "</" ++ lit T ++ lit ">".

(** The closing tag of the pattern below, and its group (?: (?!<\/T>) <[^<]* ) *)
Definition closeRe (T : string) : regex := strCI (closeTag T).

Definition groupRe (T : string) : regex :=
  Cat (NotAhead (closeRe T)) (Cat (Chr (isChar LT)) (Star (Chr (isNot LT)))).

(** The pattern /<T\b [^<]* (?: (?!<\/T>) <[^<]* )* <\/T>/gi for a tag name [T]
    (spaces added between its parts) *)
Definition blockRe (T : string) : regex :=
  Cat (strCI (openTag T))
    (Cat WordBoundary
      (Cat (Star (Chr (isNot LT)))
        (Cat (Star (groupRe T)) (closeRe T)))).

Definition scriptRe : regex := blockRe "script".
Definition styleRe : regex := blockRe "style".

(** The pattern /<!--[\s\S]*?-->/g *)
Definition commentRe : regex :=
  Cat (str (lit "<!--")) (Cat (LazyStar (Chr any)) (str (lit "-->"))).

(** ** Content normalisation *)

(** "Contenu ", U+00E0, " venir" *)
Definition contenuAVenir : jsstring :=
  lit "Contenu " ++ [224%N] ++ lit " venir".

(** "R", U+00E9, "sum", U+00E9, " ", U+00E0, " venir" *)
Definition resumeAVenir : jsstring :=
  lit "R" ++ [233%N] ++ lit "sum" ++ [233%N] ++ lit " " ++ [224%N] ++ lit " venir".

(** [!content]: [undefined], [null] and the empty string are falsy. *)
Definition falsy (content : option jsstring) : bool :=
  match content with
  | None => true
  | Some [] => true
  | Some (_ :: _) => false
  end.

(** [a || b] on optional strings *)
Definition orElse (a b : option jsstring) : option jsstring :=
  if falsy a then b else a.

Definition cleanContent (content : option jsstring) : jsstring :=
  match content with
  | None => contenuAVenir
  | Some [] => contenuAVenir
  | Some s =>
      trim (replaceAll commentRe []
             (replaceAll styleRe []
               (replaceAll scriptRe [] s)))
  end.

Definition SPACE : N := 32.
Definition ellipsis : jsstring := lit "...".

Definition extractSummary (content : option jsstring) : jsstring :=
  match content with
  | None => resumeAVenir
  | Some [] => resumeAVenir
  | Some s =>
      let textContent := trim (replaceAll tagRe [] s) in
      if length textContent <=? 200 then textContent
      else
        let truncated := substring0 200 textContent in
        let lastSpace := lastIndexOf truncated SPACE in
        if (150 <? lastSpace)%Z
        then substring0 (Z.to_nat lastSpace) truncated ++ ellipsis
        else truncated ++ ellipsis
  end.

(** The gazetteer of [extractCity], in declaration order. *)
Definition cities : list jsstring :=
  [ lit "Paris"; lit "Lyon"; lit "Marseille"; lit "Toulouse"; lit "Nice";
    lit "Nantes"; lit "Strasbourg"; lit "Montpellier"; lit "Bordeaux";
    lit "Lille"; lit "Rennes"; lit "Reims"; lit "Le Havre";
    lit "Saint-" ++ [201%N] ++ lit "tienne"; lit "Toulon"; lit "Angers";
    lit "Grenoble"; lit "Dijon"; lit "N" ++ [238%N] ++ lit "mes";
    lit "Aix-en-Provence" ].

Definition extractCity (content : option jsstring) : option jsstring :=
  match content with
  | None => None
  | Some [] => None
  | Some s =>
      let textContent := replaceAll tagRe [] s in
      find (fun city => includes textContent city) cities
  end.

(** ** Data model *)

(** An entry of [this.sources]. *)
Record Source : Type := {
  src_url : jsstring;
  src_type : jsstring;
  src_establishmentType : jsstring
}.

Record Enclosure : Type := { enc_link : option jsstring }.

(** An element of [rssData.items]; a field that may be missing is optional. *)
Record Article : Type := {
  title : option jsstring;
  link : jsstring;
  pubDate : option jsstring;
  content : option jsstring;
  description : option jsstring;
  thumbnail : option jsstring;
  enclosure : option Enclosure
}.

(** [new Date(raw)]: the date object built from the raw field, unparsed. *)
Inductive JSDate : Type := DateOf (raw : option jsstring).

(** [firebase.firestore.FieldValue.serverTimestamp()] *)
Inductive FieldValue : Type := serverTimestamp.

(** The object [newsData] written to the collection. *)
Record NewsData : Type := {
  nd_title : jsstring;
  nd_content : jsstring;
  nd_summary : jsstring;
  nd_url : jsstring;
  nd_type : jsstring;
  nd_establishmentType : jsstring;
  nd_status : jsstring;
  nd_featured : bool;
  nd_author : jsstring;
  nd_source : jsstring;
  nd_publishedAt : JSDate;
  nd_createdAt : FieldValue;
  nd_timestamp : FieldValue;
  nd_views : nat;
  nd_tags : list jsstring;
  nd_syncedAt : FieldValue;
  nd_imageUrl : option jsstring;
  nd_city : option jsstring
}.

Inductive Severity : Type := info | success | warning | error.

(** An entry of [this.logs]. The timestamp is the reading of the clock
    ([new Date().toLocaleString('fr-FR')]), kept as the number of the
    reading. *)
Record LogEntry : Type := {
  timestamp : nat;
  message : jsstring;
  type : Severity
}.

(** The result of an awaited call: a value, or a thrown error (its message). *)
Inductive Outcome (A : Type) : Type :=
| Return (a : A)
| Throw (msg : jsstring).
Arguments Return {A} a.
Arguments Throw {A} msg.

(** What [response.json()] resolves to. *)
Record RssData : Type := {
  rss_status : jsstring;
  rss_message : option jsstring;
  rss_items : option (list Article)
}.

(** What [fetch] resolves to. *)
Record Response : Type := {
  ok : bool;
  status : nat;
  json : Outcome RssData
}.

(** The calls the service makes to the outside, as they happen. *)
Inductive Call : Type :=
| ConsoleLog (line : jsstring)
| Fetch (url : jsstring)
| DbGet (url : jsstring)   (* the query where('url', '==', url).limit(1).get() *)
| DbAdd (doc : NewsData)   (* add(doc) on the collection *)
| LoadNews.

(** The fields of the instance, and the world around it: the collection
    [news], the calls made so far (oldest first), the fate of the next
    Firestore requests ([Some msg]: the request is rejected with [msg]; past
    the end every request succeeds), and the number of clock readings. *)
Record State : Type := {
  sources : list Source;
  logs : list LogEntry;
  isRunning : bool;
  news : list NewsData;
  calls : list Call;
  faults : list (option jsstring);
  clock : nat
}.

Definition set_logs (l : list LogEntry) (st : State) : State :=
  {| sources := sources st; logs := l; isRunning := isRunning st;
     news := news st; calls := calls st; faults := faults st;
     clock := clock st |}.

Definition set_isRunning (b : bool) (st : State) : State :=
  {| sources := sources st; logs := logs st; isRunning := b;
     news := news st; calls := calls st; faults := faults st;
     clock := clock st |}.

Definition set_news (l : list NewsData) (st : State) : State :=
  {| sources := sources st; logs := logs st; isRunning := isRunning st;
     news := l; calls := calls st; faults := faults st; clock := clock st |}.

Definition set_calls (l : list Call) (st : State) : State :=
  {| sources := sources st; logs := logs st; isRunning := isRunning st;
     news := news st; calls := l; faults := faults st; clock := clock st |}.

Definition set_faults (l : list (option jsstring)) (st : State) : State :=
  {| sources := sources st; logs := logs st; isRunning := isRunning st;
     news := news st; calls := calls st; faults := l; clock := clock st |}.

Definition set_clock (n : nat) (st : State) : State :=
  {| sources := sources st; logs := logs st; isRunning := isRunning st;
     news := news st; calls := calls st; faults := faults st; clock := n |}.

(** The state the constructor builds, in a given world. *)
Definition constructor (db : list NewsData) (fs : list (option jsstring))
    (now : nat) : State :=
  {| sources :=
       [ {| src_url := lit "https://larevuedeshotels.com/feed";
            src_type := lit "hotel";
            src_establishmentType := lit "hotels" |};
         {| src_url := lit "https://larevuedesrestaurants.com/feed";
            src_type := lit "restaurant";
            src_establishmentType := lit "restaurants" |} ];
     logs := [];
     isRunning := false;
     news := db; calls := []; faults := fs; clock := now |}.

(** ** The monad of the methods *)

Definition M (A : Type) : Type := State -> Outcome A * State.

Definition ret {A} (a : A) : M A := fun st => (Return a, st).

Definition throw {A} (msg : jsstring) : M A := fun st => (Throw msg, st).

Definition bind {A B} (m : M A) (k : A -> M B) : M B :=
  fun st =>
    match m st with
    | (Return a, st') => k a st'
    | (Throw msg, st') => (Throw msg, st')
    end.

(** [try { m } catch (error) { h error.message }] *)
Definition tryCatch {A} (m : M A) (h : jsstring -> M A) : M A :=
  fun st =>
    match m st with
    | (Return a, st') => (Return a, st')
    | (Throw msg, st') => h msg st'
    end.

(** [try { m } finally { f }] for a [finally] block that cannot throw *)
Definition tryFinally {A} (m : M A) (f : State -> State) : M A :=
  fun st => let (r, st') := m st in (r, f st').

(** A statement that only updates the state. *)
Definition exec_ (f : State -> State) : M unit := fun st => (Return tt, f st).

Declare Scope js_scope.
Delimit Scope js_scope with js.
Notation "x <- m ;; k" := (bind m (fun x => k))
  (at level 61, m at next level, right associativity) : js_scope.
Notation "m ;; k" := (bind m (fun _ => k))
  (at level 61, right associativity) : js_scope.
Open Scope js_scope.

Definition call (c : Call) : M unit :=
  exec_ (fun st => set_calls (calls st ++ [c]) st).

(** A Firestore request resolves or is rejected as the world decides. *)
Definition request : M unit :=
  fun st =>
    match faults st with
    | [] => (Return tt, st)
    | None :: fs => (Return tt, set_faults fs st)
    | Some msg :: fs => (Throw msg, set_faults fs st)
    end.

(** ** The event log *)

Definition severityUpper (t : Severity) : jsstring :=
  match t with
  | info => lit "INFO"
  | success => lit "SUCCESS"
  | warning => lit "WARNING"
  | error => lit "ERROR"
  end.

(** [updateUI] writes to the page when the status element exists and swallows
    every error; it reads the instance and changes none of its fields. *)
Definition updateUI (st : State) : State := st.

(** [log(message, type)]: the entry goes to the front of the buffer
    ([unshift]); past a hundred entries the last one is dropped ([pop]); the
    line is printed and the page updated. *)
Definition log (msg : jsstring) (t : Severity) (st : State) : State :=
  let logEntry := {| timestamp := clock st; message := msg; type := t |} in
  let unshifted := logEntry :: logs st in
  let kept := if 100 <? length unshifted then removelast unshifted
              else unshifted in
  let line := lit "[" ++ severityUpper t ++ lit "] " ++ msg in
  updateUI
    (set_calls (calls st ++ [ConsoleLog line])
       (set_logs kept (set_clock (S (clock st)) st))).

(** [array.slice(0, limit)] *)
Definition slice0 {A} (limit : Z) (l : list A) : list A :=
  if (limit <? 0)%Z then firstn (length l - Z.to_nat (- limit)) l
  else firstn (Z.to_nat limit) l.

Definition getLogs (limit : Z) (st : State) : list LogEntry :=
  slice0 limit (logs st).

(** U+1F5D1 U+FE0F, then " Logs supprim", U+00E9, "s" *)
Definition logsSupprimes : jsstring :=
  [55357%N; 56785%N; 65039%N] ++ lit " Logs supprim" ++ [233%N] ++ lit "s".

Definition clearLogs (st : State) : State :=
  log logsSupprimes info (set_logs [] st).

(** ** Synchronisation *)

Definition QUOTE : N := 34.

(** A value of a template literal that may be [undefined]. *)
Definition show (v : option jsstring) : jsstring :=
  match v with Some s => s | None => lit "undefined" end.

(** The message of the TypeError raised when a property of [undefined] is read
    (the wording is the engine's). *)
Definition typeError (prop : string) : jsstring :=
  lit "Cannot read properties of undefined (reading '" ++ lit prop ++ lit "')".

(** U+274C *)
Definition CROSS : jsstring := [10060%N].
(** U+2705 *)
Definition CHECK : jsstring := [9989%N].

Record Counts : Type := { added : nat; processed : nat }.
Record Totals : Type := { totalAdded : nat; totalProcessed : nat }.

Definition traites : jsstring := lit "trait" ++ [233%N] ++ lit "s".

(** The messages of [syncSource] and [syncAll]. *)
Definition msgRecuperation (source : Source) : jsstring :=
  [55357%N; 56549%N] ++ lit " R" ++ [233%N] ++ lit "cup" ++ [233%N]
  ++ lit "ration du flux: " ++ src_type source.

Definition msgTrouves (source : Source) (n : nat) : jsstring :=
  [55357%N; 56522%N] ++ lit " " ++ showNat n ++ lit " articles trouv"
  ++ [233%N] ++ lit "s pour " ++ src_type source.

Definition msgBilan (source : Source) (c : Counts) : jsstring :=
  CHECK ++ lit " " ++ src_type source ++ lit ": " ++ showNat (added c)
  ++ lit " nouveaux / " ++ showNat (processed c) ++ lit " " ++ traites.

Definition msgErreurSource (source : Source) (err : jsstring) : jsstring :=
  CROSS ++ lit " Erreur source " ++ src_type source ++ lit ": " ++ err.

Definition msgErreurGlobale (err : jsstring) : jsstring :=
  CROSS ++ lit " Erreur globale: " ++ err.

Definition msgTraitement (source : Source) : jsstring :=
  [55357%N; 56545%N] ++ lit " Traitement de: " ++ src_url source.

Definition msgDebut : jsstring :=
  [55357%N; 56960%N] ++ lit " D" ++ [233%N]
  ++ lit "but de la synchronisation RSS globale".

Definition msgTerminee (t : Totals) : jsstring :=
  CHECK ++ lit " Synchronisation termin" ++ [233%N] ++ lit "e: "
  ++ showNat (totalAdded t) ++ lit " nouveaux articles sur "
  ++ showNat (totalProcessed t) ++ lit " " ++ traites.

Definition msgErreurTraitement (err : jsstring) : jsstring :=
  CROSS ++ lit " Erreur traitement article: " ++ err.

Definition msgErreurArticle (article : Article) (err : jsstring) : jsstring :=
  CROSS ++ lit " Erreur article " ++ [QUOTE] ++ show (title article)
  ++ [QUOTE] ++ lit ": " ++ err.

Definition msgAjoute (article : Article) : jsstring :=
  CHECK ++ lit " Article ajout" ++ [233%N] ++ lit ": " ++ [QUOTE]
  ++ substring0 50 (show (title article)) ++ lit "..." ++ [QUOTE].

(** U+274C, then " Synchronisation deja en cours" with its accents *)
Definition dejaEnCours : jsstring :=
  CROSS ++ lit " Synchronisation d" ++ [233%N] ++ lit "j" ++ [224%N]
  ++ lit " en cours".

(** The message of the URIError of [encodeURIComponent]. *)
Definition uriError : jsstring := lit "URI malformed".

(** The template literal of the constant [rssApiUrl]: the address, or the
    error of [encodeURIComponent]. *)
Definition rssApiUrl (source : Source) : Outcome jsstring :=
  match encodeURIComponent (src_url source) with
  | Some encoded =>
      Return (lit "https://api.rss2json.com/v1/api.json?rss_url="
              ++ encoded
              ++ lit "&api_key=YOUR_API_KEY&count=20")
  | None => Throw uriError
  end.

(** [db.collection('news').where('url', '==', url).limit(1).get()], then
    [existing.empty]. *)
Definition hasUrl (url : jsstring) (db : list NewsData) : bool :=
  existsb (fun doc => jseqb (nd_url doc) url) db.

Definition db_get_empty (url : jsstring) : M bool :=
  call (DbGet url) ;;
  request ;;
  fun st => (Return (negb (hasUrl url (news st))), st).

(** [db.collection('news').add(doc)] *)
Definition db_add (doc : NewsData) : M unit :=
  call (DbAdd doc) ;;
  request ;;
  exec_ (fun st => set_news (news st ++ [doc]) st).

Definition with_imageUrl (v : jsstring) (d : NewsData) : NewsData :=
  {| nd_title := nd_title d; nd_content := nd_content d;
     nd_summary := nd_summary d; nd_url := nd_url d; nd_type := nd_type d;
     nd_establishmentType := nd_establishmentType d;
     nd_status := nd_status d; nd_featured := nd_featured d;
     nd_author := nd_author d; nd_source := nd_source d;
     nd_publishedAt := nd_publishedAt d; nd_createdAt := nd_createdAt d;
     nd_timestamp := nd_timestamp d; nd_views := nd_views d;
     nd_tags := nd_tags d; nd_syncedAt := nd_syncedAt d;
     nd_imageUrl := Some v; nd_city := nd_city d |}.

Definition with_city (v : jsstring) (d : NewsData) : NewsData :=
  {| nd_title := nd_title d; nd_content := nd_content d;
     nd_summary := nd_summary d; nd_url := nd_url d; nd_type := nd_type d;
     nd_establishmentType := nd_establishmentType d;
     nd_status := nd_status d; nd_featured := nd_featured d;
     nd_author := nd_author d; nd_source := nd_source d;
     nd_publishedAt := nd_publishedAt d; nd_createdAt := nd_createdAt d;
     nd_timestamp := nd_timestamp d; nd_views := nd_views d;
     nd_tags := nd_tags d; nd_syncedAt := nd_syncedAt d;
     nd_imageUrl := nd_imageUrl d; nd_city := Some v |}.

(** The statements of [processArticle] between the lookup and the write: the
    record built from an article that has a title. *)
Definition buildNewsData (article : Article) (source : Source)
    (trimmedTitle : jsstring) : NewsData :=
  let cleaned := cleanContent (orElse (content article) (description article)) in
  let summary := extractSummary (orElse (description article) (Some cleaned)) in
  let newsData :=
    {| nd_title := trimmedTitle;
       nd_content := cleaned;
       nd_summary := summary;
       nd_url := link article;
       nd_type := src_type source;
       nd_establishmentType := src_establishmentType source;
       nd_status := lit "published";
       nd_featured := false;
       nd_author := lit "La Revue";
       nd_source := src_url source;
       nd_publishedAt := DateOf (pubDate article);
       nd_createdAt := serverTimestamp;
       nd_timestamp := serverTimestamp;
       nd_views := 0;
       nd_tags := [lit "actualit" ++ [233%N]; src_type source; lit "wordpress"];
       nd_syncedAt := serverTimestamp;
       nd_imageUrl := None;
       nd_city := None |} in
  let newsData :=
    if negb (falsy (thumbnail article)) then
      with_imageUrl (show (thumbnail article)) newsData
    else
      match enclosure article with
      | Some e => if negb (falsy (enc_link e))
                  then with_imageUrl (show (enc_link e)) newsData
                  else newsData
      | None => newsData
      end in
  match extractCity (Some cleaned) with
  | Some city => with_city city newsData
  | None => newsData
  end.

Definition processArticle (article : Article) (source : Source) : M bool :=
  tryCatch
    (empty <- db_get_empty (link article) ;;
     if negb empty then ret false
     else
       (* article.title.trim() throws on a missing title, while the record
          is built *)
       trimmed <- match title article with
                  | Some t => ret (trim t)
                  | None => throw (typeError "trim")
                  end ;;
       db_add (buildNewsData article source trimmed) ;;
       exec_ (log (msgAjoute article) success) ;;
       ret true)
    (fun err =>
       exec_ (log (msgErreurTraitement err) error) ;;
       throw err).

(** The loop of [syncSource] over [rssData.items], with its two counters. *)
Fixpoint forArticles (source : Source) (items : list Article)
    (nAdded nProcessed : nat) : M Counts :=
  match items with
  | [] => ret {| added := nAdded; processed := nProcessed |}
  | article :: more =>
      c <- tryCatch
             (wasAdded <- processArticle article source ;;
              ret {| added := if wasAdded then S nAdded else nAdded;
                     processed := S nProcessed |})
             (fun err =>
                exec_ (log (msgErreurArticle article err) error) ;;
                ret {| added := nAdded; processed := nProcessed |}) ;;
      forArticles source more (added c) (processed c)
  end.

Section World.

(** The network: what [fetch] does with a URL. *)
Variable fetch : jsstring -> Outcome Response.

(** The global [loadNews]: absent, or a function that resolves or throws. *)
Variable loadNews : option (Outcome unit).

Definition do_fetch (url : jsstring) : M Response :=
  call (Fetch url) ;;
  fun st => (fetch url, st).

Definition await {A} (o : Outcome A) : M A := fun st => (o, st).

Definition syncSource (source : Source) : M Counts :=
  tryCatch
    (url <- await (rssApiUrl source) ;;
     exec_ (log (msgRecuperation source) info) ;;
     response <- do_fetch url ;;
     if negb (ok response) then
       throw (lit "Erreur HTTP: " ++ showNat (status response))
     else
       rssData <- await (json response) ;;
       if negb (jseqb (rss_status rssData) (lit "ok")) then
         throw (lit "Erreur RSS: " ++ show (rss_message rssData))
       else
         items <- match rss_items rssData with
                  | Some l => ret l
                  | None => throw (typeError "length")
                  end ;;
         exec_ (log (msgTrouves source (length items)) info) ;;
         c <- forArticles source items 0 0 ;;
         exec_ (log (msgBilan source c) info) ;;
         ret c)
    (fun err =>
       exec_ (log (msgErreurSource source err) error) ;;
       throw err).

(** The loop of [syncAll] over [this.sources], with its two totals. *)
Fixpoint forSources (l : list Source) (nAdded nProcessed : nat)
    : M Totals :=
  match l with
  | [] => ret {| totalAdded := nAdded; totalProcessed := nProcessed |}
  | source :: more =>
      exec_ (log (msgTraitement source) info) ;;
      result <- syncSource source ;;
      forSources more (nAdded + added result)
                      (nProcessed + processed result)
  end.

Definition do_loadNews : M unit :=
  match loadNews with
  | Some o => call LoadNews ;; await o
  | None => ret tt
  end.

(** [syncAll] returns [undefined] ([None]) when a run is in progress, and the
    totals otherwise. *)
Definition syncAll : M (option Totals) :=
  fun st =>
    if isRunning st then
      (exec_ (log dejaEnCours warning) ;; ret None) st
    else
      (exec_ (set_isRunning true) ;;
       exec_ (log msgDebut info) ;;
       t <- tryFinally
              (tryCatch
                 (l <- (fun st => (Return (sources st), st)) ;;
                  t <- forSources l 0 0 ;;
                  exec_ (log (msgTerminee t) success) ;;
                  do_loadNews ;;
                  ret t)
                 (fun err =>
                    exec_ (log (msgErreurGlobale err) error) ;;
                    throw err))
              (fun st => updateUI (set_isRunning false st)) ;;
       ret (Some t)) st.

End World.

(** ** The test of the feeds *)

(** An element of the array [testFeeds] returns. *)
Record TestResult : Type := {
  tr_url : jsstring;
  tr_type : jsstring;
  tr_status : jsstring;
  tr_itemCount : nat;
  tr_error : option jsstring
}.

(** The template literal of the address [testFeeds] fetches: the address, or
    the error of [encodeURIComponent]. *)
Definition testApiUrl (source : Source) : Outcome jsstring :=
  match encodeURIComponent (src_url source) with
  | Some encoded =>
      Return (lit "https://api.rss2json.com/v1/api.json?rss_url="
              ++ encoded
              ++ lit "&count=5")
  | None => Throw uriError
  end.

(** U+1F9EA, then " Test des flux RSS en cours..." *)
Definition msgTestDebut : jsstring :=
  [55358%N; 56810%N] ++ lit " Test des flux RSS en cours...".

(** U+1F3C1, then " Test des flux termin", U+00E9 *)
Definition msgTestFin : jsstring :=
  [55356%N; 57281%N] ++ lit " Test des flux termin" ++ [233%N].

Definition msgDisponibles (source : Source) (n : nat) : jsstring :=
  CHECK ++ lit " " ++ src_type source ++ lit ": " ++ showNat n
  ++ lit " articles disponibles".

Definition msgTestKo (source : Source) (data : RssData) : jsstring :=
  CROSS ++ lit " " ++ src_type source ++ lit ": " ++ show (rss_message data).

Definition msgErreurTest (source : Source) (err : jsstring) : jsstring :=
  CROSS ++ lit " Erreur test " ++ src_type source ++ lit ": " ++ err.

(** The object [result] of the [try] block. *)
Definition testResult (source : Source) (data : RssData) : TestResult :=
  {| tr_url := src_url source;
     tr_type := src_type source;
     tr_status := rss_status data;
     tr_itemCount := match rss_items data with
                     | Some l => length l
                     | None => 0
                     end;
     tr_error := orElse (rss_message data) None |}.

(** The object pushed by the [catch] block. *)
Definition testFailure (source : Source) (err : jsstring) : TestResult :=
  {| tr_url := src_url source;
     tr_type := src_type source;
     tr_status := lit "error";
     tr_itemCount := 0;
     tr_error := Some err |}.

Section Test.

Variable fetch : jsstring -> Outcome Response.

(** The [catch] block, for the array as it stands when the error is thrown. *)
Definition testCatch (source : Source) (results : list TestResult)
    (err : jsstring) : M (list TestResult) :=
  exec_ (log (msgErreurTest source err) error) ;;
  ret (results ++ [testFailure source err]).

(** One turn of the loop of [testFeeds]. [results.push(result)] stands inside
    the [try], before the lines that read [data.items.length]: an error
    thrown after it finds the result already in the array. *)
Definition testSource (source : Source) (results : list TestResult)
    : M (list TestResult) :=
  tryCatch
    (url <- await (testApiUrl source) ;;
     response <- do_fetch fetch url ;;
     data <- await (json response) ;;
     let pushed := results ++ [testResult source data] in
     tryCatch
       (if jseqb (rss_status data) (lit "ok") then
          n <- match rss_items data with
               | Some l => ret (length l)
               | None => throw (typeError "length")
               end ;;
          exec_ (log (msgDisponibles source n) info) ;;
          ret pushed
        else
          exec_ (log (msgTestKo source data) error) ;;
          ret pushed)
       (testCatch source pushed))
    (testCatch source results).

Fixpoint forTests (l : list Source) (results : list TestResult)
    : M (list TestResult) :=
  match l with
  | [] => ret results
  | source :: more =>
      results' <- testSource source results ;;
      forTests more results'
  end.

Definition testFeeds : M (list TestResult) :=
  exec_ (log msgTestDebut info) ;;
  l <- (fun st => (Return (sources st), st)) ;;
  results <- forTests l [] ;;
  exec_ (log msgTestFin info) ;;
  ret results.

End Test.

(** ** Observations and reference definitions used by the statements *)

(** The operations of the event log. *)
Inductive LogOp : Type :=
| OpRecord (msg : jsstring) (t : Severity)
| OpQuery (limit : Z)
| OpClear.

Definition applyOp (st : State) (op : LogOp) : State :=
  match op with
  | OpRecord msg t => log msg t st
  | OpQuery limit => let _ := getLogs limit st in st
  | OpClear => clearLogs st
  end.

(** The unbounded history: the clock, and every entry recorded since the last
    clear, newest first. *)
Definition History : Type := (nat * list LogEntry)%type.

Definition recordAll (msg : jsstring) (t : Severity) (h : History) : History :=
  (S (fst h), {| timestamp := fst h; message := msg; type := t |} :: snd h).

Definition historyOp (h : History) (op : LogOp) : History :=
  match op with
  | OpRecord msg t => recordAll msg t h
  | OpQuery _ => h
  | OpClear => recordAll logsSupprimes info (fst h, [])
  end.

(** What a trace of calls shows: the URLs fetched, the keys looked up, the
    documents written, the lines printed. *)
Definition fetched (l : list Call) : list jsstring :=
  flat_map (fun c => match c with Fetch u => [u] | _ => [] end) l.

Definition lookedUp (l : list Call) : list jsstring :=
  flat_map (fun c => match c with DbGet u => [u] | _ => [] end) l.

Definition written (l : list Call) : list NewsData :=
  flat_map (fun c => match c with DbAdd d => [d] | _ => [] end) l.

Definition printed (l : list Call) : list jsstring :=
  flat_map (fun c => match c with ConsoleLog s => [s] | _ => [] end) l.

(** The line printed for a log entry. *)
Definition consoleLine (msg : jsstring) (t : Severity) : jsstring :=
  lit "[" ++ severityUpper t ++ lit "] " ++ msg.

(** The outcome of the fetch step of [syncSource] for a source: the items of
    its feed, or the error that aborts the source. *)
Definition feedItems (fetch : jsstring -> Outcome Response) (source : Source)
    : Outcome (list Article) :=
  match rssApiUrl source with
  | Throw msg => Throw msg
  | Return url =>
      match fetch url with
      | Throw msg => Throw msg
      | Return response =>
          if negb (ok response) then
            Throw (lit "Erreur HTTP: " ++ showNat (status response))
          else
            match json response with
            | Throw msg => Throw msg
            | Return rssData =>
                if negb (jseqb (rss_status rssData) (lit "ok")) then
                  Throw (lit "Erreur RSS: " ++ show (rss_message rssData))
                else
                  match rss_items rssData with
                  | Some l => Return l
                  | None => Throw (typeError "length")
                  end
            end
      end
  end.

(** The number of items the feeds of a list of sources hold. *)
Definition feedSize (fetch : jsstring -> Outcome Response) (l : list Source)
    : nat :=
  list_sum (map (fun s => match feedItems fetch s with
                          | Return items => length items
                          | Throw _ => 0
                          end) l).

(** The lines [syncSource] prints when an item fails. *)
Definition isItemError (line : jsstring) : bool :=
  startsWith (lit "[ERROR] " ++ CROSS ++ lit " Erreur article " ++ [QUOTE]) line.

Definition itemErrors (l : list Call) : nat :=
  length (filter isItemError (printed l)).

(** ** Reference definitions for the synchronisation *)

(** An invariant [I] between the state before and the state after is kept by
    a computation. *)
Definition keeps {A} (I : State -> State -> Prop) (m : M A) : Prop :=
  forall st, I st (snd (m st)).

(** A computation that does not read [isRunning]. *)
Definition blind {A} (m : M A) : Prop :=
  forall b st,
    m (set_isRunning b st) = (fst (m st), set_isRunning b (snd (m st))).

(** The fields [sources] and [isRunning] stay. *)
Definition sameFlag (st st' : State) : Prop :=
  sources st' = sources st /\ isRunning st' = isRunning st.

(** Nothing is fetched. *)
Definition noFetch (st st' : State) : Prop :=
  fetched (calls st') = fetched (calls st) /\
  isRunning st' = isRunning st.

Definition notFetch (c : Call) : bool :=
  match c with Fetch _ => false | _ => true end.

(** The collection only grows. *)
Definition grows (st st' : State) : Prop :=
  forall u, hasUrl u (news st) = true -> hasUrl u (news st') = true.

(** The trace of calls is only extended. *)
Definition extends (st st' : State) : Prop :=
  exists tr, calls st' = calls st ++ tr.

(** The buffer of the log stays within its hundred entries. *)
Definition bounded (st st' : State) : Prop :=
  length (logs st) <= 100 -> length (logs st') <= 100.

(** The item is in the collection. *)
Definition known (st : State) (article : Article) : Prop :=
  hasUrl (link article) (news st) = true.

(** The addresses built for the sources of a list, in order: a source whose
    url cannot be encoded has none. *)
Definition addresses (build : Source -> Outcome jsstring) (l : list Source)
    : list jsstring :=
  flat_map (fun s => match build s with
                     | Return url => [url]
                     | Throw _ => []
                     end) l.

(** The state when the fetch of a source has been issued; when the address
    cannot be built, nothing has been logged or fetched. *)
Definition afterFetch (source : Source) (st : State) : State :=
  match rssApiUrl source with
  | Return url =>
      let st1 := log (msgRecuperation source) info st in
      set_calls (calls st1 ++ [Fetch url]) st1
  | Throw _ => st
  end.

(** The state when the lookup of an item has been answered. *)
Definition afterGet (article : Article) (st : State) : State :=
  set_faults (tl (faults st)) (set_calls (calls st ++ [DbGet (link article)]) st).

(** The rejection the next Firestore request meets, if any. *)
Definition fault (st : State) : option jsstring :=
  match faults st with
  | Some msg :: _ => Some msg
  | _ => None
  end.

(** One turn of the loop of [syncSource]. *)
Definition turn (source : Source) (article : Article) (a p : nat) : M Counts :=
  tryCatch
    (wasAdded <- processArticle article source ;;
     ret {| added := if wasAdded then S a else a; processed := S p |})
    (fun err =>
       exec_ (log (msgErreurArticle article err) error) ;;
       ret {| added := a; processed := p |}).

(** The order of the specification: the Mapper, then the Gate, then the
    write. *)
Definition processArticle_mapperFirst (article : Article) (source : Source)
    : M bool :=
  tryCatch
    (trimmed <- match title article with
                | Some t => ret (trim t)
                | None => throw (typeError "trim")
                end ;;
     let doc := buildNewsData article source trimmed in
     empty <- db_get_empty (link article) ;;
     if negb empty then ret false
     else
       db_add doc ;;
       exec_ (log (msgAjoute article) success) ;;
       ret true)
    (fun err =>
       exec_ (log (msgErreurTraitement err) error) ;;
       throw err).

(** What the loop of [syncSource] has to do with the items, told item by
    item: [processArticle] runs on each item in feed order, on the state the
    item before left; when it throws, the error of the item is logged and the
    next item follows.  [outs] are the outcomes of the items. *)
Inductive itemRun (source : Source)
    : list Article -> State -> list (Outcome bool) -> State -> Prop :=
| itemRun_nil st : itemRun source [] st [] st
| itemRun_done article more st b st1 outs st' :
    processArticle article source st = (Return b, st1) ->
    itemRun source more st1 outs st' ->
    itemRun source (article :: more) st (Return b :: outs) st'
| itemRun_failed article more st msg st1 outs st' :
    processArticle article source st = (Throw msg, st1) ->
    itemRun source more (log (msgErreurArticle article msg) error st1)
      outs st' ->
    itemRun source (article :: more) st (Throw msg :: outs) st'.

(** The items that did not fail. *)
Definition returned (outs : list (Outcome bool)) : nat :=
  length (filter (fun o => match o with Return _ => true | Throw _ => false end)
            outs).

(** The items that were added. *)
Definition inserted (outs : list (Outcome bool)) : nat :=
  length (filter (fun o => match o with Return true => true | _ => false end)
            outs).

(** The error lines of the items that failed, in feed order. *)
Definition failureLines (items : list Article) (outs : list (Outcome bool))
    : list jsstring :=
  flat_map (fun x => match snd x with
                     | Throw msg =>
                         [consoleLine (msgErreurArticle (fst x) msg) error]
                     | Return _ => []
                     end) (combine items outs).

(** The error lines of items in a trace. *)
Definition itemErrorLines (l : list Call) : list jsstring :=
  filter isItemError (printed l).

(** Every item of the feeds that has a title is in the collection. *)
Definition titledKnown (fetch : jsstring -> Outcome Response)
    (l : list Source) (st : State) : Prop :=
  forall s items article,
    In s l -> feedItems fetch s = Return items -> In article items ->
    title article <> None -> known st article.

(** No pending request is rejected. *)
Definition quiet (st : State) : Prop :=
  forall msg, ~ In (Some msg) (faults st).

(** ** Reference definitions for the content *)

(** [p] occurs in [s] as a substring, code unit for code unit. *)
Definition occurs (p s : jsstring) : Prop :=
  exists pre post, s = pre ++ p ++ post.

(** The text [extractCity] searches. *)
Definition cityText (content : option jsstring) : jsstring :=
  match content with
  | Some s => replaceAll tagRe [] s
  | None => []
  end.

(** The greatest index of a code unit that passes [f], or -1. *)
Fixpoint lastIndexWhere_from (f : N -> bool) (i : Z) (s : jsstring) : Z :=
  match s with
  | [] => (-1)%Z
  | x :: s' =>
      let later := lastIndexWhere_from f (i + 1) s' in
      if (0 <=? later)%Z then later
      else if f x then i else (-1)%Z
  end.

(** The summary of the specification: the cut backs up to the last
    whitespace. *)
Definition extractSummary_whitespace (content : option jsstring) : jsstring :=
  match content with
  | None => resumeAVenir
  | Some [] => resumeAVenir
  | Some s =>
      let textContent := trim (replaceAll tagRe [] s) in
      if length textContent <=? 200 then textContent
      else
        let truncated := substring0 200 textContent in
        let lastSpace := lastIndexWhere_from isWhiteSpace 0 truncated in
        if (150 <? lastSpace)%Z
        then substring0 (Z.to_nat lastSpace) truncated ++ ellipsis
        else truncated ++ ellipsis
  end.

(** The position after a literal at [x], if the literal is there. *)
Fixpoint dropPrefix (cls : N -> N -> bool) (p : jsstring) (x : cursor)
    : option cursor :=
  match p with
  | [] => Some x
  | c :: p' =>
      match rest x with
      | y :: s => if cls c y then dropPrefix cls p' (Cursor (Some y) s) else None
      | [] => None
      end
  end.

(** The position after the first occurrence of a literal in [s]. *)
Fixpoint afterFirst (cls : N -> N -> bool) (p : jsstring) (b : option N)
    (s : jsstring) : option cursor :=
  match dropPrefix cls p (Cursor b s) with
  | Some y => Some y
  | None =>
      match s with
      | [] => None
      | c :: s' => afterFirst cls p (Some c) s'
      end
  end.

(** A markup tag at [x]: a less-than sign and everything up to the first
    greater-than sign. *)
Definition execTag (x : cursor) : option cursor :=
  match rest x with
  | c :: s => if N.eqb c LT then afterFirst isChar [GT] (Some c) s else None
  | [] => None
  end.

(** A block of tag [T] at [x]: the opening tag name in either case, a word
    boundary, and everything up to the first closing tag. *)
Definition execBlock (T : string) (x : cursor) : option cursor :=
  match dropPrefix isCI (openTag T) x with
  | Some y =>
      if xorb (wordBefore y) (wordAfter y)
      then afterFirst isCI (closeTag T) (before y) (rest y)
      else None
  | None => None
  end.

(** A comment at [x]: the opening mark and everything up to the first closing
    mark. *)
Definition execComment (x : cursor) : option cursor :=
  match dropPrefix isChar (lit "<!--") x with
  | Some y => afterFirst isChar (lit "-->") (before y) (rest y)
  | None => None
  end.

(** The replacement by the empty string, for a matcher: every match is cut
    out, the rest is kept. *)
Definition strip (m : cursor -> option cursor) (b : option N) (s : jsstring)
    : jsstring :=
  replace_from (S (length s)) m [] (Cursor b s).

Definition stripTags : jsstring -> jsstring := strip execTag None.

Definition stripPairs (T : string) : jsstring -> jsstring :=
  strip (execBlock T) None.

Definition stripComments : jsstring -> jsstring := strip execComment None.

(** The text without its tags, by a direct scan: outside a tag a less-than
    sign that has a greater-than sign after it opens a tag; inside a tag
    everything is dropped up to the first greater-than sign. *)
Fixpoint dropTags (inTag : bool) (s : jsstring) : jsstring :=
  match s with
  | [] => []
  | c :: s' =>
      if inTag then
        if N.eqb c GT then dropTags false s' else dropTags true s'
      else if N.eqb c LT && existsb (isChar GT) s' then dropTags true s'
      else c :: dropTags false s'
  end.

(** The run of code units other than [d] at a position. *)
Fixpoint skipRun (d : N) (b : option N) (s : jsstring) : cursor :=
  match s with
  | c :: s' => if isNot d c then skipRun d (Some c) s' else Cursor b s
  | [] => Cursor b []
  end.

(** The code unit [d] stands at [x]. *)
Definition startsAt (d : N) (x : cursor) : bool :=
  match rest x with
  | c :: _ => N.eqb c d
  | [] => false
  end.

(** What is left of the pattern of a block after its loop: the closing tag. *)
Definition kClose (T : string) (fuel : nat) : Cont :=
  fun z => run (closeRe T) fuel z Some.

(** [s] begins with the literal [p], under the class [cls]. *)
Fixpoint prefixOf (cls : N -> N -> bool) (p s : jsstring) : bool :=
  match p, s with
  | [], _ => true
  | c :: p', y :: s' => cls c y && prefixOf cls p' s'
  | _ :: _, [] => false
  end.

(** [s] is the literal [p], under the class [cls]. *)
Fixpoint spells (cls : N -> N -> bool) (p s : jsstring) : bool :=
  match p, s with
  | [], [] => true
  | c :: p', y :: s' => cls c y && spells cls p' s'
  | _, _ => false
  end.

(** The literal [p] occurs somewhere in [s]. *)
Fixpoint found (cls : N -> N -> bool) (p s : jsstring) : bool :=
  prefixOf cls p s ||
  match s with
  | [] => false
  | _ :: s' => found cls p s'
  end.

(** The code unit before the position reached after reading [o] from a
    position that has [b] before it. *)
Definition endOf (b : option N) (o : jsstring) : option N :=
  fold_left (fun _ c => Some c) o b.

(** No code unit of [p] stands for the less-than sign. *)
Definition noLT (cls : N -> N -> bool) (p : jsstring) : bool :=
  forallb (fun c => negb (cls c LT)) p.

(** What follows the name of an opening tag: nothing, or a code unit that is
    not a word character (a space, a greater-than sign). *)
Definition endsName (inner : jsstring) : bool :=
  match inner with
  | [] => true
  | c :: _ => negb (isWordChar c)
  end.

(** ** Examples *)

Definition exampleArticle (t : option string) (l body : string) : Article :=
  {| title := option_map lit t; link := lit l; pubDate := None;
     content := Some (lit body); description := None; thumbnail := None;
     enclosure := None |}.

Definition respond (items : list Article) : Outcome Response :=
  Return {| ok := true; status := 200;
            json := Return {| rss_status := lit "ok"; rss_message := None;
                              rss_items := Some items |} |}.

Definition hotels : Source :=
  {| src_url := lit "https://larevuedeshotels.com/feed";
     src_type := lit "hotel"; src_establishmentType := lit "hotels" |}.

Definition restaurants : Source :=
  {| src_url := lit "https://larevuedesrestaurants.com/feed";
     src_type := lit "restaurant"; src_establishmentType := lit "restaurants" |}.

(** Three items, the second without a title. *)
Definition threeItems : list Article :=
  [ exampleArticle (Some "Un"%string) "https://example.com/a1" "<p>Un</p>";
    exampleArticle None "https://example.com/a2" "<p>Deux</p>";
    exampleArticle (Some "Trois"%string) "https://example.com/a3" "<p>Trois</p>" ].

(** The address of the feed of the hotels. *)
Definition hotelsAddress : jsstring :=
  lit "https://api.rss2json.com/v1/api.json?rss_url=https%3A%2F%2Flarevuedeshotels.com%2Ffeed&api_key=YOUR_API_KEY&count=20".

(** A network where the hotel feed answers with [items] and the other feed is
    empty. *)
Definition hotelFeed (items : list Article) (url : jsstring) : Outcome Response :=
  if jseqb url hotelsAddress then respond items else respond [].

(** A network that is down for the restaurant feed. *)
Definition restaurantsDown (items : list Article) (url : jsstring)
    : Outcome Response :=
  if jseqb url hotelsAddress then respond items
  else Throw (lit "Failed to fetch").

(** A collection that already holds the second of the three items. *)
Definition knownStore : list NewsData :=
  [ buildNewsData (exampleArticle (Some "Deux"%string) "https://example.com/a2"
                     "<p>Deux</p>") hotels (lit "Deux") ].

Definition untitledKnown : Article :=
  exampleArticle None "https://example.com/a2" "<p>Deux</p>".

(** A descriptor whose url is a lone high surrogate. *)
Definition loneSurrogateSource : Source :=
  {| src_url := [55296%N]; src_type := lit "hotel";
     src_establishmentType := lit "hotels" |}.

(** One item, and a collection that rejects the first write. *)
Definition oneItem : list Article :=
  [ exampleArticle (Some " Hello "%string) "https://example.com/a1"
      "<p>Hi</p><script>evil()</script>" ].

Definition firstWriteRejected : list (option jsstring) :=
  [None; Some (lit "unavailable")].

(** Two paragraphs on two lines: 160 letters, a line feed, 60 letters. *)
Definition twoParagraphs : jsstring :=
  lit "<p>" ++ repeat 97%N 160 ++ lit "</p>" ++ [10%N]
  ++ lit "<p>" ++ repeat 98%N 60 ++ lit "</p>".

(** A text that opens no script block, no style block and no comment. *)
Definition plain (t : jsstring) : bool :=
  negb (found isCI (openTag "script") t)
  && negb (found isCI (openTag "style") t)
  && negb (found isChar (lit "<!--") t).

(** ** Reference definitions for the test of the feeds *)

(** What the test of a source finds: the answer of the feed, or the error of
    the address or of the request. *)
Definition testData (fetch : jsstring -> Outcome Response) (source : Source)
    : Outcome RssData :=
  match testApiUrl source with
  | Throw msg => Throw msg
  | Return url =>
      match fetch url with
      | Throw msg => Throw msg
      | Return response => json response
      end
  end.

(** The answer says "ok" and has no array of items. *)
Definition okWithoutItems (data : RssData) : bool :=
  jseqb (rss_status data) (lit "ok") &&
  match rss_items data with Some _ => false | None => true end.

(** The results the test of a source adds to the array. *)
Definition testOutcome (fetch : jsstring -> Outcome Response) (source : Source)
    : list TestResult :=
  match testData fetch source with
  | Throw msg => [testFailure source msg]
  | Return data =>
      if okWithoutItems data
      then [testResult source data; testFailure source (typeError "length")]
      else [testResult source data]
  end.

(** ** Reference definitions for the documents of a run *)

(** The document [processArticle] stores for an item of a source. *)
Definition fromItem (source : Source) (article : Article) (doc : NewsData)
    : Prop :=
  exists t, title article = Some t /\
            doc = buildNewsData article source (trim t).

(** The document comes from an item of the feed of one of the sources. *)
Definition fromFeed (fetch : jsstring -> Outcome Response) (l : list Source)
    (doc : NewsData) : Prop :=
  exists source items article,
    In source l /\ feedItems fetch source = Return items /\
    In article items /\ fromItem source article doc.

(** The collection after is the collection before with documents added at
    its end: each satisfies [P], their urls differ from one another and from
    the urls the collection held. *)
Definition appended (P : NewsData -> Prop) (st st' : State) : Prop :=
  exists docs,
    news st' = news st ++ docs /\
    Forall P docs /\
    NoDup (map nd_url docs) /\
    Forall (fun d => hasUrl (nd_url d) (news st) = false) docs.

(** The links of the items the feeds of a list of sources hold, in order. *)
Definition feedLinks (fetch : jsstring -> Outcome Response) (l : list Source)
    : list jsstring :=
  flat_map (fun s => match feedItems fetch s with
                     | Return items => map link items
                     | Throw _ => []
                     end) l.

Definition feedOk (fetch : jsstring -> Outcome Response) (s : Source) : bool :=
  match feedItems fetch s with Return _ => true | Throw _ => false end.

Definition isLoadNews (c : Call) : bool :=
  match c with LoadNews => true | _ => false end.

(** The number of calls of [loadNews] in a trace. *)
Definition reloads (l : list Call) : nat := length (filter isLoadNews l).

(** The answer of the feed of a source says "ok" and has no items. *)
Definition okButEmpty (fetch : jsstring -> Outcome Response) (source : Source)
    : bool :=
  match testData fetch source with
  | Return data => okWithoutItems data
  | Throw _ => false
  end.

(** The entry the test of a source logs. *)
Definition testLine (fetch : jsstring -> Outcome Response) (source : Source)
    : jsstring * Severity :=
  match testData fetch source with
  | Throw msg => (msgErreurTest source msg, error)
  | Return data =>
      if jseqb (rss_status data) (lit "ok") then
        match rss_items data with
        | Some l => (msgDisponibles source (length l), info)
        | None => (msgErreurTest source (typeError "length"), error)
        end
      else (msgTestKo source data, error)
  end.

(** The calls the test of a source makes. *)
Definition testCalls (fetch : jsstring -> Outcome Response) (source : Source)
    : list Call :=
  map Fetch (addresses testApiUrl [source])
  ++ [ ConsoleLog (consoleLine (fst (testLine fetch source))
                     (snd (testLine fetch source))) ].

(** ** Reference definitions for the texts *)

(** The text does not begin with whitespace. *)
Definition startsClean (s : jsstring) : bool :=
  match s with
  | c :: _ => negb (isWhiteSpace c)
  | [] => true
  end.

(** The text neither begins nor ends with whitespace. *)
Definition tidy (s : jsstring) : bool :=
  startsClean s && startsClean (rev s).

(** A less-than sign of the text has a greater-than sign after it: the text
    holds something the pattern of a tag matches. *)
Fixpoint hasTag (s : jsstring) : bool :=
  match s with
  | [] => false
  | c :: s' => (N.eqb c LT && existsb (isChar GT) s') || hasTag s'
  end.

(** The code units [encodeURIComponent] produces: the unreserved characters
    and the percent sign. *)
Definition isUriSafe (c : N) : bool := isUnreserved c || N.eqb c 37.

(** A script block whose two tags are each split by an empty script block. *)
Definition splitScript (body : jsstring) : jsstring :=
  lit "<scr" ++ lit "<script></script>" ++ lit "ipt>" ++ body
  ++ lit "</scr" ++ lit "<script></script>" ++ lit "ipt>".

(** What holds of every document the service builds for a source of [l]. *)
Definition wellFormed (l : list Source) (d : NewsData) : Prop :=
  tidy (nd_title d) = true /\
  tidy (nd_content d) = true /\
  tidy (nd_summary d) = true /\
  length (nd_summary d) <= 203 /\
  hasTag (nd_summary d) = false /\
  (forall city, nd_city d = Some city ->
     In city cities /\ occurs city (cityText (Some (nd_content d)))) /\
  nd_status d = lit "published" /\ nd_views d = 0 /\ nd_featured d = false /\
  exists source,
    In source l /\ nd_type d = src_type source /\
    nd_establishmentType d = src_establishmentType source /\
    nd_source d = src_url source.

(** A surrogate stands in the string without its other half: a high
    surrogate that no low surrogate follows, or a low surrogate that no high
    surrogate precedes. *)
Definition loneSurrogate (s : jsstring) : Prop :=
  exists pre c post,
    s = pre ++ c :: post /\
    ((isHighSurrogate c = true /\
      forall d post', post = d :: post' -> isLowSurrogate d = false)
     \/ (isLowSurrogate c = true /\
         forall pre' b, pre = pre' ++ [b] -> isHighSurrogate b = false)).

(** * Properties *)

(** ** The event log *)

Lemma removelast_firstn_len {A} (l : list A) :
  removelast l = firstn (length l - 1) l.
Proof.
  induction l as [|x l IH]; [reflexivity|].
  destruct l as [|y l]; [reflexivity|].
  change (removelast (x :: y :: l)) with (x :: removelast (y :: l)).
  rewrite IH. simpl. rewrite Nat.sub_0_r. reflexivity.
Qed.

(** One [log] keeps the hundred newest entries. *)
Lemma log_logs msg t st :
  length (logs st) <= 100 ->
  logs (log msg t st)
  = firstn 100 ({| timestamp := clock st; message := msg; type := t |} :: logs st).
Proof.
  intros Hlen. unfold log, updateUI. cbn [logs set_calls set_logs set_clock].
  destruct (100 <? length (_ :: logs st)) eqn:E.
  - apply Nat.ltb_lt in E. cbn [length] in E.
    rewrite removelast_firstn_len. cbn [length].
    replace (S (length (logs st)) - 1) with 100 by lia. reflexivity.
  - apply Nat.ltb_ge in E. symmetry. apply firstn_all2. exact E.
Qed.

Lemma log_clock msg t st : clock (log msg t st) = S (clock st).
Proof. reflexivity. Qed.

Lemma firstn_cons_firstn {A} n (x : A) l :
  firstn (S n) (x :: firstn (S n) l) = firstn (S n) (x :: l).
Proof.
  rewrite !firstn_cons. f_equal. rewrite firstn_firstn. f_equal. lia.
Qed.

Lemma applyOp_history st h op :
  length (logs st) <= 100 ->
  clock st = fst h ->
  logs st = firstn 100 (snd h) ->
  let st' := applyOp st op in
  let h' := historyOp h op in
  length (logs st') <= 100 /\ clock st' = fst h' /\ logs st' = firstn 100 (snd h').
Proof.
  intros Hlen Hclk Hlogs. destruct op as [msg t|limit|]; cbn [applyOp historyOp].
  - rewrite log_logs by exact Hlen. rewrite log_clock.
    repeat split.
    + rewrite length_firstn. lia.
    + rewrite Hclk. reflexivity.
    + rewrite Hlogs, Hclk. unfold recordAll. cbn [snd fst].
      apply (firstn_cons_firstn 99).
  - auto.
  - unfold clearLogs. rewrite log_logs by (cbn; lia). rewrite log_clock.
    cbn [logs set_logs clock]. repeat split.
    + cbn. lia.
    + cbn. rewrite Hclk. reflexivity.
    + cbn. rewrite Hclk. reflexivity.
Qed.

Lemma fold_applyOp_history ops : forall st h,
  length (logs st) <= 100 ->
  clock st = fst h ->
  logs st = firstn 100 (snd h) ->
  let st' := fold_left applyOp ops st in
  let h' := fold_left historyOp ops h in
  length (logs st') <= 100 /\ clock st' = fst h' /\ logs st' = firstn 100 (snd h').
Proof.
  induction ops as [|op ops IH]; intros st h Hlen Hclk Hlogs; cbn [fold_left].
  - auto.
  - destruct (applyOp_history st h op Hlen Hclk Hlogs) as (H1 & H2 & H3).
    apply IH; assumption.
Qed.

(** ** Invariants kept along a computation *)

Section Kept.

Variable I : State -> State -> Prop.
Variable allowed : Call -> bool.
Hypothesis I_refl : forall st, I st st.
Hypothesis I_trans : forall a b c, I a b -> I b c -> I a c.

Lemma keeps_ret {A} (a : A) : keeps I (ret a).
Proof. intro st. apply I_refl. Qed.

Lemma keeps_throw {A} msg : keeps I (@throw A msg).
Proof. intro st. apply I_refl. Qed.

Lemma keeps_await {A} (o : Outcome A) : keeps I (await o).
Proof. intro st. apply I_refl. Qed.

Lemma keeps_bind {A B} (m : M A) (k : A -> M B) :
  keeps I m -> (forall a, keeps I (k a)) -> keeps I (bind m k).
Proof.
  intros Hm Hk st. unfold bind. specialize (Hm st).
  destruct (m st) as [[a|msg] st1]; cbn [snd] in *.
  - eapply I_trans; [exact Hm | apply Hk].
  - exact Hm.
Qed.

Lemma keeps_tryCatch {A} (m : M A) (h : jsstring -> M A) :
  keeps I m -> (forall msg, keeps I (h msg)) -> keeps I (tryCatch m h).
Proof.
  intros Hm Hh st. unfold tryCatch. specialize (Hm st).
  destruct (m st) as [[a|msg] st1]; cbn [snd] in *.
  - exact Hm.
  - eapply I_trans; [exact Hm | apply Hh].
Qed.

Lemma keeps_exec f : (forall st, I st (f st)) -> keeps I (exec_ f).
Proof. intros Hf st. apply Hf. Qed.

Hypothesis I_log : forall msg t st, I st (log msg t st).
Hypothesis I_faults : forall fs st, I st (set_faults fs st).
Hypothesis I_news : forall d st, I st (set_news (news st ++ [d]) st).
Hypothesis I_call :
  forall c st, allowed c = true -> I st (set_calls (calls st ++ [c]) st).

Lemma keeps_log msg t : keeps I (exec_ (log msg t)).
Proof. apply keeps_exec. apply I_log. Qed.

Lemma keeps_call c : allowed c = true -> keeps I (call c).
Proof. intro H. apply keeps_exec. intro st. apply I_call, H. Qed.

Lemma keeps_request : keeps I request.
Proof.
  intro st. unfold request.
  destruct (faults st) as [|[msg|] fs]; cbn [snd]; auto.
Qed.

Hypothesis allowed_get : forall u, allowed (DbGet u) = true.
Hypothesis allowed_add : forall d, allowed (DbAdd d) = true.

Lemma keeps_db_get_empty u : keeps I (db_get_empty u).
Proof.
  unfold db_get_empty.
  apply keeps_bind; [apply keeps_call, allowed_get | intros _].
  apply keeps_bind; [apply keeps_request | intros _].
  intro st. apply I_refl.
Qed.

Lemma keeps_db_add d : keeps I (db_add d).
Proof.
  unfold db_add.
  apply keeps_bind; [apply keeps_call, allowed_add | intros _].
  apply keeps_bind; [apply keeps_request | intros _].
  apply keeps_exec. intro st. apply I_news.
Qed.

Lemma keeps_processArticle article source :
  keeps I (processArticle article source).
Proof.
  unfold processArticle.
  apply keeps_tryCatch.
  - apply keeps_bind; [apply keeps_db_get_empty | intro empty].
    destruct (negb empty); [apply keeps_ret|].
    apply keeps_bind.
    + destruct (title article); [apply keeps_ret | apply keeps_throw].
    + intro trimmed.
      apply keeps_bind; [apply keeps_db_add | intros _].
      apply keeps_bind; [apply keeps_log | intros _; apply keeps_ret].
  - intro msg. apply keeps_bind; [apply keeps_log | intro; apply keeps_throw].
Qed.

Lemma keeps_forArticles source items : forall a p,
  keeps I (forArticles source items a p).
Proof.
  induction items as [|article more IH]; intros a p; cbn [forArticles].
  - apply keeps_ret.
  - apply keeps_bind; [|intro c; apply IH].
    apply keeps_tryCatch.
    + apply keeps_bind; [apply keeps_processArticle | intro; apply keeps_ret].
    + intro msg. apply keeps_bind; [apply keeps_log | intro; apply keeps_ret].
Qed.

Variable fetch : jsstring -> Outcome Response.
Hypothesis allowed_fetch : forall u, allowed (Fetch u) = true.

Lemma keeps_syncSource source : keeps I (syncSource fetch source).
Proof.
  unfold syncSource, do_fetch.
  apply keeps_tryCatch.
  - apply keeps_bind; [apply keeps_await | intro url].
    apply keeps_bind; [apply keeps_log | intros _].
    apply keeps_bind.
    + apply keeps_bind; [apply keeps_call, allowed_fetch | intros _].
      intro st. apply I_refl.
    + intro response. destruct (negb (ok response)); [apply keeps_throw|].
      apply keeps_bind; [apply keeps_await | intro rssData].
      destruct (negb (jseqb _ _)); [apply keeps_throw|].
      apply keeps_bind.
      * destruct (rss_items rssData); [apply keeps_ret | apply keeps_throw].
      * intro items. apply keeps_bind; [apply keeps_log | intros _].
        apply keeps_bind; [apply keeps_forArticles | intro c].
        apply keeps_bind; [apply keeps_log | intros _; apply keeps_ret].
  - intro msg. apply keeps_bind; [apply keeps_log | intro; apply keeps_throw].
Qed.

Lemma keeps_forSources l : forall a p, keeps I (forSources fetch l a p).
Proof.
  induction l as [|source more IH]; intros a p; cbn [forSources].
  - apply keeps_ret.
  - apply keeps_bind; [apply keeps_log | intros _].
    apply keeps_bind; [apply keeps_syncSource | intro; apply IH].
Qed.

End Kept.

(** ** The synchronisation *)

(** ** What [log] changes *)

Lemma log_calls msg t st :
  calls (log msg t st) = calls st ++ [ConsoleLog (consoleLine msg t)].
Proof. reflexivity. Qed.

Lemma log_head msg t st :
  hd_error (logs (log msg t st))
  = Some {| timestamp := clock st; message := msg; type := t |}.
Proof.
  unfold log, updateUI. cbn [logs set_calls set_logs set_clock].
  destruct (100 <? _) eqn:E; [|reflexivity].
  apply Nat.ltb_lt in E. cbn [length] in E.
  destruct (logs st); [cbn in E; lia | reflexivity].
Qed.

Lemma fetched_app l1 l2 : fetched (l1 ++ l2) = fetched l1 ++ fetched l2.
Proof. apply flat_map_app. Qed.

Lemma lookedUp_app l1 l2 : lookedUp (l1 ++ l2) = lookedUp l1 ++ lookedUp l2.
Proof. apply flat_map_app. Qed.

Lemma written_app l1 l2 : written (l1 ++ l2) = written l1 ++ written l2.
Proof. apply flat_map_app. Qed.

Lemma printed_app l1 l2 : printed (l1 ++ l2) = printed l1 ++ printed l2.
Proof. apply flat_map_app. Qed.

Lemma itemErrors_app l1 l2 : itemErrors (l1 ++ l2) = itemErrors l1 + itemErrors l2.
Proof.
  unfold itemErrors. rewrite printed_app, filter_app, length_app. reflexivity.
Qed.

Lemma hasUrl_app u l1 l2 : hasUrl u (l1 ++ l2) = hasUrl u l1 || hasUrl u l2.
Proof. apply existsb_app. Qed.

Lemma syncSource_sameFlag fetch source st :
  sameFlag st (snd (syncSource fetch source st)).
Proof.
  apply (@keeps_syncSource sameFlag (fun _ => true)); unfold sameFlag; auto.
  intros a b c [H1 H2] [H3 H4]. split; congruence.
Qed.

Lemma forArticles_noFetch source items a p st :
  noFetch st (snd (forArticles source items a p st)).
Proof.
  apply (@keeps_forArticles noFetch notFetch); unfold noFetch.
  - auto.
  - intros x y z [H1 H2] [H3 H4]. split; congruence.
  - intros msg t st0. split; [|reflexivity].
    rewrite log_calls, fetched_app. apply app_nil_r.
  - auto.
  - auto.
  - intros c st0 Hc. split; [|reflexivity].
    change (calls (set_calls (calls st0 ++ [c]) st0)) with (calls st0 ++ [c]).
    rewrite fetched_app. destruct c; try discriminate; apply app_nil_r.
  - reflexivity.
  - reflexivity.
Qed.

Lemma forArticles_grows source items a p st :
  grows st (snd (forArticles source items a p st)).
Proof.
  apply (@keeps_forArticles grows (fun _ => true)); unfold grows; auto.
  intros d st0 u H. cbn [news set_news]. rewrite hasUrl_app, H. reflexivity.
Qed.

Lemma forSources_grows fetch l a p st :
  grows st (snd (forSources fetch l a p st)).
Proof.
  apply (@keeps_forSources grows (fun _ => true)); unfold grows; auto.
  intros d st0 u H. cbn [news set_news]. rewrite hasUrl_app, H. reflexivity.
Qed.

(** ** The address of a source *)

Lemma feedItems_address fetch source items :
  feedItems fetch source = Return items ->
  exists url, rssApiUrl source = Return url.
Proof.
  unfold feedItems. destruct (rssApiUrl source) as [url|msg]; [eauto|discriminate].
Qed.

Lemma afterFetch_ok source url st :
  rssApiUrl source = Return url ->
  afterFetch source st
  = set_calls (calls (log (msgRecuperation source) info st) ++ [Fetch url])
      (log (msgRecuperation source) info st).
Proof. intro H. unfold afterFetch. rewrite H. reflexivity. Qed.

Lemma addresses_one build source url :
  build source = Return url -> addresses build [source] = [url].
Proof. intro H. unfold addresses. cbn. rewrite H. reflexivity. Qed.

Lemma addresses_app build l1 l2 :
  addresses build (l1 ++ l2) = addresses build l1 ++ addresses build l2.
Proof. apply flat_map_app. Qed.

Lemma addresses_cons build source l :
  addresses build (source :: l) = addresses build [source] ++ addresses build l.
Proof. apply (addresses_app build [source] l). Qed.

Lemma afterFetch_fetched source st :
  fetched (calls (afterFetch source st))
  = fetched (calls st) ++ addresses rssApiUrl [source].
Proof.
  unfold afterFetch, addresses. cbn [flat_map].
  destruct (rssApiUrl source) as [url|msg].
  - cbn [calls set_calls]. rewrite fetched_app, log_calls, fetched_app.
    cbn [fetched flat_map app]. rewrite !app_nil_r. reflexivity.
  - rewrite !app_nil_r. reflexivity.
Qed.

Lemma afterFetch_last source st :
  exists before,
    calls (afterFetch source st)
    = before ++ map Fetch (addresses rssApiUrl [source]).
Proof.
  unfold afterFetch, addresses. cbn [flat_map].
  destruct (rssApiUrl source) as [url|msg].
  - cbn [calls set_calls]. eexists. reflexivity.
  - exists (calls st). cbn. rewrite app_nil_r. reflexivity.
Qed.

(** ** The steps of [syncSource] *)

Lemma forArticles_returns source items : forall a p st,
  exists c, fst (forArticles source items a p st) = Return c.
Proof.
  induction items as [|article more IH]; intros a p st; cbn [forArticles].
  - eexists. reflexivity.
  - unfold bind at 1. unfold tryCatch, bind at 1.
    destruct (processArticle article source st) as [[b|msg] st1].
    + cbn. apply IH.
    + cbn. apply IH.
Qed.

Lemma syncSource_unfold fetch source st :
  syncSource fetch source st =
  match feedItems fetch source with
  | Throw msg =>
      (Throw msg, log (msgErreurSource source msg) error (afterFetch source st))
  | Return items =>
      let r := forArticles source items 0 0
                 (log (msgTrouves source (length items)) info
                    (afterFetch source st)) in
      match fst r with
      | Return c => (Return c, log (msgBilan source c) info (snd r))
      | Throw msg => (Throw msg, log (msgErreurSource source msg) error (snd r))
      end
  end.
Proof.
  unfold syncSource, do_fetch, feedItems, afterFetch, tryCatch, bind, call,
    exec_, await, throw, ret.
  cbv beta iota.
  destruct (rssApiUrl source) as [url|msg]; [|reflexivity].
  destruct (fetch url) as [response|msg]; [|reflexivity].
  destruct (negb (ok response)); [reflexivity|].
  destruct (json response) as [rssData|msg]; [|reflexivity].
  destruct (negb (jseqb _ _)); [reflexivity|].
  destruct (rss_items rssData) as [items|]; [|reflexivity].
  cbn zeta.
  destruct (forArticles source items 0 0 _) as [[c|msg] st2]; reflexivity.
Qed.

(** ** Computations that do not read [isRunning] *)

Lemma blind_ret {A} (a : A) : blind (ret a).
Proof. intros b st. reflexivity. Qed.

Lemma blind_throw {A} msg : blind (@throw A msg).
Proof. intros b st. reflexivity. Qed.

Lemma blind_bind {A B} (m : M A) (k : A -> M B) :
  blind m -> (forall a, blind (k a)) -> blind (bind m k).
Proof.
  intros Hm Hk b st. unfold bind. rewrite Hm.
  destruct (m st) as [[a|msg] st1]; cbn [fst snd].
  - apply Hk.
  - reflexivity.
Qed.

Lemma blind_tryCatch {A} (m : M A) (h : jsstring -> M A) :
  blind m -> (forall msg, blind (h msg)) -> blind (tryCatch m h).
Proof.
  intros Hm Hh b st. unfold tryCatch. rewrite Hm.
  destruct (m st) as [[a|msg] st1]; cbn [fst snd].
  - reflexivity.
  - apply Hh.
Qed.

Lemma blind_log msg t : blind (exec_ (log msg t)).
Proof. intros b st. reflexivity. Qed.

Lemma blind_call c : blind (call c).
Proof. intros b st. reflexivity. Qed.

Lemma blind_request : blind request.
Proof.
  intros b st. unfold request. cbn [faults set_isRunning].
  destruct (faults st) as [|[msg|] fs]; reflexivity.
Qed.

Lemma blind_db_get_empty u : blind (db_get_empty u).
Proof.
  unfold db_get_empty.
  apply blind_bind; [apply blind_call | intros _].
  apply blind_bind; [apply blind_request | intros _].
  intros b st. reflexivity.
Qed.

Lemma blind_db_add d : blind (db_add d).
Proof.
  unfold db_add.
  apply blind_bind; [apply blind_call | intros _].
  apply blind_bind; [apply blind_request | intros _].
  intros b st. reflexivity.
Qed.

Lemma blind_processArticle article source :
  blind (processArticle article source).
Proof.
  unfold processArticle.
  apply blind_tryCatch.
  - apply blind_bind; [apply blind_db_get_empty | intro empty].
    destruct (negb empty); [apply blind_ret|].
    apply blind_bind.
    + destruct (title article); [apply blind_ret | apply blind_throw].
    + intro trimmed.
      apply blind_bind; [apply blind_db_add | intros _].
      apply blind_bind; [apply blind_log | intros _; apply blind_ret].
  - intro msg. apply blind_bind; [apply blind_log | intro; apply blind_throw].
Qed.

Lemma blind_forArticles source items : forall a p,
  blind (forArticles source items a p).
Proof.
  induction items as [|article more IH]; intros a p; cbn [forArticles].
  - apply blind_ret.
  - apply blind_bind; [|intro c; apply IH].
    apply blind_tryCatch.
    + apply blind_bind; [apply blind_processArticle | intro; apply blind_ret].
    + intro msg. apply blind_bind; [apply blind_log | intro; apply blind_ret].
Qed.

Lemma blind_syncSource fetch source : blind (syncSource fetch source).
Proof.
  unfold syncSource, do_fetch.
  apply blind_tryCatch.
  - apply blind_bind; [intros b st; reflexivity | intro url].
    apply blind_bind; [apply blind_log | intros _].
    apply blind_bind.
    + apply blind_bind; [apply blind_call | intros _].
      intros b st. reflexivity.
    + intro response. destruct (negb (ok response)); [apply blind_throw|].
      apply blind_bind; [intros b st; reflexivity | intro rssData].
      destruct (negb (jseqb _ _)); [apply blind_throw|].
      apply blind_bind.
      * destruct (rss_items rssData); [apply blind_ret | apply blind_throw].
      * intro items. apply blind_bind; [apply blind_log | intros _].
        apply blind_bind; [apply blind_forArticles | intro c].
        apply blind_bind; [apply blind_log | intros _; apply blind_ret].
  - intro msg. apply blind_bind; [apply blind_log | intro; apply blind_throw].
Qed.

(** ** The loop over the items *)

Lemma isItemError_article article err :
  isItemError (consoleLine (msgErreurArticle article err) error) = true.
Proof. reflexivity. Qed.

Lemma isItemError_traitement err :
  isItemError (consoleLine (msgErreurTraitement err) error) = false.
Proof. reflexivity. Qed.

Lemma isItemError_ajoute article :
  isItemError (consoleLine (msgAjoute article) success) = false.
Proof. reflexivity. Qed.

Lemma request_unfold st :
  request st =
  (match fault st with Some msg => Throw msg | None => Return tt end,
   set_faults (tl (faults st)) st).
Proof.
  unfold request, fault. destruct st as [ss ls r n cs fs k]. cbn.
  destruct fs as [|[msg|] fs]; reflexivity.
Qed.

Lemma processArticle_unfold article source st :
  processArticle article source st =
  let st1 := afterGet article st in
  match fault st with
  | Some msg => (Throw msg, log (msgErreurTraitement msg) error st1)
  | None =>
      if hasUrl (link article) (news st) then (Return false, st1)
      else
        match title article with
        | None =>
            (Throw (typeError "trim"),
             log (msgErreurTraitement (typeError "trim")) error st1)
        | Some t =>
            let doc := buildNewsData article source (trim t) in
            let st2 := set_faults (tl (faults st1))
                         (set_calls (calls st1 ++ [DbAdd doc]) st1) in
            match fault st1 with
            | Some msg => (Throw msg, log (msgErreurTraitement msg) error st2)
            | None =>
                (Return true,
                 log (msgAjoute article) success
                   (set_news (news st2 ++ [doc]) st2))
            end
        end
  end.
Proof.
  unfold processArticle, db_get_empty, db_add, tryCatch, bind, call, exec_.
  rewrite request_unfold. unfold afterGet, fault at 1. cbn [faults set_calls].
  change (fault st) with
    (match faults st with Some msg :: _ => Some msg | _ => None end).
  destruct (faults st) as [|[msg|] fs] eqn:Ef; cbn [tl]; try reflexivity.
  - cbn [news set_faults set_calls].
    destruct (hasUrl (link article) (news st)); cbn [negb]; [reflexivity|].
    destruct (title article) as [t|]; [|reflexivity].
    unfold ret. rewrite request_unfold. cbv zeta.
    destruct (fault _); reflexivity.
  - cbn [news set_faults set_calls].
    destruct (hasUrl (link article) (news st)); cbn [negb]; [reflexivity|].
    destruct (title article) as [t|]; [|reflexivity].
    unfold ret. rewrite request_unfold. cbv zeta.
    destruct (fault _); reflexivity.
Qed.

Lemma log_news msg t st : news (log msg t st) = news st.
Proof. reflexivity. Qed.

Lemma log_faults msg t st : faults (log msg t st) = faults st.
Proof. reflexivity. Qed.

Lemma log_isRunning msg t st : isRunning (log msg t st) = isRunning st.
Proof. reflexivity. Qed.

Lemma log_sources msg t st : sources (log msg t st) = sources st.
Proof. reflexivity. Qed.

Lemma itemErrors_log l msg t :
  itemErrors (l ++ [ConsoleLog (consoleLine msg t)])
  = itemErrors l + (if isItemError (consoleLine msg t) then 1 else 0).
Proof.
  rewrite itemErrors_app. f_equal. unfold itemErrors, printed.
  cbn [flat_map app filter]. destruct (isItemError _); reflexivity.
Qed.

Lemma itemErrors_get l u : itemErrors (l ++ [DbGet u]) = itemErrors l.
Proof. rewrite itemErrors_app. cbn. lia. Qed.

Lemma itemErrors_add l d : itemErrors (l ++ [DbAdd d]) = itemErrors l.
Proof. rewrite itemErrors_app. cbn. lia. Qed.

Lemma jseqb_refl a : jseqb a a = true.
Proof.
  induction a as [|x a IH]; [reflexivity|].
  cbn [jseqb]. rewrite N.eqb_refl. exact IH.
Qed.

Lemma buildNewsData_url article source t :
  nd_url (buildNewsData article source t) = link article.
Proof.
  unfold buildNewsData. cbv zeta.
  destruct (extractCity _); destruct (negb (falsy (thumbnail article)));
    try reflexivity;
    destruct (enclosure article) as [e|]; try reflexivity;
    destruct (negb (falsy (enc_link e))); reflexivity.
Qed.

Lemma buildNewsData_hasUrl article source t :
  hasUrl (link article) [buildNewsData article source t] = true.
Proof.
  unfold hasUrl. cbn [existsb]. rewrite buildNewsData_url, jseqb_refl.
  reflexivity.
Qed.

Lemma forArticles_cons source article more a p st :
  forArticles source (article :: more) a p st =
  match turn source article a p st with
  | (Return c, st1) => forArticles source more (added c) (processed c) st1
  | (Throw msg, st1) => (Throw msg, st1)
  end.
Proof. reflexivity. Qed.

(** A turn never throws. It looks the item up; then either the item is
    counted as processed (and as added when a document was written), or one
    item error is printed and no counter moves. *)
Lemma turn_spec source article a p st :
  exists c st1,
    turn source article a p st = (Return c, st1) /\
    lookedUp (calls st1) = lookedUp (calls st) ++ [link article] /\
    added c + length (news st) = a + length (news st1) /\
    ((processed c = S p /\ itemErrors (calls st1) = itemErrors (calls st) /\
      hasUrl (link article) (news st1) = true /\ added c <= S a)
     \/ (processed c = p /\ added c = a /\
         itemErrors (calls st1) = S (itemErrors (calls st)))).
Proof.
  unfold turn, tryCatch, bind. rewrite processArticle_unfold. cbv zeta.
  unfold afterGet.
  destruct (fault st) as [msg|] eqn:Ef.
  - (* lookup rejected *)
    eexists _, _. split; [reflexivity|].
    unfold exec_, ret. cbn [fst snd].
    rewrite !log_calls, !log_news. cbn [calls news set_faults set_calls].
    rewrite !lookedUp_app, !itemErrors_log, itemErrors_get.
    rewrite isItemError_article, isItemError_traitement.
    cbn [lookedUp flat_map app added processed].
    rewrite ?app_nil_r.
    split; [reflexivity|]. split; [reflexivity|]. right. repeat split; lia.
  - destruct (hasUrl (link article) (news st)) eqn:Eh.
    + (* already there *)
      eexists _, _. split; [reflexivity|].
      cbn [calls news set_faults set_calls added processed].
      rewrite !lookedUp_app, itemErrors_get.
      cbn [lookedUp flat_map app].
      rewrite ?app_nil_r.
      split; [reflexivity|]. split; [reflexivity|]. left. auto.
    + destruct (title article) as [t|] eqn:Et.
      * destruct (fault (set_faults _ _)) as [msg|] eqn:Ef2.
        -- (* write rejected *)
           eexists _, _. split; [reflexivity|].
           unfold exec_, ret. cbn [fst snd].
           rewrite !log_calls, !log_news.
           cbn [calls news set_faults set_calls].
           rewrite !lookedUp_app, !itemErrors_log,
             itemErrors_add, itemErrors_get.
           rewrite isItemError_article, isItemError_traitement.
           cbn [lookedUp flat_map app added processed].
           rewrite ?app_nil_r.
           split; [reflexivity|]. split; [reflexivity|].
           right. repeat split; lia.
        -- (* written *)
           eexists _, _. split; [reflexivity|].
           rewrite !log_calls, !log_news.
           cbn [calls news set_faults set_calls set_news].
           rewrite !lookedUp_app, !itemErrors_log,
             itemErrors_add, itemErrors_get.
           rewrite isItemError_ajoute.
           cbn [lookedUp flat_map app added processed].
           rewrite ?app_nil_r, length_app.
           split; [reflexivity|]. split; [cbn [length]; lia|].
           left. split; [reflexivity|]. split; [lia|]. split; [|lia].
           rewrite hasUrl_app. apply orb_true_iff. right.
           apply buildNewsData_hasUrl.
      * (* no title *)
        eexists _, _. split; [reflexivity|].
        unfold exec_, ret. cbn [fst snd].
        rewrite !log_calls, !log_news. cbn [calls news set_faults set_calls].
        rewrite !lookedUp_app, !itemErrors_log, itemErrors_get.
        rewrite isItemError_article, isItemError_traitement.
        cbn [lookedUp flat_map app added processed].
        rewrite ?app_nil_r.
        split; [reflexivity|]. split; [reflexivity|]. right. repeat split; lia.
Qed.

Lemma forArticles_counts source items : forall a p st,
  exists c st1,
    forArticles source items a p st = (Return c, st1) /\
    lookedUp (calls st1) = lookedUp (calls st) ++ map link items /\
    added c + length (news st) = a + length (news st1) /\
    processed c + itemErrors (calls st1)
    = p + length items + itemErrors (calls st) /\
    added c + p <= a + processed c.
Proof.
  induction items as [|article more IH]; intros a p st.
  - exists {| added := a; processed := p |}, st.
    split; [reflexivity|]. cbn [map length added processed].
    rewrite app_nil_r. repeat split; lia.
  - rewrite forArticles_cons.
    destruct (turn_spec source article a p st)
      as (c & st1 & Ht & Hl & Hn & Hcase).
    rewrite Ht.
    destruct (IH (added c) (processed c) st1)
      as (c2 & st2 & Hf & Hl2 & Hn2 & Hp2 & Ha2).
    exists c2, st2. split; [exact Hf|].
    split; [rewrite Hl2, Hl, <- app_assoc; reflexivity|].
    split; [lia|].
    cbn [length].
    destruct Hcase as [(H1 & H2 & _ & H4)|(H1 & H2 & H3)]; split; lia.
Qed.

Lemma isItemError_info msg : isItemError (consoleLine msg info) = false.
Proof. reflexivity. Qed.

Lemma itemErrors_fetch l u : itemErrors (l ++ [Fetch u]) = itemErrors l.
Proof. rewrite itemErrors_app. cbn. lia. Qed.

Lemma afterFetch_state source st :
  news (afterFetch source st) = news st /\
  faults (afterFetch source st) = faults st /\
  isRunning (afterFetch source st) = isRunning st /\
  sources (afterFetch source st) = sources st /\
  lookedUp (calls (afterFetch source st)) = lookedUp (calls st) /\
  written (calls (afterFetch source st)) = written (calls st) /\
  itemErrors (calls (afterFetch source st)) = itemErrors (calls st).
Proof.
  unfold afterFetch. destruct (rssApiUrl source) as [url|msg];
    [|repeat split].
  cbn [news faults isRunning sources calls set_calls].
  rewrite log_news, log_faults, log_isRunning, log_sources, log_calls.
  rewrite !lookedUp_app, !written_app, !itemErrors_app.
  cbn. rewrite !app_nil_r. repeat split; lia.
Qed.

Lemma syncSource_fail fetch source msg st :
  feedItems fetch source = Throw msg ->
  syncSource fetch source st =
  (Throw msg, log (msgErreurSource source msg) error (afterFetch source st)).
Proof. intro H. rewrite syncSource_unfold, H. reflexivity. Qed.

Lemma syncSource_ok fetch source items st :
  feedItems fetch source = Return items ->
  exists c st2,
    forArticles source items 0 0
      (log (msgTrouves source (length items)) info (afterFetch source st))
    = (Return c, st2) /\
    syncSource fetch source st = (Return c, log (msgBilan source c) info st2).
Proof.
  intro H. rewrite syncSource_unfold, H. cbv zeta.
  destruct (forArticles_counts source items 0 0
              (log (msgTrouves source (length items)) info (afterFetch source st)))
    as (c & st2 & Hf & _).
  exists c, st2. rewrite Hf. auto.
Qed.

Lemma syncSource_counts fetch source items st :
  feedItems fetch source = Return items ->
  exists c st',
    syncSource fetch source st = (Return c, st') /\
    lookedUp (calls st') = lookedUp (calls st) ++ map link items /\
    processed c + itemErrors (calls st')
    = length items + itemErrors (calls st) /\
    length (news st') = length (news st) + added c /\
    added c <= processed c.
Proof.
  intro H. destruct (syncSource_ok fetch source items st H) as (c & st2 & Hf & Hs).
  destruct (forArticles_counts source items 0 0
              (log (msgTrouves source (length items)) info (afterFetch source st)))
    as (c' & st2' & Hf' & Hl & Hn & Hp & Ha).
  rewrite Hf in Hf'. injection Hf' as <- <-.
  exists c, (log (msgBilan source c) info st2). split; [exact Hs|].
  destruct (feedItems_address fetch source items H) as (url & Hurl).
  rewrite log_calls, log_news in *. rewrite (afterFetch_ok _ _ _ Hurl) in *.
  cbn [calls news set_calls] in *. rewrite log_calls, log_news in *.
  rewrite !lookedUp_app in *.
  repeat first [rewrite itemErrors_log in * | rewrite itemErrors_fetch in *].
  rewrite !isItemError_info in *.
  cbn [lookedUp flat_map app] in *. rewrite ?app_nil_r in *.
  repeat split; try lia. exact Hl.
Qed.

Lemma forArticles_extends source items a p st :
  extends st (snd (forArticles source items a p st)).
Proof.
  apply (@keeps_forArticles extends (fun _ => true)); unfold extends.
  - intro st0. exists []. symmetry. apply app_nil_r.
  - intros x y z [t1 H1] [t2 H2]. exists (t1 ++ t2).
    rewrite H2, H1. symmetry. apply app_assoc.
  - intros msg t st0. eexists. apply log_calls.
  - intros fs st0. exists []. symmetry. apply app_nil_r.
  - intros d st0. exists []. symmetry. apply app_nil_r.
  - intros c st0 _. eexists. reflexivity.
  - reflexivity.
  - reflexivity.
Qed.

(** C1 as stated fails: of [threeItems] the second has no title and throws
    while its record is built; [processed] ends at 2, not 3. *)
Lemma C1_processed_counts_failed_items_counterexample :
  ~ (forall fetch source items st,
       feedItems fetch source = Return items ->
       exists c st',
         syncSource fetch source st = (Return c, st') /\
         processed c = length items).
Proof.
  intro H.
  destruct (H (hotelFeed threeItems) hotels threeItems (constructor [] [] 0)
              eq_refl) as (c & st' & Hs & Hp).
  vm_compute in Hs. injection Hs as <- _. discriminate Hp.
Qed.

Lemma itemErrorLines_app l1 l2 :
  itemErrorLines (l1 ++ l2) = itemErrorLines l1 ++ itemErrorLines l2.
Proof. unfold itemErrorLines. rewrite printed_app, filter_app. reflexivity. Qed.

Lemma itemErrorLines_log l msg t :
  itemErrorLines (l ++ [ConsoleLog (consoleLine msg t)])
  = itemErrorLines l
    ++ (if isItemError (consoleLine msg t) then [consoleLine msg t] else []).
Proof.
  rewrite itemErrorLines_app. unfold itemErrorLines at 2. cbn.
  destruct (isItemError (consoleLine msg t)); reflexivity.
Qed.

Lemma itemErrors_lines l : itemErrors l = length (itemErrorLines l).
Proof. reflexivity. Qed.

Lemma processArticle_itemErrorLines article source st :
  itemErrorLines (calls (snd (processArticle article source st)))
  = itemErrorLines (calls st).
Proof.
  rewrite processArticle_unfold. cbv zeta. unfold afterGet.
  assert (Hget : forall fs, itemErrorLines
            (calls (set_faults fs (set_calls (calls st ++ [DbGet (link article)]) st)))
            = itemErrorLines (calls st)).
  { intro fs. cbn [calls set_faults set_calls]. rewrite itemErrorLines_app.
    cbn. apply app_nil_r. }
  destruct (fault st).
  { cbn [snd]. rewrite log_calls, itemErrorLines_log, isItemError_traitement.
    rewrite app_nil_r. apply Hget. }
  destruct (hasUrl (link article) (news st)); [apply Hget|].
  destruct (title article) as [t|].
  2:{ cbn [snd]. rewrite log_calls, itemErrorLines_log, isItemError_traitement.
      rewrite app_nil_r. apply Hget. }
  destruct (fault _); cbn [snd]; rewrite log_calls, itemErrorLines_log;
    rewrite ?isItemError_traitement, ?isItemError_ajoute, app_nil_r;
    cbn [calls set_news set_faults set_calls]; rewrite !itemErrorLines_app;
    cbn; rewrite !app_nil_r; reflexivity.
Qed.

Lemma forArticles_step source article more a p st :
  forArticles source (article :: more) a p st =
  match processArticle article source st with
  | (Return b, st1) =>
      forArticles source more (if b then S a else a) (S p) st1
  | (Throw msg, st1) =>
      forArticles source more a p
        (log (msgErreurArticle article msg) error st1)
  end.
Proof.
  cbn [forArticles]. unfold bind at 1, tryCatch, bind at 1.
  destruct (processArticle article source st) as [[b|msg] st1]; reflexivity.
Qed.

Lemma forArticles_itemRun source items : forall a p st,
  exists outs st',
    forArticles source items a p st
    = (Return {| added := a + inserted outs; processed := p + returned outs |},
       st') /\
    itemRun source items st outs st' /\
    length outs = length items /\
    itemErrorLines (calls st')
    = itemErrorLines (calls st) ++ failureLines items outs.
Proof.
  induction items as [|article more IH]; intros a p st.
  - exists [], st. cbn. rewrite !Nat.add_0_r, app_nil_r.
    repeat split. constructor.
  - rewrite forArticles_step.
    pose proof (processArticle_itemErrorLines article source st) as Hl.
    destruct (processArticle article source st) as [[b|msg] st1] eqn:Hp;
      cbn [snd] in Hl.
    + destruct (IH (if b then S a else a) (S p) st1)
        as (outs & st' & Hrun & Hir & Hlen & Hlines).
      exists (Return b :: outs), st'. split; [|split; [|split]].
      * rewrite Hrun.
        assert (Ea : (if b then S a else a) + inserted outs
                     = a + inserted (Return b :: outs))
          by (unfold inserted; destruct b; cbn [filter length]; lia).
        assert (Ep : S p + returned outs = p + returned (Return b :: outs))
          by (unfold returned; cbn [filter length]; lia).
        rewrite Ea, Ep. reflexivity.
      * apply (itemRun_done source article more st b st1 outs st' Hp Hir).
      * cbn. rewrite Hlen. reflexivity.
      * rewrite Hlines, Hl. reflexivity.
    + destruct (IH a p (log (msgErreurArticle article msg) error st1))
        as (outs & st' & Hrun & Hir & Hlen & Hlines).
      exists (Throw msg :: outs), st'. split; [|split; [|split]].
      * rewrite Hrun. reflexivity.
      * apply (itemRun_failed source article more st msg st1 outs st' Hp Hir).
      * cbn. rewrite Hlen. reflexivity.
      * rewrite Hlines, log_calls, itemErrorLines_log, isItemError_article, Hl.
        unfold failureLines. cbn [combine flat_map fst snd].
        rewrite <- app_assoc. reflexivity.
Qed.

(** C1, as amended: when the fetch of a source succeeds, [syncSource] returns
    and the loop over the items is the run told item by item: every item is
    looked up, in feed order; an item whose lookup, mapping or write fails is
    caught, its error is logged with its title, and the next item follows.
    [processed] is the number of items that did not fail and [added] the
    number of items that were added: a failed item is counted in neither.
    The error lines of items printed are those of the failed items, in
    order; so [processed] and the failures add up to the number of items,
    the collection grows by [added] documents and [added] is at most
    [processed]. *)
Theorem C1_item_failure_is_isolated fetch source items st :
  feedItems fetch source = Return items ->
  exists c st' outs st1,
    syncSource fetch source st = (Return c, st') /\
    itemRun source items
      (log (msgTrouves source (length items)) info (afterFetch source st))
      outs st1 /\
    st' = log (msgBilan source c) info st1 /\
    length outs = length items /\
    processed c = returned outs /\
    added c = inserted outs /\
    itemErrorLines (calls st')
    = itemErrorLines (calls st) ++ failureLines items outs /\
    lookedUp (calls st') = lookedUp (calls st) ++ map link items /\
    processed c + itemErrors (calls st')
    = length items + itemErrors (calls st) /\
    length (news st') = length (news st) + added c /\
    added c <= processed c.
Proof.
  intro H.
  destruct (forArticles_itemRun source items 0 0
              (log (msgTrouves source (length items)) info
                 (afterFetch source st)))
    as (outs & st1 & Hrun & Hir & Hlen & Hlines).
  cbn [Nat.add] in Hrun.
  set (c0 := {| added := inserted outs; processed := returned outs |}) in *.
  assert (Hsync : syncSource fetch source st
                  = (Return c0, log (msgBilan source c0) info st1)).
  { rewrite syncSource_unfold, H. cbv zeta. rewrite Hrun. reflexivity. }
  destruct (syncSource_counts fetch source items st H)
    as (c & st' & Hs & Hl & Hp & Hn & Ha).
  rewrite Hsync in Hs. injection Hs as Hc Hst. subst c st'.
  exists c0, (log (msgBilan source c0) info st1), outs, st1.
  split; [exact Hsync|]. split; [exact Hir|]. split; [reflexivity|].
  split; [exact Hlen|]. split; [reflexivity|]. split; [reflexivity|].
  split; [|repeat split; assumption].
  rewrite log_calls, itemErrorLines_log, isItemError_info, app_nil_r, Hlines.
  rewrite log_calls, itemErrorLines_log, isItemError_info, app_nil_r.
  f_equal. unfold afterFetch.
  destruct (rssApiUrl source) as [url|msg]; [|reflexivity].
  cbn [calls set_calls].
  rewrite itemErrorLines_app, log_calls, itemErrorLines_log, isItemError_info.
  cbn. rewrite !app_nil_r. reflexivity.
Qed.

Lemma C1_item_failure_is_isolated_witness :
  exists c st',
    syncSource (hotelFeed threeItems) hotels (constructor [] [] 0)
    = (Return c, st') /\ processed c = 2 /\ added c = 2 /\
    itemErrorLines (calls st')
    = [consoleLine
         (msgErreurArticle (exampleArticle None "https://example.com/a2"
                              "<p>Deux</p>") (typeError "trim")) error].
Proof.
  destruct (C1_item_failure_is_isolated (hotelFeed threeItems) hotels threeItems
              (constructor [] [] 0) eq_refl)
    as (c & st' & outs & st1 & Hs & _).
  exists c, st'. split; [exact Hs|].
  vm_compute in Hs. injection Hs as <- <-. repeat split.
Defined.

(** C2: while a run is in progress, [syncAll] throws nothing and returns
    [undefined]; it only logs one warning ("Synchronisation deja en cours",
    one entry at the head of the buffer and one console line): nothing is
    fetched, looked up or written, and [isRunning], the collection and the
    pending requests are as before. *)
Theorem C2_single_flight_rejection fetch loadNews st :
  isRunning st = true ->
  let r := syncAll fetch loadNews st in
  r = (Return None, log dejaEnCours warning st) /\
  calls (snd r) = calls st ++ [ConsoleLog (consoleLine dejaEnCours warning)] /\
  hd_error (logs (snd r))
  = Some {| timestamp := clock st; message := dejaEnCours; type := warning |} /\
  fetched (calls (snd r)) = fetched (calls st) /\
  lookedUp (calls (snd r)) = lookedUp (calls st) /\
  written (calls (snd r)) = written (calls st) /\
  isRunning (snd r) = true /\
  news (snd r) = news st /\
  faults (snd r) = faults st.
Proof.
  intros Hrun r.
  assert (Hr : r = (Return None, log dejaEnCours warning st)).
  { unfold r, syncAll. rewrite Hrun. reflexivity. }
  rewrite Hr. cbn [snd].
  rewrite log_calls, log_head, log_isRunning, log_news, log_faults.
  rewrite fetched_app, lookedUp_app, written_app.
  cbn [fetched lookedUp written flat_map]. rewrite !app_nil_r.
  repeat split; auto.
Qed.

Lemma C2_single_flight_rejection_witness :
  syncAll (hotelFeed threeItems) None (set_isRunning true (constructor [] [] 0))
  = (Return None,
     log dejaEnCours warning (set_isRunning true (constructor [] [] 0))).
Proof.
  apply (C2_single_flight_rejection (hotelFeed threeItems) None
           (set_isRunning true (constructor [] [] 0)) eq_refl).
Defined.

(** C10 as stated fails: a descriptor whose url holds a lone surrogate is
    not fetched; [encodeURIComponent] throws before the fetch line and the
    fetch, and [syncSource] logs the error of the source and rethrows it. *)
Lemma C10_every_descriptor_is_fetched_counterexample :
  ~ (forall fetch source st,
       fetched (calls (snd (syncSource fetch source st)))
       <> fetched (calls st)).
Proof.
  intro H.
  apply (H (hotelFeed []) loneSurrogateSource (constructor [] [] 0)).
  reflexivity.
Qed.

(** C10, as amended: [syncSource] does not read [isRunning] and does not
    change it: called directly, with the flag up or down, it gives the same
    result and the same effects.  For a descriptor whose url can be encoded
    it logs and fetches the feed of the source, and when the fetch succeeds
    looks every item up and writes the new ones; for a descriptor whose url
    cannot be encoded it logs the error of the source and rethrows it,
    without a fetch, also whatever the flag. *)
Theorem C10_syncSource_ignores_isRunning fetch source st :
  let r := syncSource fetch source st in
  (forall b, syncSource fetch source (set_isRunning b st)
             = (fst r, set_isRunning b (snd r))) /\
  isRunning (snd r) = isRunning st /\
  match rssApiUrl source with
  | Return url =>
      exists rest,
        calls (snd r)
        = calls st ++ ConsoleLog (consoleLine (msgRecuperation source) info)
                      :: Fetch url :: rest
  | Throw msg =>
      r = (Throw msg, log (msgErreurSource source msg) error st)
  end /\
  (forall items, feedItems fetch source = Return items ->
     lookedUp (calls (snd r)) = lookedUp (calls st) ++ map link items /\
     length (news (snd r))
     = length (news st)
       + match fst r with Return c => added c | Throw _ => 0 end).
Proof.
  intro r. split; [|split; [|split]].
  - intro b. apply blind_syncSource.
  - apply syncSource_sameFlag.
  - unfold r. rewrite syncSource_unfold. unfold feedItems, afterFetch.
    destruct (rssApiUrl source) as [url|msg]; [|reflexivity].
    match goal with
    | |- context [match ?f with Return _ => _ | Throw _ => _ end] =>
        destruct f as [items|msg]
    end.
    + cbv zeta.
      match goal with
      | |- context [forArticles source items 0 0 ?s0] =>
          destruct (forArticles_extends source items 0 0 s0) as (tr & Htr)
      end.
      destruct (fst _); cbn [snd]; rewrite log_calls, Htr, log_calls;
        cbn [calls set_calls]; rewrite log_calls;
        rewrite <- !app_assoc; cbn [app]; eexists; reflexivity.
    + cbn [snd]. rewrite log_calls. cbn [calls set_calls].
      rewrite log_calls, <- !app_assoc. cbn [app]. eexists; reflexivity.
  - intros items H.
    destruct (syncSource_counts fetch source items st H)
      as (c & st' & Hs & Hl & _ & Hn & _).
    unfold r. rewrite Hs. cbn [fst snd]. auto.
Qed.

Lemma syncSource_ok_fetched fetch source items st :
  feedItems fetch source = Return items ->
  exists c st',
    syncSource fetch source st = (Return c, st') /\
    fetched (calls st') = fetched (calls st) ++ addresses rssApiUrl [source].
Proof.
  intro H. destruct (syncSource_ok fetch source items st H) as (c & st2 & Hf & Hs).
  exists c, (log (msgBilan source c) info st2). split; [exact Hs|].
  pose proof (forArticles_noFetch source items 0 0
                (log (msgTrouves source (length items)) info (afterFetch source st)))
    as [Hn _].
  rewrite Hf in Hn. cbn [snd] in Hn.
  rewrite log_calls, fetched_app, Hn, log_calls, fetched_app.
  rewrite afterFetch_fetched.
  cbn [fetched flat_map app]. rewrite !app_nil_r. reflexivity.
Qed.

(** The sources before the failing one are synchronised, the failing one
    aborts the loop, and the fetch of the failing source is the last call but
    the line of its error. *)
Lemma forSources_abort fetch src post msg :
  feedItems fetch src = Throw msg ->
  forall pre a p st,
    (forall s, In s pre -> exists items, feedItems fetch s = Return items) ->
    exists st',
      forSources fetch (pre ++ src :: post) a p st = (Throw msg, st') /\
      fetched (calls st')
      = fetched (calls st) ++ addresses rssApiUrl (pre ++ [src]) /\
      exists before,
        calls st'
        = before ++ map Fetch (addresses rssApiUrl [src])
          ++ [ConsoleLog (consoleLine (msgErreurSource src msg) error)].
Proof.
  intros Hfail pre. induction pre as [|s pre IH]; intros a p st Hpre.
  - cbn [app forSources]. unfold bind, exec_.
    rewrite (syncSource_fail fetch src msg _ Hfail).
    eexists. split; [reflexivity|].
    rewrite log_calls. split.
    + rewrite fetched_app, afterFetch_fetched, log_calls, fetched_app.
      cbn [fetched flat_map app]. rewrite !app_nil_r. reflexivity.
    + destruct (afterFetch_last src (log (msgTraitement src) info st))
        as (before & ->).
      exists before. rewrite <- app_assoc. reflexivity.
  - cbn [app forSources]. unfold bind at 1, exec_ at 1. unfold bind at 1.
    destruct (Hpre s (or_introl eq_refl)) as (items & Hitems).
    destruct (syncSource_ok_fetched fetch s items (log (msgTraitement s) info st) Hitems)
      as (c & st1 & Hs & Hf1).
    rewrite Hs.
    destruct (IH (a + added c) (p + processed c) st1
                 (fun s' Hin => Hpre s' (or_intror Hin)))
      as (st' & Hrun & Hf & Hlast).
    exists st'. split; [exact Hrun|]. split; [|exact Hlast].
    rewrite Hf, Hf1, log_calls, fetched_app. cbn [fetched flat_map app].
    rewrite app_nil_r, <- app_assoc, <- addresses_app. reflexivity.
Qed.

Lemma syncAll_resets fetch loadNews st :
  isRunning st = false ->
  isRunning (snd (syncAll fetch loadNews st)) = false.
Proof.
  intro Hrun. unfold syncAll. rewrite Hrun.
  unfold bind at 1, exec_ at 1. unfold bind at 1, exec_ at 1.
  unfold bind at 1, tryFinally.
  destruct (tryCatch _ _ _) as [[t|msg] st1]; reflexivity.
Qed.

Lemma syncAll_abort fetch loadNews st pre src post msg :
  isRunning st = false ->
  sources st = pre ++ src :: post ->
  (forall s, In s pre -> exists items, feedItems fetch s = Return items) ->
  feedItems fetch src = Throw msg ->
  exists st',
    syncAll fetch loadNews st
    = (Throw msg, set_isRunning false (log (msgErreurGlobale msg) error st')) /\
    fetched (calls st')
    = fetched (calls st) ++ addresses rssApiUrl (pre ++ [src]) /\
    exists before,
      calls st'
      = before ++ map Fetch (addresses rssApiUrl [src])
        ++ [ConsoleLog (consoleLine (msgErreurSource src msg) error)].
Proof.
  intros Hrun Hsrc Hpre Hfail.
  destruct (forSources_abort fetch src post msg Hfail pre 0 0
              (log msgDebut info (set_isRunning true st)) Hpre)
    as (st' & Hf & Hfetched & Hlast).
  exists st'. split; [|split; [|exact Hlast]].
  - unfold syncAll. rewrite Hrun.
    unfold bind at 1, exec_ at 1. unfold bind at 1, exec_ at 1.
    unfold bind at 1, tryFinally, tryCatch. unfold bind at 1.
    rewrite log_sources. cbn [sources set_isRunning].
    rewrite Hsrc. unfold bind at 1. rewrite Hf. reflexivity.
  - rewrite Hfetched, log_calls, fetched_app.
    cbn [calls set_isRunning fetched flat_map app]. rewrite !app_nil_r.
    reflexivity.
Qed.

(** The first source whose fetch fails. *)
Lemma first_failure fetch l : forall s m,
  In s l -> feedItems fetch s = Throw m ->
  exists pre src post msg,
    l = pre ++ src :: post /\
    (forall s', In s' pre -> exists items, feedItems fetch s' = Return items) /\
    feedItems fetch src = Throw msg.
Proof.
  induction l as [|x l IH]; intros s m Hin Hfail; [contradiction|].
  destruct (feedItems fetch x) as [items|msg] eqn:Hx.
  - destruct Hin as [->|Hin]; [congruence|].
    destruct (IH s m Hin Hfail) as (pre & src & post & msg & -> & Hpre & Hsrc).
    exists (x :: pre), src, post, msg. split; [reflexivity|]. split; [|exact Hsrc].
    intros s' [<-|Hin']; [eauto | apply Hpre, Hin'].
  - exists [], x, l, msg. split; [reflexivity|]. split; [|exact Hx].
    intros s' [].
Qed.

(** C4: in a run that started idle, when the fetch of some source fails
    (transport error, non-ok status, unreadable or non-ok answer, or an
    address that cannot be built), [syncAll] throws the error of the first
    failing source; the feeds fetched are those of the sources up to that
    one, in order, and no more; the last calls are the failing fetch (when
    its address was built) and the lines of the two errors logged, the last
    one the global failure, which heads the buffer; and [isRunning] is false
    afterwards, as after every run that started idle. *)
Theorem C4_fetch_failure_aborts_run fetch loadNews st s m :
  isRunning st = false ->
  In s (sources st) ->
  feedItems fetch s = Throw m ->
  let r := syncAll fetch loadNews st in
  (exists pre src post msg,
     sources st = pre ++ src :: post /\
     (forall s', In s' pre -> exists items, feedItems fetch s' = Return items) /\
     feedItems fetch src = Throw msg /\
     fst r = Throw msg /\
     fetched (calls (snd r))
     = fetched (calls st) ++ addresses rssApiUrl (pre ++ [src]) /\
     (exists before,
        calls (snd r)
        = before ++ map Fetch (addresses rssApiUrl [src])
          ++ [ConsoleLog (consoleLine (msgErreurSource src msg) error);
              ConsoleLog (consoleLine (msgErreurGlobale msg) error)]) /\
     (exists ts, hd_error (logs (snd r))
                 = Some {| timestamp := ts; message := msgErreurGlobale msg;
                           type := error |})) /\
  isRunning (snd r) = false /\
  (forall st0, isRunning st0 = false ->
     isRunning (snd (syncAll fetch loadNews st0)) = false).
Proof.
  intros Hrun Hin Hfail r.
  split; [|split; [apply syncAll_resets, Hrun | intro st0; apply syncAll_resets]].
  destruct (first_failure fetch (sources st) s m Hin Hfail)
    as (pre & src & post & msg & Hsrc & Hpre & Hmsg).
  exists pre, src, post, msg.
  destruct (syncAll_abort fetch loadNews st pre src post msg Hrun Hsrc Hpre Hmsg)
    as (st' & Hr & Hfetched & before & Hlast).
  unfold r. rewrite Hr. cbn [fst snd].
  change (calls (set_isRunning false (log (msgErreurGlobale msg) error st')))
    with (calls (log (msgErreurGlobale msg) error st')).
  change (logs (set_isRunning false (log (msgErreurGlobale msg) error st')))
    with (logs (log (msgErreurGlobale msg) error st')).
  rewrite log_calls, log_head, fetched_app.
  cbn [fetched flat_map app]. rewrite app_nil_r.
  repeat (split; [assumption || reflexivity|]). split.
  - exists before. rewrite Hlast, <- !app_assoc. reflexivity.
  - eexists. reflexivity.
Qed.

Lemma C4_fetch_failure_aborts_run_witness :
  let r := syncAll (restaurantsDown threeItems) None (constructor [] [] 0) in
  fst r = Throw (lit "Failed to fetch") /\ isRunning (snd r) = false /\
  length (news (snd r)) = 2.
Proof.
  pose proof (C4_fetch_failure_aborts_run (restaurantsDown threeItems) None
                (constructor [] [] 0) restaurants (lit "Failed to fetch")
                eq_refl (or_intror (or_introl eq_refl)) eq_refl) as H.
  cbv zeta in H. destruct H as (_ & H2 & _).
  cbv zeta. split; [vm_compute; reflexivity|]. split; [exact H2|].
  vm_compute. reflexivity.
Defined.

(** C8 as stated fails: an item without title whose url is in the collection
    is skipped without error; with the Mapper first it would throw. *)
Lemma C8_mapper_runs_before_gate_counterexample :
  ~ (forall article source st,
       processArticle article source st
       = processArticle_mapperFirst article source st).
Proof.
  intro H.
  specialize (H untitledKnown hotels (constructor knownStore [] 0)).
  apply (f_equal fst) in H. vm_compute in H. discriminate H.
Qed.

(** C8, as amended: for every item [processArticle] first looks the url up;
    when the url is in the collection it returns false at once, without
    building the record (also for an item whose record could not be built);
    only when the url is absent does it build the record (cleaned content,
    summary, city) and write it. *)
Theorem C8_gate_runs_before_mapper article source st :
  (exists rest,
     calls (snd (processArticle article source st))
     = calls st ++ DbGet (link article) :: rest) /\
  (fault st = None -> hasUrl (link article) (news st) = true ->
   processArticle article source st = (Return false, afterGet article st)) /\
  (forall t,
     fault st = None -> hasUrl (link article) (news st) = false ->
     title article = Some t -> fault (afterGet article st) = None ->
     let doc := buildNewsData article source (trim t) in
     fst (processArticle article source st) = Return true /\
     news (snd (processArticle article source st)) = news st ++ [doc] /\
     written (calls (snd (processArticle article source st)))
     = written (calls st) ++ [doc] /\
     nd_url doc = link article /\
     nd_content doc
     = cleanContent (orElse (content article) (description article)) /\
     nd_summary doc
     = extractSummary (orElse (description article) (Some (nd_content doc))) /\
     nd_city doc = extractCity (Some (nd_content doc))).
Proof.
  rewrite processArticle_unfold. cbv zeta. split; [|split].
  - destruct (fault st).
    + cbn [snd]. rewrite log_calls. unfold afterGet. cbn [calls set_faults set_calls].
      rewrite <- app_assoc. eexists; reflexivity.
    + destruct (hasUrl _ _).
      * cbn [snd]. unfold afterGet. cbn [calls set_faults set_calls].
        eexists; reflexivity.
      * destruct (title article).
        -- destruct (fault _); cbn [snd]; rewrite log_calls; unfold afterGet;
             cbn [calls set_faults set_calls set_news];
             rewrite <- !app_assoc; eexists; reflexivity.
        -- cbn [snd]. rewrite log_calls. unfold afterGet.
           cbn [calls set_faults set_calls].
           rewrite <- app_assoc. eexists; reflexivity.
  - intros Hf Hh. rewrite Hf, Hh. reflexivity.
  - intros t Hf Hh Ht Hf2. rewrite Hf, Hh, Ht, Hf2. cbn [fst snd].
    rewrite log_news, log_calls. unfold afterGet.
    cbn [news calls set_faults set_calls set_news].
    rewrite !written_app. cbn [written flat_map app]. rewrite !app_nil_r.
    split; [reflexivity|]. split; [reflexivity|]. split; [reflexivity|].
    split; [apply buildNewsData_url|].
    unfold buildNewsData. cbv zeta.
    destruct (extractCity _) eqn:Ec;
      destruct (negb (falsy (thumbnail article)));
      try (destruct (enclosure article) as [e|];
           [destruct (negb (falsy (enc_link e)))|]);
      cbn [nd_content nd_summary nd_city with_city with_imageUrl];
      rewrite ?Ec; auto.
Qed.

Lemma C8_gate_runs_before_mapper_witness :
  processArticle untitledKnown hotels (constructor knownStore [] 0)
  = (Return false, afterGet untitledKnown (constructor knownStore [] 0)).
Proof.
  apply (C8_gate_runs_before_mapper untitledKnown hotels
           (constructor knownStore [] 0)); reflexivity.
Defined.

(** ** A second run *)

(** When every item of the feed was processed, every item is in the
    collection afterwards. *)
Lemma forArticles_complete source items : forall a p st c st',
  forArticles source items a p st = (Return c, st') ->
  processed c <= p + length items /\
  (processed c = p + length items -> Forall (known st') items).
Proof.
  induction items as [|article more IH]; intros a p st c st' Hf.
  - cbn in Hf. injection Hf as <- <-. cbn. split; [lia | constructor].
  - rewrite forArticles_cons in Hf.
    destruct (turn_spec source article a p st)
      as (c1 & st1 & Ht & _ & _ & Hcase).
    rewrite Ht in Hf. destruct (IH _ _ _ _ _ Hf) as (Hle & Hall).
    cbn [length]. split.
    + destruct Hcase as [(H1 & _)|(H1 & _)]; lia.
    + intro Heq. destruct Hcase as [(H1 & _ & Hk & _)|(H1 & _)]; [|lia].
      constructor; [|apply Hall; lia].
      pose proof (forArticles_grows source more (added c1) (processed c1) st1) as Hg.
      rewrite Hf in Hg. apply Hg, Hk.
Qed.

Lemma syncSource_complete fetch source items st c st' :
  feedItems fetch source = Return items ->
  syncSource fetch source st = (Return c, st') ->
  processed c <= length items /\
  (processed c = length items -> Forall (known st') items).
Proof.
  intros H Hs.
  destruct (syncSource_ok fetch source items st H) as (c2 & st2 & Hf & Hs2).
  rewrite Hs in Hs2. injection Hs2 as -> ->.
  destruct (forArticles_complete source items 0 0 _ c2 st2 Hf) as (Hle & Hall).
  split; [exact Hle|]. intro Heq. specialize (Hall Heq).
  revert Hall. apply Forall_impl. intros a Ha. exact Ha.
Qed.

Lemma known_grows st st' article : grows st st' -> known st article -> known st' article.
Proof. intros Hg Hk. apply Hg, Hk. Qed.

Lemma forSources_complete fetch l : forall a p st t st',
  forSources fetch l a p st = (Return t, st') ->
  (forall s, In s l -> exists items, feedItems fetch s = Return items) /\
  totalProcessed t <= p + feedSize fetch l /\
  (totalProcessed t = p + feedSize fetch l ->
   forall s items, In s l -> feedItems fetch s = Return items ->
                   Forall (known st') items).
Proof.
  induction l as [|source more IH]; intros a p st t st' Hf.
  - cbn in Hf. injection Hf as <- <-. cbn. repeat split; try lia; intros; contradiction.
  - cbn [forSources] in Hf. unfold bind at 1, exec_ at 1 in Hf.
    unfold bind at 1 in Hf.
    destruct (syncSource fetch source (log (msgTraitement source) info st))
      as [[c|msg] st1] eqn:Hs; [|discriminate Hf].
    destruct (feedItems fetch source) as [items|msg] eqn:Hfeed.
    2:{ rewrite (syncSource_fail fetch source msg _ Hfeed) in Hs. discriminate Hs. }
    destruct (syncSource_complete fetch source items _ c st1 Hfeed Hs) as (Hle & Hall).
    destruct (IH _ _ _ _ _ Hf) as (Hok & Hle2 & Hall2).
    assert (Hsize : feedSize fetch (source :: more)
                    = length items + feedSize fetch more).
    { unfold feedSize. cbn [map list_sum]. rewrite Hfeed. reflexivity. }
    rewrite Hsize. split; [|split].
    + intros s [<-|Hin]; [eauto | apply Hok, Hin].
    + lia.
    + intros Heq s items' [<-|Hin] Hfeed'.
      * rewrite Hfeed in Hfeed'. injection Hfeed' as <-.
        assert (Hp : processed c = length items) by lia.
        specialize (Hall Hp). revert Hall. apply Forall_impl. intro x.
        apply known_grows.
        pose proof (forSources_grows fetch more (a + added c) (p + processed c) st1) as Hg.
        rewrite Hf in Hg. exact Hg.
      * apply (Hall2 ltac:(lia) s items' Hin Hfeed').
Qed.

(** With every item known, the loop adds nothing and writes nothing. *)
Lemma forArticles_known source items : forall a p st,
  Forall (known st) items ->
  exists p' st',
    forArticles source items a p st
    = (Return {| added := a; processed := p' |}, st') /\
    news st' = news st /\
    written (calls st') = written (calls st).
Proof.
  induction items as [|article more IH]; intros a p st Hall.
  - exists p, st. auto.
  - inversion Hall as [|x l Hk Hmore]; subst. unfold known in Hk.
    cbn [forArticles]. unfold bind at 1, tryCatch, bind at 1.
    rewrite processArticle_unfold. cbv zeta. rewrite Hk.
    destruct (fault st) as [msg|].
    + unfold bind, exec_, ret.
      destruct (IH a p (log (msgErreurArticle article msg) error
                          (log (msgErreurTraitement msg) error (afterGet article st))))
        as (p' & st' & Hf & Hn & Hw).
      { revert Hmore. apply Forall_impl. intros x Hx. exact Hx. }
      exists p', st'. cbn [added processed]. split; [exact Hf|].
      rewrite Hn, Hw, !log_calls, !written_app. unfold afterGet.
      cbn [calls set_faults set_calls]. rewrite written_app.
      cbn [written flat_map app]. rewrite !app_nil_r. auto.
    + unfold ret.
      destruct (IH a (S p) (afterGet article st)) as (p' & st' & Hf & Hn & Hw).
      { revert Hmore. apply Forall_impl. intros x Hx. exact Hx. }
      exists p', st'. cbn [added processed]. split; [exact Hf|].
      rewrite Hn, Hw. unfold afterGet.
      cbn [calls set_faults set_calls]. rewrite written_app.
      cbn [written flat_map app]. rewrite !app_nil_r. auto.
Qed.

Lemma syncSource_known fetch source items st :
  feedItems fetch source = Return items ->
  Forall (known st) items ->
  exists p' st',
    syncSource fetch source st
    = (Return {| added := 0; processed := p' |}, st') /\
    news st' = news st /\
    written (calls st') = written (calls st).
Proof.
  intros H Hall. rewrite syncSource_unfold, H. cbv zeta.
  destruct (forArticles_known source items 0 0
              (log (msgTrouves source (length items)) info (afterFetch source st)))
    as (p' & st' & Hf & Hn & Hw).
  { revert Hall. apply Forall_impl. intros x Hx. unfold known in *.
    rewrite log_news. destruct (afterFetch_state source st) as (En & _).
    rewrite En. exact Hx. }
  rewrite Hf. cbn [fst snd]. eexists _, _. split; [reflexivity|].
  rewrite log_news, log_calls, written_app, Hn, Hw, log_news, log_calls, written_app.
  destruct (afterFetch_state source st) as (En & _ & _ & _ & _ & Ew & _).
  rewrite En, Ew.
  cbn [written flat_map app]. rewrite !app_nil_r. auto.
Qed.

Lemma forSources_known fetch l : forall a p st,
  (forall s, In s l ->
     exists items, feedItems fetch s = Return items /\ Forall (known st) items) ->
  exists p' st',
    forSources fetch l a p st
    = (Return {| totalAdded := a; totalProcessed := p' |}, st') /\
    news st' = news st /\
    written (calls st') = written (calls st).
Proof.
  induction l as [|source more IH]; intros a p st Hall.
  - exists p, st. auto.
  - cbn [forSources]. unfold bind at 1, exec_ at 1. unfold bind at 1.
    destruct (Hall source (or_introl eq_refl)) as (items & Hfeed & Hk).
    destruct (syncSource_known fetch source items
                (log (msgTraitement source) info st) Hfeed)
      as (p1 & st1 & Hs & Hn & Hw).
    { revert Hk. apply Forall_impl. intros x Hx. exact Hx. }
    rewrite Hs. cbn [added processed]. rewrite Nat.add_0_r.
    destruct (IH a (p + p1) st1) as (p' & st' & Hf & Hn2 & Hw2).
    { intros s Hin. destruct (Hall s (or_intror Hin)) as (its & Hf' & Hk').
      exists its. split; [exact Hf'|].
      revert Hk'. apply Forall_impl. intros x Hx. unfold known in *.
      rewrite Hn, log_news. exact Hx. }
    exists p', st'. split; [exact Hf|].
    rewrite Hn2, Hw2, Hn, Hw, log_news, log_calls, written_app.
    cbn [written flat_map app]. rewrite app_nil_r. auto.
Qed.

Lemma do_loadNews_unfold loadNews st :
  do_loadNews loadNews st =
  match loadNews with
  | Some o => (o, set_calls (calls st ++ [LoadNews]) st)
  | None => (Return tt, st)
  end.
Proof. destruct loadNews as [[[]|msg]|]; reflexivity. Qed.

Lemma syncAll_idle fetch loadNews st :
  isRunning st = false ->
  syncAll fetch loadNews st =
  match forSources fetch (sources st) 0 0
          (log msgDebut info (set_isRunning true st)) with
  | (Return t, st1) =>
      match do_loadNews loadNews (log (msgTerminee t) success st1) with
      | (Return _, st2) => (Return (Some t), set_isRunning false st2)
      | (Throw msg, st2) =>
          (Throw msg,
           set_isRunning false (log (msgErreurGlobale msg) error st2))
      end
  | (Throw msg, st1) =>
      (Throw msg, set_isRunning false (log (msgErreurGlobale msg) error st1))
  end.
Proof.
  intro Hrun. unfold syncAll. rewrite Hrun.
  unfold bind at 1, exec_ at 1. unfold bind at 1, exec_ at 1.
  unfold bind at 1, tryFinally, tryCatch. unfold bind at 1.
  rewrite log_sources. cbn [sources set_isRunning]. unfold bind at 1.
  destruct (forSources _ _ _ _ _) as [[t|msg] st1]; [|reflexivity].
  unfold bind at 1, exec_ at 1. unfold bind at 1.
  destruct (do_loadNews _ _) as [[[]|msg] st2]; reflexivity.
Qed.

(** C3 as stated fails: the write of the only item is rejected in the first
    run, which returns 0 added of 0 processed and leaves the collection
    empty; the second run over the same feed adds the item. *)
Lemma C3_second_run_adds_nothing_counterexample :
  ~ (forall fetch loadNews st t1 st1,
       isRunning st = false ->
       syncAll fetch loadNews st = (Return (Some t1), st1) ->
       exists t2 st2,
         syncAll fetch loadNews st1 = (Return (Some t2), st2) /\
         totalAdded t2 = 0).
Proof.
  intro H.
  destruct (H (hotelFeed oneItem) None (constructor [] firstWriteRejected 0)
              {| totalAdded := 0; totalProcessed := 0 |}
              (snd (syncAll (hotelFeed oneItem) None
                      (constructor [] firstWriteRejected 0))) eq_refl)
    as (t2 & st2 & Hs & Ha).
  - vm_compute. reflexivity.
  - vm_compute in Hs. injection Hs as <- _. discriminate Ha.
Qed.

Lemma forSources_cons fetch source more a p st :
  forSources fetch (source :: more) a p st =
  match syncSource fetch source (log (msgTraitement source) info st) with
  | (Return r, st1) =>
      forSources fetch more (a + added r) (p + processed r) st1
  | (Throw msg, st1) => (Throw msg, st1)
  end.
Proof. reflexivity. Qed.

(** ** Items that a second run leaves alone *)

Lemma quiet_fault st : quiet st -> fault st = None.
Proof.
  unfold quiet, fault. intro H. destruct (faults st) as [|[msg|] fs]; auto.
  exfalso. apply (H msg). left. reflexivity.
Qed.

Lemma quiet_tl st st' : faults st' = tl (faults st) -> quiet st -> quiet st'.
Proof.
  unfold quiet. intros E H msg Hin. rewrite E in Hin. apply (H msg).
  destruct (faults st); [exact Hin|right; exact Hin].
Qed.

Lemma quiet_same st st' : faults st' = faults st -> quiet st -> quiet st'.
Proof. unfold quiet. intros E H. rewrite E. exact H. Qed.

Lemma processArticle_quiet article source st :
  quiet st ->
  let r := processArticle article source st in
  quiet (snd r) /\
  (title article <> None -> known (snd r) article).
Proof.
  intro Hq. cbv zeta. rewrite processArticle_unfold. cbv zeta.
  assert (Hq1 : quiet (afterGet article st)).
  { apply (quiet_tl st); [reflexivity|exact Hq]. }
  rewrite (quiet_fault st Hq), (quiet_fault _ Hq1).
  destruct (hasUrl (link article) (news st)) eqn:Hurl.
  - cbn [snd]. split; [exact Hq1|]. intros _. exact Hurl.
  - destruct (title article) as [t|]; cbn [snd].
    + split.
      * apply (quiet_tl (afterGet article st)); [|exact Hq1].
        rewrite log_faults. reflexivity.
      * intros _. unfold known. rewrite log_news.
        cbn [news set_news set_faults set_calls].
        rewrite hasUrl_app, buildNewsData_hasUrl. apply orb_true_r.
    + split; [|intro H; contradiction].
      apply (quiet_same (afterGet article st)); [apply log_faults|exact Hq1].
Qed.

Lemma processArticle_grows article source st :
  grows st (snd (processArticle article source st)).
Proof.
  apply (@keeps_processArticle grows (fun _ => true)); unfold grows; auto.
  intros d st0 u H. cbn [news set_news]. rewrite hasUrl_app, H. reflexivity.
Qed.

Lemma forArticles_quiet source items : forall a p st,
  quiet st ->
  let r := forArticles source items a p st in
  quiet (snd r) /\
  Forall (fun x => title x <> None -> known (snd r) x) items.
Proof.
  induction items as [|article more IH]; intros a p st Hq; cbv zeta.
  - split; [exact Hq|constructor].
  - rewrite forArticles_step.
    destruct (processArticle_quiet article source st Hq) as [Hq1 Hk].
    destruct (processArticle article source st) as [[b|msg] st1];
      cbn [snd] in Hq1, Hk.
    + destruct (IH (if b then S a else a) (S p) st1 Hq1) as [Hq' Hall].
      split; [exact Hq'|]. constructor; [|exact Hall].
      intro Ht. apply (known_grows st1); [apply forArticles_grows|apply Hk, Ht].
    + assert (Hq2 : quiet (log (msgErreurArticle article msg) error st1))
        by (apply (quiet_same st1); [apply log_faults|exact Hq1]).
      destruct (IH a p _ Hq2) as [Hq' Hall].
      split; [exact Hq'|]. constructor; [|exact Hall].
      intro Ht. apply (known_grows (log (msgErreurArticle article msg) error st1));
        [apply forArticles_grows|].
      unfold known. rewrite log_news. apply Hk, Ht.
Qed.

Lemma syncSource_quiet fetch source st :
  quiet st ->
  let r := syncSource fetch source st in
  quiet (snd r) /\
  (forall items, feedItems fetch source = Return items ->
     Forall (fun x => title x <> None -> known (snd r) x) items).
Proof.
  intro Hq. cbv zeta. rewrite syncSource_unfold.
  destruct (afterFetch_state source st) as (_ & Hf & _).
  destruct (feedItems fetch source) as [items|msg].
  - cbv zeta.
    destruct (forArticles_quiet source items 0 0
                (log (msgTrouves source (length items)) info
                   (afterFetch source st))) as [Hq' Hall].
    { apply (quiet_same st); [rewrite log_faults; exact Hf|exact Hq]. }
    destruct (forArticles source items 0 0 _) as [[c|msg] st1];
      cbn [fst snd] in *.
    + split; [apply (quiet_same st1); [apply log_faults|exact Hq']|].
      intros items' E. injection E as <-. revert Hall. apply Forall_impl.
      intros x Hx Ht. unfold known. rewrite log_news. apply Hx, Ht.
    + split; [apply (quiet_same st1); [apply log_faults|exact Hq']|].
      intros items' E. injection E as <-. revert Hall. apply Forall_impl.
      intros x Hx Ht. unfold known. rewrite log_news. apply Hx, Ht.
  - cbn [snd]. split; [|intros items E; discriminate E].
    apply (quiet_same st); [rewrite log_faults; exact Hf|exact Hq].
Qed.

Lemma syncSource_grows fetch source st :
  grows st (snd (syncSource fetch source st)).
Proof.
  apply (@keeps_syncSource grows (fun _ => true)); unfold grows; auto.
  intros d st0 u H. cbn [news set_news]. rewrite hasUrl_app, H. reflexivity.
Qed.

Lemma forSources_quiet fetch l : forall a p st t st',
  quiet st ->
  forSources fetch l a p st = (Return t, st') ->
  titledKnown fetch l st'.
Proof.
  induction l as [|source more IH]; intros a p st t st' Hq Hrun.
  - intros s items article [].
  - rewrite forSources_cons in Hrun.
    assert (Hq0 : quiet (log (msgTraitement source) info st))
      by (apply (quiet_same st); [apply log_faults|exact Hq]).
    destruct (syncSource_quiet fetch source _ Hq0) as [Hq1 Hall].
    destruct (syncSource fetch source (log (msgTraitement source) info st))
      as [[c|msg] st1]; cbn [snd] in *; [|discriminate Hrun].
    intros s items article [<-|Hin] Hfeed Hart Ht.
    + apply (known_grows st1).
      * pose proof (forSources_grows fetch more (a + added c)
                      (p + processed c) st1) as Hg.
        rewrite Hrun in Hg. exact Hg.
      * specialize (Hall items Hfeed). rewrite Forall_forall in Hall.
        apply (Hall article Hart Ht).
    + apply (IH _ _ _ _ _ Hq1 Hrun s items article Hin Hfeed Hart Ht).
Qed.

Lemma forArticles_settled source items : forall a p st,
  Forall (fun x => title x <> None -> known st x) items ->
  exists p' st',
    forArticles source items a p st
    = (Return {| added := a; processed := p' |}, st') /\
    news st' = news st /\
    written (calls st') = written (calls st).
Proof.
  induction items as [|article more IH]; intros a p st Hall.
  - exists p, st. auto.
  - inversion Hall as [|x l Hk Hmore]; subst. unfold known in Hk.
    rewrite forArticles_step, processArticle_unfold. cbv zeta.
    assert (Hget : news (afterGet article st) = news st /\
                   written (calls (afterGet article st)) = written (calls st)).
    { unfold afterGet. cbn [news calls set_faults set_calls].
      rewrite written_app. cbn. rewrite app_nil_r. auto. }
    destruct Hget as [Hgn Hgw].
    assert (Hfail : forall msg,
              exists p' st',
                forArticles source more a p
                  (log (msgErreurArticle article msg) error
                     (log (msgErreurTraitement msg) error (afterGet article st)))
                = (Return {| added := a; processed := p' |}, st') /\
                news st' = news st /\
                written (calls st') = written (calls st)).
    { intro msg.
      destruct (IH a p (log (msgErreurArticle article msg) error
                          (log (msgErreurTraitement msg) error
                             (afterGet article st))))
        as (p' & st' & Hf & Hn & Hw).
      { revert Hmore. apply Forall_impl. intros x Hx Ht. unfold known.
        rewrite !log_news, Hgn. apply Hx, Ht. }
      exists p', st'. split; [exact Hf|].
      rewrite Hn, Hw, !log_news, !log_calls, !written_app, Hgn, Hgw.
      cbn. rewrite !app_nil_r. auto. }
    destruct (fault st) as [msg|]; [apply Hfail|].
    destruct (hasUrl (link article) (news st)) eqn:Hurl.
    + destruct (IH a (S p) (afterGet article st)) as (p' & st' & Hf & Hn & Hw).
      { revert Hmore. apply Forall_impl. intros x Hx Ht. unfold known.
        rewrite Hgn. apply Hx, Ht. }
      exists p', st'. split; [exact Hf|]. rewrite Hn, Hw, Hgn, Hgw. auto.
    + destruct (title article) as [t|] eqn:Ht; [|apply Hfail].
      assert (Hc : Some t <> None) by discriminate.
      discriminate (Hk Hc).
Qed.

Lemma syncSource_settled fetch source items st :
  feedItems fetch source = Return items ->
  Forall (fun x => title x <> None -> known st x) items ->
  exists p' st',
    syncSource fetch source st
    = (Return {| added := 0; processed := p' |}, st') /\
    news st' = news st /\
    written (calls st') = written (calls st).
Proof.
  intros H Hall. rewrite syncSource_unfold, H. cbv zeta.
  destruct (afterFetch_state source st) as (En & _ & _ & _ & _ & Ew & _).
  destruct (forArticles_settled source items 0 0
              (log (msgTrouves source (length items)) info (afterFetch source st)))
    as (p' & st' & Hf & Hn & Hw).
  { revert Hall. apply Forall_impl. intros x Hx Ht. unfold known.
    rewrite log_news, En. apply Hx, Ht. }
  rewrite Hf. cbn [fst snd]. eexists _, _. split; [reflexivity|].
  rewrite log_news, log_calls, written_app, Hn, Hw, log_news, log_calls,
    written_app, En, Ew.
  cbn [written flat_map app]. rewrite !app_nil_r. auto.
Qed.

Lemma forSources_settled fetch l : forall a p st,
  (forall s, In s l -> exists items, feedItems fetch s = Return items) ->
  titledKnown fetch l st ->
  exists p' st',
    forSources fetch l a p st
    = (Return {| totalAdded := a; totalProcessed := p' |}, st') /\
    news st' = news st /\
    written (calls st') = written (calls st).
Proof.
  induction l as [|source more IH]; intros a p st Hok Hall.
  - exists p, st. auto.
  - rewrite forSources_cons.
    destruct (Hok source (or_introl eq_refl)) as (items & Hfeed).
    destruct (syncSource_settled fetch source items
                (log (msgTraitement source) info st) Hfeed)
      as (p1 & st1 & Hs & Hn & Hw).
    { apply Forall_forall. intros x Hx Ht. unfold known. rewrite log_news.
      apply (Hall source items x (or_introl eq_refl) Hfeed Hx Ht). }
    rewrite Hs. cbn [added processed]. rewrite Nat.add_0_r.
    destruct (IH a (p + p1) st1) as (p' & st' & Hf & Hn2 & Hw2).
    { intros s Hin. apply Hok. right. exact Hin. }
    { intros s its x Hin Hf' Hx Ht. unfold known. rewrite Hn, log_news.
      apply (Hall s its x (or_intror Hin) Hf' Hx Ht). }
    exists p', st'. split; [exact Hf|].
    rewrite Hn2, Hw2, Hn, Hw, log_news, log_calls, written_app.
    cbn [written flat_map app]. rewrite app_nil_r. auto.
Qed.

(** C3, as amended: a first run from idle returned.  When no store request
    pending before it was rejected, or when it processed every item of the
    feeds, every feed item that has a title is in the collection after it.
    And when every feed item that has a title is in the collection after it,
    a second run over the same feeds, on a collection that holds at least
    what the first run left, returns [totalAdded = 0], writes nothing and
    leaves the collection as it is, whatever requests are rejected then: a
    known url is skipped, and an item without title fails before the write
    in every run. *)
Theorem C3_second_run_adds_nothing fetch loadNews st t1 st1 :
  isRunning st = false ->
  syncAll fetch loadNews st = (Return (Some t1), st1) ->
  (quiet st \/ totalProcessed t1 = feedSize fetch (sources st) ->
   titledKnown fetch (sources st) st1) /\
  (titledKnown fetch (sources st) st1 ->
   forall st2,
     sources st2 = sources st ->
     isRunning st2 = false ->
     (forall u, hasUrl u (news st1) = true -> hasUrl u (news st2) = true) ->
     exists p st3,
       syncAll fetch loadNews st2
       = (Return (Some {| totalAdded := 0; totalProcessed := p |}), st3) /\
       news st3 = news st2 /\
       written (calls st3) = written (calls st2)).
Proof.
  intros Hrun Hs.
  rewrite (syncAll_idle fetch loadNews st Hrun) in Hs.
  destruct (forSources fetch (sources st) 0 0 _) as [[t'|msg] st'] eqn:Hf;
    [|discriminate Hs].
  destruct (forSources_complete fetch (sources st) 0 0 _ t' st' Hf)
    as (Hok & _ & Hknown).
  rewrite do_loadNews_unfold in Hs.
  assert (Hload : loadNews = None \/ loadNews = Some (Return tt)).
  { destruct loadNews as [[[]|msg]|]; auto; discriminate Hs. }
  assert (Ht : t' = t1 /\ news st1 = news st').
  { destruct Hload as [-> | ->]; injection Hs as <- <-; auto. }
  destruct Ht as [-> Hnews]. split.
  - intros [Hq|Hall] s items article Hin Hfeed Hart Ht; unfold known;
      rewrite Hnews.
    + assert (Hq0 : quiet (log msgDebut info (set_isRunning true st)))
        by (apply (quiet_same st); [rewrite log_faults; reflexivity|exact Hq]).
      apply (forSources_quiet fetch (sources st) 0 0 _ t1 st' Hq0 Hf
               s items article Hin Hfeed Hart Ht).
    + specialize (Hknown Hall s items Hin Hfeed).
      rewrite Forall_forall in Hknown. apply Hknown, Hart.
  - intros Htk st2 Hsrc Hrun2 Hsub.
    rewrite (syncAll_idle fetch loadNews st2 Hrun2), Hsrc.
    destruct (forSources_settled fetch (sources st) 0 0
                (log msgDebut info (set_isRunning true st2)) Hok)
      as (p & st3 & Hf2 & Hn & Hw).
    { intros s items x Hin Hfeed Hx Ht. unfold known.
      rewrite log_news. cbn [news set_isRunning]. apply Hsub.
      apply (Htk s items x Hin Hfeed Hx Ht). }
    rewrite Hf2, do_loadNews_unfold.
    destruct Hload as [-> | ->]; eexists _, _; (split; [reflexivity|]).
    + cbn [news calls set_isRunning].
      rewrite log_news, log_calls, written_app, Hn, Hw.
      rewrite log_news, log_calls, written_app.
      cbn [news calls set_isRunning written flat_map app].
      rewrite !app_nil_r. auto.
    + cbn [news calls set_isRunning set_calls].
      rewrite log_news, log_calls, !written_app, Hn, Hw.
      rewrite log_news, log_calls, written_app.
      cbn [news calls set_isRunning written flat_map app].
      rewrite !app_nil_r. auto.
Qed.

Lemma C3_second_run_adds_nothing_witness :
  exists p st3,
    syncAll (hotelFeed threeItems) None
      (snd (syncAll (hotelFeed threeItems) None (constructor [] [] 0)))
    = (Return (Some {| totalAdded := 0; totalProcessed := p |}), st3).
Proof.
  destruct (C3_second_run_adds_nothing (hotelFeed threeItems) None
              (constructor [] [] 0)
              {| totalAdded := 2; totalProcessed := 2 |}
              (snd (syncAll (hotelFeed threeItems) None (constructor [] [] 0))))
    as (HA & HB).
  - reflexivity.
  - vm_compute. reflexivity.
  - destruct (HB (HA (or_introl (fun msg (H : In (Some msg) []) => H)))
                (snd (syncAll (hotelFeed threeItems) None (constructor [] [] 0))))
      as (p & st3 & H & _).
    + reflexivity.
    + reflexivity.
    + auto.
    + exists p, st3. exact H.
Defined.

Lemma C10_syncSource_ignores_isRunning_witness :
  let r := syncSource (hotelFeed oneItem) hotels
             (set_isRunning true (constructor [] [] 0)) in
  fst r = Return {| added := 1; processed := 1 |} /\
  isRunning (snd r) = true /\
  length (news (snd r)) = 1.
Proof.
  cbv zeta.
  destruct (C10_syncSource_ignores_isRunning (hotelFeed oneItem) hotels
              (constructor [] [] 0)) as (Hb & _ & _ & Hitems).
  rewrite (Hb true). split; [|split]; vm_compute; reflexivity.
Defined.

(** The scenario of the specification: one item, synchronised twice. *)
Example scenario_first_run :
  let r := syncAll (hotelFeed oneItem) None (constructor [] [] 0) in
  fst r = Return (Some {| totalAdded := 1; totalProcessed := 1 |}) /\
  map nd_title (news (snd r)) = [lit "Hello"] /\
  map nd_content (news (snd r)) = [lit "<p>Hi</p>"] /\
  isRunning (snd r) = false.
Proof. vm_compute. repeat split; reflexivity. Qed.

Example scenario_second_run :
  let r := syncAll (hotelFeed oneItem) None (constructor [] [] 0) in
  fst (syncAll (hotelFeed oneItem) None (snd r))
  = Return (Some {| totalAdded := 0; totalProcessed := 1 |}).
Proof. vm_compute. reflexivity. Qed.

(** ** The bound of the event log *)

Lemma log_bounded msg t st : bounded st (log msg t st).
Proof.
  intro H. rewrite log_logs by exact H. rewrite length_firstn. lia.
Qed.

Lemma syncSource_bounded fetch source st :
  bounded st (snd (syncSource fetch source st)).
Proof.
  apply (@keeps_syncSource bounded (fun _ => true)); unfold bounded; auto.
  apply log_bounded.
Qed.

Lemma forSources_bounded fetch l a p st :
  bounded st (snd (forSources fetch l a p st)).
Proof.
  apply (@keeps_forSources bounded (fun _ => true)); unfold bounded; auto.
  apply log_bounded.
Qed.

Lemma syncAll_bounded fetch loadNews st :
  bounded st (snd (syncAll fetch loadNews st)).
Proof.
  destruct (isRunning st) eqn:Hrun.
  - unfold syncAll. rewrite Hrun. apply log_bounded.
  - rewrite (syncAll_idle fetch loadNews st Hrun).
    pose proof (forSources_bounded fetch (sources st) 0 0
                  (log msgDebut info (set_isRunning true st))) as Hf.
    assert (H0 : bounded st (log msgDebut info (set_isRunning true st)))
      by (intro H; apply (log_bounded msgDebut info (set_isRunning true st)), H).
    destruct (forSources _ _ _ _ _) as [[t|msg] st1]; cbn [snd] in Hf.
    + rewrite do_loadNews_unfold.
      pose proof (log_bounded (msgTerminee t) success st1) as H1.
      destruct loadNews as [[[]|msg]|]; cbn [snd];
        intro H; try (apply H1, Hf, H0, H).
      apply (log_bounded (msgErreurGlobale msg) error
               (set_calls (calls (log (msgTerminee t) success st1) ++ [LoadNews])
                  (log (msgTerminee t) success st1))).
      apply H1, Hf, H0, H.
    + intro H. apply (log_bounded (msgErreurGlobale msg) error st1), Hf, H0, H.
Qed.

(** C9: [log] puts the new entry at the front and, when the buffer would
    pass a hundred entries, drops the last one, the oldest; [getLogs] reads
    the newest entries; so after any sequence of [log], [getLogs] and
    [clearLogs] from the constructor the buffer holds at most a hundred
    entries, the hundred newest recorded since the last clear, newest first;
    and the synchronisation, which only writes through [log], keeps the
    bound. *)
Theorem C9_event_log_keeps_newest_hundred :
  (forall msg t st,
     length (logs st) <= 100 ->
     let entry := {| timestamp := clock st; message := msg; type := t |} in
     logs (log msg t st) = firstn 100 (entry :: logs st) /\
     (length (logs st) < 100 -> logs (log msg t st) = entry :: logs st) /\
     (length (logs st) = 100 ->
      logs (log msg t st) = entry :: removelast (logs st))) /\
  (forall limit st, (0 <= limit)%Z ->
     getLogs limit st = firstn (Z.to_nat limit) (logs st)) /\
  (forall ops db fs now,
     let st := fold_left applyOp ops (constructor db fs now) in
     length (logs st) <= 100 /\
     logs st = firstn 100 (snd (fold_left historyOp ops (now, [])))) /\
  (forall fetch loadNews source st,
     length (logs st) <= 100 ->
     length (logs (snd (syncSource fetch source st))) <= 100 /\
     length (logs (snd (syncAll fetch loadNews st))) <= 100).
Proof.
  split; [|split; [|split]].
  - intros msg t st Hlen entry. split; [apply log_logs, Hlen|]. split.
    + intro Hlt. rewrite log_logs by exact Hlen. apply firstn_all2.
      cbn [length]. lia.
    + intro Heq. rewrite log_logs by exact Hlen. fold entry.
      rewrite firstn_cons. f_equal.
      rewrite removelast_firstn_len, Heq. reflexivity.
  - intros limit st Hl. unfold getLogs, slice0.
    destruct (limit <? 0)%Z eqn:E; [apply Z.ltb_lt in E; lia | reflexivity].
  - intros ops db fs now st.
    destruct (fold_applyOp_history ops (constructor db fs now) (now, []))
      as (H1 & _ & H3); try reflexivity.
    + cbn. lia.
    + split; assumption.
  - intros fetch loadNews source st Hlen. split.
    + apply syncSource_bounded, Hlen.
    + apply syncAll_bounded, Hlen.
Qed.

Lemma C9_event_log_keeps_newest_hundred_witness :
  let st := fold_left applyOp
              (repeat (OpRecord (lit "x") info) 101 ++ [OpQuery 5; OpClear;
               OpRecord (lit "y") error])
              (constructor [] [] 0) in
  length (logs st) = 2 /\
  logs (log (lit "z") info st)
  = {| timestamp := clock st; message := lit "z"; type := info |} :: logs st.
Proof.
  cbv zeta. split; [vm_compute; reflexivity|].
  destruct C9_event_log_keeps_newest_hundred as (H & _).
  apply H; vm_compute; lia.
Defined.

(** ** The matcher on the patterns of the source *)

Lemma run_Cat r1 r2 fuel x k :
  run (Cat r1 r2) fuel x k = run r1 fuel x (fun y => run r2 fuel y k).
Proof. reflexivity. Qed.

Lemma run_Star r fuel x k :
  run (Star r) fuel x k = repeat_loop true (run r fuel) fuel x k.
Proof. reflexivity. Qed.

Lemma run_LazyStar r fuel x k :
  run (LazyStar r) fuel x k = repeat_loop false (run r fuel) fuel x k.
Proof. reflexivity. Qed.

Lemma run_Chr p fuel x k :
  run (Chr p) fuel x k =
  match rest x with
  | c :: s => if p c then k (Cursor (Some c) s) else None
  | [] => None
  end.
Proof. reflexivity. Qed.

Lemma run_NotAhead r fuel x k :
  run (NotAhead r) fuel x k =
  match run r fuel x Some with Some _ => None | None => k x end.
Proof. reflexivity. Qed.

Lemma run_WordBoundary fuel x k :
  run WordBoundary fuel x k =
  if xorb (wordBefore x) (wordAfter x) then k x else None.
Proof. reflexivity. Qed.

Lemma run_chars cls p : forall fuel x k,
  run (chars cls p) fuel x k =
  match dropPrefix cls p x with
  | Some y => k y
  | None => None
  end.
Proof.
  induction p as [|c p IH]; intros fuel x k; cbn [chars run dropPrefix].
  - reflexivity.
  - destruct (rest x) as [|y s]; [reflexivity|].
    destruct (cls c y); [apply IH | reflexivity].
Qed.

Lemma dropPrefix_length cls p : forall x y,
  dropPrefix cls p x = Some y -> length (rest y) + length p = length (rest x).
Proof.
  induction p as [|c p IH]; intros x y H; cbn [dropPrefix] in H.
  - injection H as <-. cbn. lia.
  - destruct (rest x) as [|z s] eqn:E; [discriminate|].
    destruct (cls c z); [|discriminate].
    apply IH in H. cbn [rest length] in *. lia.
Qed.

Lemma isCI_LT c : isCI LT c = N.eqb c LT.
Proof.
  unfold isCI, canonicalize, LT.
  destruct ((97 <=? c) && (c <=? 122))%N eqn:E; [|reflexivity].
  apply andb_true_iff in E. destruct E as [E1 E2].
  apply N.leb_le in E1, E2.
  cbn [N.leb N.compare Pos.compare Pos.compare_cont andb].
  destruct (N.eqb_spec (c - 32) 60), (N.eqb_spec c 60); try reflexivity; lia.
Qed.

(** A pattern that begins with the less-than sign matches only there. *)
Lemma closeTag_needs_LT T x :
  startsAt LT x = false -> dropPrefix isCI (closeTag T) x = None.
Proof.
  unfold startsAt, closeTag. cbn [lit map list_ascii_of_string app dropPrefix].
  destruct (rest x) as [|c s]; [reflexivity|].
  change (N_of_ascii "<") with LT. rewrite isCI_LT. intros ->. reflexivity.
Qed.

Lemma skipRun_length d b s : length (rest (skipRun d b s)) <= length s.
Proof.
  revert b. induction s as [|c s IH]; intro b; cbn [skipRun]; [cbn; lia|].
  destruct (isNot d c); [specialize (IH (Some c)); cbn; lia | cbn; lia].
Qed.

Lemma skipRun_stops d b s :
  rest (skipRun d b s) = [] \/ startsAt d (skipRun d b s) = true.
Proof.
  revert b. induction s as [|c s IH]; intro b; cbn [skipRun]; [left; reflexivity|].
  destruct (isNot d c) eqn:Ec; [apply IH|].
  right. unfold startsAt. cbn [rest]. unfold isNot in Ec.
  apply negb_false_iff in Ec. exact Ec.
Qed.

(** The greedy run of a negated class: when what follows can only start at
    the excluded code unit, backtracking into the run never helps. *)
Lemma star_isNot d fuel (k : Cont) :
  (forall x, startsAt d x = false -> k x = None) ->
  forall n s b, length s <= n ->
    repeat_loop true (run (Chr (isNot d)) fuel) n (Cursor b s) k
    = k (skipRun d b s).
Proof.
  intros Hk n. induction n as [|n IH]; intros s b Hlen.
  - destruct s; [reflexivity | cbn in Hlen; lia].
  - cbn [repeat_loop]. rewrite run_Chr. cbn [rest].
    destruct s as [|c s]; [reflexivity|]. cbn [skipRun].
    destruct (isNot d c) eqn:Ec; [|reflexivity].
    unfold shorter. cbn [rest length].
    replace (length s <? S (length s)) with true
      by (symmetry; apply Nat.ltb_lt; lia).
    rewrite IH by (cbn in Hlen; lia).
    destruct (k (skipRun d (Some c) s)); [reflexivity|].
    apply Hk. unfold startsAt. cbn [rest].
    unfold isNot in Ec. apply negb_true_iff in Ec. exact Ec.
Qed.

(** *** The pattern of a tag *)

Lemma afterFirst_GT_skipRun s : forall b,
  match rest (skipRun GT b s) with
  | c :: s' => if isChar GT c then Some (Cursor (Some c) s') else None
  | [] => None
  end
  = afterFirst isChar [GT] b s.
Proof.
  induction s as [|c s IH]; intro b; [reflexivity|].
  cbn [skipRun afterFirst dropPrefix rest]. unfold isNot, isChar.
  destruct (N.eqb c GT) eqn:E; cbn [negb rest].
  - rewrite E. reflexivity.
  - apply IH.
Qed.

Lemma exec_tagRe x : exec tagRe x = execTag x.
Proof.
  unfold exec, tagRe, execTag. rewrite run_Cat, run_Chr.
  destruct x as [b s]. cbn [rest]. destruct s as [|c s]; [reflexivity|].
  unfold isChar at 1. destruct (N.eqb c LT); [|reflexivity].
  rewrite run_Cat, run_Star, star_isNot.
  - rewrite run_Chr. destruct (skipRun GT (Some c) s) as [b' s'] eqn:Es.
    pose proof (afterFirst_GT_skipRun s (Some c)) as H. rewrite Es in H.
    cbn [rest] in *. rewrite <- H. destruct s' as [|c' s']; [reflexivity|].
    destruct (isChar GT c'); reflexivity.
  - intros x Hx. unfold startsAt in Hx. rewrite run_Chr.
    destruct (rest x) as [|c' s']; [reflexivity|].
    unfold isChar. rewrite Hx. reflexivity.
  - cbn. lia.
Qed.

(** *** The pattern of a block *)

Lemma kClose_eq T fuel z : kClose T fuel z = dropPrefix isCI (closeTag T) z.
Proof.
  unfold kClose, closeRe, strCI. rewrite run_chars.
  destruct (dropPrefix _ _ _); reflexivity.
Qed.

Lemma afterFirst_skipRun T b s :
  afterFirst isCI (closeTag T) b s
  = afterFirst isCI (closeTag T) (before (skipRun LT b s)) (rest (skipRun LT b s)).
Proof.
  revert b. induction s as [|c s IH]; intro b; cbn [skipRun]; [reflexivity|].
  destruct (isNot LT c) eqn:Ec; [|reflexivity].
  cbn [afterFirst]. rewrite closeTag_needs_LT.
  - apply IH.
  - unfold startsAt. cbn [rest]. unfold isNot in Ec.
    apply negb_true_iff in Ec. exact Ec.
Qed.

(** The group cannot start, and the closing tag cannot match, where no
    less-than sign stands. *)
Lemma group_loop_needs_LT T fuel n x :
  startsAt LT x = false ->
  repeat_loop true (run (groupRe T) fuel) n x (kClose T fuel) = None.
Proof.
  intro H. assert (Hk : kClose T fuel x = None)
    by (rewrite kClose_eq; apply closeTag_needs_LT, H).
  destruct n as [|n]; cbn [repeat_loop]; [exact Hk|].
  unfold groupRe at 1. rewrite run_Cat, run_NotAhead.
  fold (kClose T fuel x). rewrite Hk, run_Cat, run_Chr.
  unfold startsAt in H. destruct (rest x) as [|c s]; [reflexivity|].
  unfold isChar. rewrite H. reflexivity.
Qed.

(** The loop of the group, from a less-than sign or the end: it stops at the
    first closing tag. *)
Lemma group_loop T fuel n : forall s b,
  length s <= n -> length s <= fuel ->
  s = [] \/ startsAt LT (Cursor b s) = true ->
  repeat_loop true (run (groupRe T) fuel) n (Cursor b s) (kClose T fuel)
  = afterFirst isCI (closeTag T) b s.
Proof.
  induction n as [|n IH]; intros s b Hn Hfuel Hs.
  - destruct s; [|cbn in Hn; lia]. cbn [repeat_loop]. rewrite kClose_eq.
    cbn [afterFirst]. destruct (dropPrefix _ _ _); reflexivity.
  - cbn [repeat_loop]. unfold groupRe at 1. rewrite run_Cat, run_NotAhead.
    fold (kClose T fuel (Cursor b s)). rewrite !kClose_eq.
    destruct s as [|c s].
    + cbn [afterFirst rest]. destruct (dropPrefix _ _ _); reflexivity.
    + destruct Hs as [Hs|Hs]; [discriminate|].
      unfold startsAt in Hs. cbn [rest] in Hs. apply N.eqb_eq in Hs. subst c.
      cbn [afterFirst]. destruct (dropPrefix isCI (closeTag T) _) as [y|] eqn:Ed;
        [reflexivity|].
      rewrite run_Cat, run_Chr. cbn [rest]. unfold isChar at 1.
      rewrite N.eqb_refl, run_Star, star_isNot.
      * unfold shorter. cbn [rest length].
        pose proof (skipRun_length LT (Some LT) s) as Hl.
        replace (length (rest (skipRun LT (Some LT) s)) <? S (length s)) with true
          by (symmetry; apply Nat.ltb_lt; lia).
        destruct (skipRun LT (Some LT) s) as [b' s'] eqn:Es.
        rewrite IH.
        -- rewrite (afterFirst_skipRun T (Some LT) s), Es. cbn [before rest].
           destruct (afterFirst _ _ _ _); reflexivity.
        -- cbn [rest] in Hl. cbn in Hn. lia.
        -- cbn [rest] in Hl. cbn in Hfuel. lia.
        -- pose proof (skipRun_stops LT (Some LT) s) as Hst. rewrite Es in Hst.
           exact Hst.
      * intros x Hx. destruct (shorter x _); [|reflexivity].
        apply group_loop_needs_LT, Hx.
      * cbn in Hfuel. lia.
Qed.

(** After the word boundary: the run, the loop of the group, the closing
    tag. *)
Lemma run_block_body T fuel b s :
  length s <= fuel ->
  run (Cat (Star (Chr (isNot LT))) (Cat (Star (groupRe T)) (closeRe T)))
    fuel (Cursor b s) Some
  = afterFirst isCI (closeTag T) b s.
Proof.
  intro Hfuel. rewrite run_Cat, run_Star.
  replace (fun y => run (Cat (Star (groupRe T)) (closeRe T)) fuel y Some)
    with (fun y => repeat_loop true (run (groupRe T) fuel) fuel y (kClose T fuel))
    by reflexivity.
  rewrite star_isNot.
  - destruct (skipRun LT b s) as [b' s'] eqn:Es.
    pose proof (skipRun_length LT b s) as Hl. rewrite Es in Hl. cbn [rest] in Hl.
    rewrite group_loop; try lia.
    + rewrite (afterFirst_skipRun T b s), Es. reflexivity.
    + pose proof (skipRun_stops LT b s) as Hst. rewrite Es in Hst. exact Hst.
  - intros x Hx. apply group_loop_needs_LT, Hx.
  - exact Hfuel.
Qed.

Lemma exec_blockRe T x : exec (blockRe T) x = execBlock T x.
Proof.
  unfold exec, blockRe, execBlock.
  rewrite run_Cat. unfold strCI at 1. rewrite run_chars.
  destruct (dropPrefix isCI (openTag T) x) as [y|] eqn:Ed; [|reflexivity].
  rewrite run_Cat, run_WordBoundary.
  destruct (xorb (wordBefore y) (wordAfter y)); [|reflexivity].
  apply dropPrefix_length in Ed.
  destruct y as [b s]. cbn [rest before] in *.
  apply (run_block_body T (S (length (rest x))) b s). lia.
Qed.

(** The lazy run of any code unit stops at the first closing mark. *)
Lemma lazy_any fuel p n : forall s b,
  length s <= n ->
  repeat_loop false (run (Chr any) fuel) n (Cursor b s)
    (fun z => run (str p) fuel z Some)
  = afterFirst isChar p b s.
Proof.
  induction n as [|n IH]; intros s b Hn.
  - destruct s; [|cbn in Hn; lia]. cbn [repeat_loop afterFirst].
    unfold str. rewrite run_chars. destruct (dropPrefix _ _ _); reflexivity.
  - cbn [repeat_loop]. unfold str at 1. rewrite run_chars.
    destruct s as [|c s]; cbn [afterFirst].
    + destruct (dropPrefix _ _ _); reflexivity.
    + destruct (dropPrefix isChar p _); [reflexivity|].
      cbn [run rest]. unfold any at 1. unfold shorter. cbn [rest length].
      replace (length s <? S (length s)) with true
        by (symmetry; apply Nat.ltb_lt; lia).
      apply IH. cbn in Hn. lia.
Qed.

Lemma exec_commentRe x : exec commentRe x = execComment x.
Proof.
  unfold exec, commentRe, execComment. cbn [run]. unfold str at 1.
  rewrite run_chars.
  destruct (dropPrefix isChar (lit "<!--") x) as [y|] eqn:Ed; [|reflexivity].
  apply dropPrefix_length in Ed. destruct y as [b s]. cbn [rest] in Ed.
  apply lazy_any. cbn [rest]. lia.
Qed.

(** ** Replacing every match *)

Lemma replace_from_ext m1 m2 repl :
  (forall x, m1 x = m2 x) ->
  forall fuel x, replace_from fuel m1 repl x = replace_from fuel m2 repl x.
Proof.
  intros H fuel. induction fuel as [|fuel IH]; intro x; cbn [replace_from].
  - reflexivity.
  - rewrite H. destruct (m2 x) as [y|].
    + destruct (shorter y x); [rewrite IH; reflexivity|].
      destruct (rest x); [reflexivity | rewrite IH; reflexivity].
    + destruct (rest x); [reflexivity | rewrite IH; reflexivity].
Qed.

(** Fuel beyond the length of the subject changes nothing. *)
Lemma replace_from_enough m repl : forall f1 f2 x,
  length (rest x) < f1 -> length (rest x) < f2 ->
  replace_from f1 m repl x = replace_from f2 m repl x.
Proof.
  induction f1 as [|f1 IH]; intros f2 x H1 H2; [lia|].
  destruct f2 as [|f2]; [lia|].
  cbn [replace_from]. destruct (m x) as [y|].
  - destruct (shorter y x) eqn:Es.
    + unfold shorter in Es. apply Nat.ltb_lt in Es.
      rewrite (IH f2 y) by lia. reflexivity.
    + destruct (rest x) as [|c s] eqn:Er; [reflexivity|].
      cbn [length] in *.
      rewrite (IH f2 (Cursor (Some c) s)) by (cbn; lia). reflexivity.
  - destruct (rest x) as [|c s] eqn:Er; [reflexivity|].
    cbn [length] in *.
    rewrite (IH f2 (Cursor (Some c) s)) by (cbn; lia). reflexivity.
Qed.

Lemma replaceAll_tagRe s : replaceAll tagRe [] s = stripTags s.
Proof. apply replace_from_ext. apply exec_tagRe. Qed.

Lemma replaceAll_blockRe T s : replaceAll (blockRe T) [] s = stripPairs T s.
Proof. apply replace_from_ext. apply exec_blockRe. Qed.

Lemma replaceAll_commentRe s : replaceAll commentRe [] s = stripComments s.
Proof. apply replace_from_ext. apply exec_commentRe. Qed.

(** A code unit that starts no match is kept. *)
Lemma strip_keep m b c s :
  m (Cursor b (c :: s)) = None ->
  strip m b (c :: s) = c :: strip m (Some c) s.
Proof.
  intro H. unfold strip. cbn [replace_from length]. rewrite H. reflexivity.
Qed.

(** A match is cut out. *)
Lemma strip_cut m b s y :
  m (Cursor b s) = Some y ->
  length (rest y) < length s ->
  strip m b s = strip m (before y) (rest y).
Proof.
  intros H Hlt. unfold strip.
  remember (replace_from (S (length (rest y))) m [] (Cursor (before y) (rest y)))
    as R eqn:HR.
  cbn [replace_from]. rewrite H. unfold shorter. cbn [rest].
  replace (length (rest y) <? length s) with true
    by (symmetry; apply Nat.ltb_lt; exact Hlt).
  cbn [app]. subst R. destruct y as [b' s']. cbn [rest before] in *.
  apply replace_from_enough; cbn [rest]; lia.
Qed.

(** ** Literals in a text *)

Lemma dropPrefix_None cls p : forall b s,
  prefixOf cls p s = false -> dropPrefix cls p (Cursor b s) = None.
Proof.
  induction p as [|c p IH]; intros b s H; cbn [prefixOf dropPrefix rest] in *.
  - discriminate.
  - destruct s as [|y s]; [reflexivity|].
    destruct (cls c y); [apply IH; exact H | reflexivity].
Qed.

Lemma dropPrefix_spells cls p : forall o b r,
  spells cls p o = true ->
  dropPrefix cls p (Cursor b (o ++ r)) = Some (Cursor (endOf b o) r).
Proof.
  induction p as [|c p IH]; intros o b r H; destruct o as [|y o];
    cbn [spells] in H; try discriminate.
  - reflexivity.
  - apply andb_true_iff in H. destruct H as [Hc Hp].
    cbn [dropPrefix rest app]. rewrite Hc.
    change (endOf b (y :: o)) with (endOf (Some y) o). apply IH, Hp.
Qed.

Lemma spells_prefixOf cls p : forall o r,
  spells cls p o = true -> prefixOf cls p (o ++ r) = true.
Proof.
  induction p as [|c p IH]; intros o r H; destruct o as [|y o];
    cbn [spells] in H; try discriminate; [reflexivity|].
  apply andb_true_iff in H. destruct H as [Hc Hp].
  cbn [prefixOf app]. rewrite Hc. apply IH, Hp.
Qed.

(** A literal without less-than sign cannot run over one. *)
Lemma prefixOf_within cls p : forall u r,
  noLT cls p = true ->
  prefixOf cls p (u ++ LT :: r) = true -> prefixOf cls p u = true.
Proof.
  induction p as [|c p IH]; intros u r Hp H; [reflexivity|].
  cbn [noLT forallb] in Hp. apply andb_true_iff in Hp. destruct Hp as [Hc Hp].
  destruct u as [|y u]; cbn [prefixOf app] in *.
  - apply negb_true_iff in Hc. rewrite Hc in H. discriminate H.
  - apply andb_true_iff in H. destruct H as [Hy H]. rewrite Hy.
    apply (IH u r Hp H).
Qed.

(** A literal whose tail has no less-than sign starts before one only if it
    ends before it. *)
Lemma prefixOf_before_LT cls p y u r :
  noLT cls (tl p) = true ->
  prefixOf cls p ((y :: u) ++ LT :: r) = true ->
  prefixOf cls p (y :: u) = true.
Proof.
  destruct p as [|c p]; [reflexivity|]. cbn [tl prefixOf app].
  intros Hp H. apply andb_true_iff in H. destruct H as [Hy H]. rewrite Hy.
  apply (prefixOf_within cls p u r Hp H).
Qed.

Lemma endOf_cons b y o : endOf b (y :: o) = endOf (Some y) o.
Proof. reflexivity. Qed.

Lemma endOf_nonempty b1 b2 o : o <> [] -> endOf b1 o = endOf b2 o.
Proof. destruct o; [contradiction | reflexivity]. Qed.

Lemma endOf_app b u v : endOf b (u ++ v) = endOf (endOf b u) v.
Proof. apply fold_left_app. Qed.

(** The first occurrence of [p] in [u ++ LT :: r] is not in [u] when [p] does
    not occur in [u]. *)
Lemma afterFirst_app cls p : forall u b r,
  noLT cls (tl p) = true ->
  found cls p u = false ->
  afterFirst cls p b (u ++ LT :: r) = afterFirst cls p (endOf b u) (LT :: r).
Proof.
  induction u as [|y u IH]; intros b r Hp Hf; [reflexivity|].
  cbn [found] in Hf. apply orb_false_iff in Hf. destruct Hf as [Hy Hu].
  change ((y :: u) ++ LT :: r) with (y :: (u ++ LT :: r)).
  cbn [afterFirst]. rewrite dropPrefix_None.
  - rewrite endOf_cons. apply IH; assumption.
  - destruct (prefixOf cls p (y :: u ++ LT :: r)) eqn:E; [|reflexivity].
    apply (prefixOf_before_LT cls p y u r Hp) in E. congruence.
Qed.

(** ** One block in a text *)

Lemma spells_LT p o : spells isCI (LT :: p) o = true -> exists o', o = LT :: o'.
Proof.
  destruct o as [|y o]; cbn [spells]; [discriminate|].
  intro H. apply andb_true_iff in H. destruct H as [H _].
  rewrite isCI_LT in H. apply N.eqb_eq in H. subst y. eauto.
Qed.

(** A code unit that a word character stands for, under the [i] flag, is a
    word character. *)
Lemma isWordChar_iff c :
  isWordChar c = true <->
  (65 <= c <= 90 \/ 97 <= c <= 122 \/ 48 <= c <= 57 \/ c = 95)%N.
Proof.
  unfold isWordChar.
  rewrite !orb_true_iff, !andb_true_iff, !N.leb_le, N.eqb_eq. tauto.
Qed.

Lemma isCI_word c y :
  isWordChar c = true -> isCI c y = true -> isWordChar y = true.
Proof.
  rewrite !isWordChar_iff. unfold isCI, canonicalize. intros Hc H.
  apply N.eqb_eq in H. revert H.
  destruct ((97 <=? y) && (y <=? 122))%N eqn:Ey;
    destruct ((97 <=? c) && (c <=? 122))%N eqn:Ec;
    try (apply andb_true_iff in Ey; rewrite !N.leb_le in Ey);
    try (apply andb_true_iff in Ec; rewrite !N.leb_le in Ec);
    try (apply andb_false_iff in Ey; rewrite !N.leb_gt in Ey);
    try (apply andb_false_iff in Ec; rewrite !N.leb_gt in Ec);
    lia.
Qed.

Lemma spells_endOf_word p : forall o b,
  spells isCI p o = true -> p <> [] -> isWordChar (last p 0%N) = true ->
  exists y, endOf b o = Some y /\ isWordChar y = true.
Proof.
  induction p as [|c p IH]; intros o b Hs Hne Hw; [contradiction|].
  destruct o as [|y o]; cbn [spells] in Hs; [discriminate|].
  apply andb_true_iff in Hs. destruct Hs as [Hc Hs].
  destruct p as [|c2 p].
  - destruct o; [|discriminate Hs]. exists y. split; [reflexivity|].
    apply (isCI_word c y Hw Hc).
  - rewrite endOf_cons. apply (IH o (Some y) Hs); [discriminate | exact Hw].
Qed.

(** Scanning with a matcher [m] that only matches where the literal [p]
    stands, and does not look at what comes before. *)
Section Scan.

Variable cls : N -> N -> bool.
Variable p : jsstring.
Variable m : cursor -> option cursor.
Hypothesis m_needs : forall x, prefixOf cls p (rest x) = false -> m x = None.
Hypothesis m_before :
  forall b1 b2 s, m (Cursor b1 s) = m (Cursor b2 s).
Hypothesis p_tail : noLT cls (tl p) = true.

Lemma strip_before b1 b2 s : strip m b1 s = strip m b2 s.
Proof.
  unfold strip. cbn [replace_from]. rewrite (m_before b1 b2).
  destruct (m _) as [y|]; unfold shorter; cbn [rest]; destruct s; reflexivity.
Qed.

(** Text without [p] is kept up to the next less-than sign. *)
Lemma strip_text a : forall b r,
  found cls p a = false ->
  strip m b (a ++ LT :: r) = a ++ strip m (endOf b a) (LT :: r).
Proof.
  induction a as [|y a IH]; intros b r Hf; [reflexivity|].
  cbn [found] in Hf. apply orb_false_iff in Hf. destruct Hf as [Hy Ha].
  change ((y :: a) ++ LT :: r) with (y :: (a ++ LT :: r)).
  rewrite strip_keep.
  - rewrite endOf_cons, IH by exact Ha. reflexivity.
  - apply m_needs. cbn [rest].
    destruct (prefixOf cls p (y :: a ++ LT :: r)) eqn:E; [|reflexivity].
    apply (prefixOf_before_LT cls p y a r p_tail) in E. congruence.
Qed.

(** Text without [p] is kept to its end. *)
Lemma strip_all a : forall b, found cls p a = false -> strip m b a = a.
Proof.
  induction a as [|y a IH]; intros b Hf.
  - unfold strip. cbn [replace_from length].
    rewrite m_needs by (cbn [found] in Hf; apply orb_false_iff in Hf; apply Hf).
    reflexivity.
  - cbn [found] in Hf. apply orb_false_iff in Hf. destruct Hf as [Hy Ha].
    rewrite strip_keep by (apply m_needs; exact Hy).
    rewrite IH by exact Ha. reflexivity.
Qed.

(** A match at the less-than sign after such a text is cut out. *)
Lemma strip_match a blk r e :
  found cls p a = false ->
  (forall b, m (Cursor b ((LT :: blk) ++ r)) = Some (Cursor (e b) r)) ->
  strip m None (a ++ (LT :: blk) ++ r) = a ++ strip m None r.
Proof.
  intros Ha Hm.
  change ((LT :: blk) ++ r) with (LT :: (blk ++ r)).
  rewrite (strip_text a None _ Ha). f_equal.
  change (LT :: (blk ++ r)) with ((LT :: blk) ++ r).
  rewrite (strip_cut m _ _ (Cursor (e (endOf None a)) r)).
  - cbn [before rest]. apply strip_before.
  - apply Hm.
  - cbn [rest]. rewrite length_app. cbn [length]. lia.
Qed.

End Scan.

Lemma execBlock_needs T x :
  prefixOf isCI (openTag T) (rest x) = false -> execBlock T x = None.
Proof.
  intro H. unfold execBlock. destruct x as [b s]. cbn [rest] in H.
  rewrite dropPrefix_None by exact H. reflexivity.
Qed.

Lemma execBlock_before T b1 b2 s :
  execBlock T (Cursor b1 s) = execBlock T (Cursor b2 s).
Proof.
  unfold execBlock. change (openTag T) with (LT :: lit T).
  cbn [dropPrefix rest]. destruct s; reflexivity.
Qed.

Lemma execComment_needs x :
  prefixOf isChar (lit "<!--") (rest x) = false -> execComment x = None.
Proof.
  intro H. unfold execComment. destruct x as [b s]. cbn [rest] in H.
  rewrite dropPrefix_None by exact H. reflexivity.
Qed.


Section OneBlock.

Variable T : string.
Hypothesis T_word : isWordChar (last (openTag T) 0%N) = true.
Hypothesis T_open : noLT isCI (tl (openTag T)) = true.
Hypothesis T_close : noLT isCI (tl (closeTag T)) = true.

Lemma openTag_cons : openTag T = LT :: lit T.
Proof. reflexivity. Qed.

Lemma closeTag_cons : closeTag T = LT :: tl (closeTag T).
Proof. reflexivity. Qed.

(** An opening tag, an inside without closing tag, and a closing tag make
    one match. *)
Lemma execBlock_block b o inner c r :
  spells isCI (openTag T) o = true ->
  endsName inner = true ->
  found isCI (closeTag T) inner = false ->
  spells isCI (closeTag T) c = true ->
  execBlock T (Cursor b (o ++ inner ++ c ++ r))
  = Some (Cursor (endOf b (o ++ inner ++ c)) r).
Proof.
  intros Ho Hi Hf Hc. unfold execBlock.
  rewrite (dropPrefix_spells isCI (openTag T) o b _ Ho).
  destruct (spells_endOf_word (openTag T) o b Ho) as (y & Hy & Hw);
    [rewrite openTag_cons; discriminate | exact T_word |].
  assert (Hc' : exists c', c = LT :: c').
  { rewrite closeTag_cons in Hc. apply (spells_LT _ _ Hc). }
  destruct Hc' as (c' & ->).
  assert (Hb : xorb (wordBefore (Cursor (endOf b o) (inner ++ (LT :: c') ++ r)))
                    (wordAfter (Cursor (endOf b o) (inner ++ (LT :: c') ++ r)))
               = true).
  { unfold wordBefore, wordAfter. cbn [before rest]. rewrite Hy, Hw.
    destruct inner as [|i0 inner]; cbn [app endsName] in *.
    - reflexivity.
    - apply negb_true_iff in Hi. rewrite Hi. reflexivity. }
  rewrite Hb. cbn [before rest].
  change ((LT :: c') ++ r) with (LT :: (c' ++ r)).
  rewrite (afterFirst_app isCI (closeTag T) inner _ _ T_close Hf).
  cbn [afterFirst].
  change (LT :: (c' ++ r)) with ((LT :: c') ++ r).
  rewrite (dropPrefix_spells isCI (closeTag T) (LT :: c') _ r Hc).
  rewrite !endOf_app. reflexivity.
Qed.

(** The block is cut out, the text before it is kept, and the search goes on
    after the closing tag. *)
Lemma stripPairs_block a o inner c r :
  found isCI (openTag T) a = false ->
  spells isCI (openTag T) o = true ->
  endsName inner = true ->
  found isCI (closeTag T) inner = false ->
  spells isCI (closeTag T) c = true ->
  stripPairs T (a ++ o ++ inner ++ c ++ r) = a ++ stripPairs T r.
Proof.
  intros Ha Ho Hi Hf Hc. unfold stripPairs.
  assert (Ho' : exists o', o = LT :: o').
  { rewrite openTag_cons in Ho. apply (spells_LT _ _ Ho). }
  destruct Ho' as (o' & ->).
  replace ((LT :: o') ++ inner ++ c ++ r)
    with ((LT :: (o' ++ inner ++ c)) ++ r)
    by (cbn [app]; rewrite <- !app_assoc; reflexivity).
  apply (strip_match isCI (openTag T) (execBlock T)
           (execBlock_needs T) (execBlock_before T) T_open a _ r
           (fun b => endOf b ((LT :: o') ++ inner ++ c)) Ha).
  intro b.
  replace ((LT :: (o' ++ inner ++ c)) ++ r)
    with ((LT :: o') ++ inner ++ c ++ r)
    by (cbn [app]; rewrite <- !app_assoc; reflexivity).
  apply execBlock_block; assumption.
Qed.

Lemma stripPairs_none s : found isCI (openTag T) s = false -> stripPairs T s = s.
Proof.
  apply (strip_all isCI (openTag T) (execBlock T) (execBlock_needs T)).
Qed.

End OneBlock.

(** ** One comment in a text *)

Lemma prefixOf_app_long cls p : forall w r,
  length p <= length w -> prefixOf cls p (w ++ r) = prefixOf cls p w.
Proof.
  induction p as [|c p IH]; intros w r Hl; [reflexivity|].
  destruct w as [|y w]; [cbn in Hl; lia|].
  cbn [prefixOf app]. rewrite IH by (cbn in Hl; lia). reflexivity.
Qed.



Lemma stripComments_none s :
  found isChar (lit "<!--") s = false -> stripComments s = s.
Proof.
  apply (strip_all isChar (lit "<!--") execComment execComment_needs).
Qed.

(** ** Trimming *)

Lemma trimStart_clean s : startsClean (trimStart s) = true.
Proof.
  induction s as [|c s IH]; [reflexivity|]. cbn [trimStart].
  destruct (isWhiteSpace c) eqn:E; [exact IH|]. cbn. rewrite E. reflexivity.
Qed.

Lemma trimStart_id s : startsClean s = true -> trimStart s = s.
Proof.
  destruct s as [|c s]; [reflexivity|]. cbn.
  destruct (isWhiteSpace c); [discriminate|reflexivity].
Qed.

Lemma trimStart_suffix s : exists ws, s = ws ++ trimStart s.
Proof.
  induction s as [|c s (ws & IH)]; [exists []; reflexivity|]. cbn [trimStart].
  destruct (isWhiteSpace c).
  - exists (c :: ws). cbn. rewrite <- IH. reflexivity.
  - exists []. reflexivity.
Qed.

Lemma trimEnd_prefix s : exists ws, s = trimEnd s ++ ws.
Proof.
  unfold trimEnd. destruct (trimStart_suffix (rev s)) as (ws & H).
  exists (rev ws). rewrite <- rev_app_distr, <- H, rev_involutive. reflexivity.
Qed.

Lemma trimEnd_clean s : startsClean (rev (trimEnd s)) = true.
Proof. unfold trimEnd. rewrite rev_involutive. apply trimStart_clean. Qed.

Lemma trimEnd_id s : startsClean (rev s) = true -> trimEnd s = s.
Proof.
  intro H. unfold trimEnd. rewrite (trimStart_id _ H). apply rev_involutive.
Qed.

Lemma startsClean_prefix u v :
  startsClean (u ++ v) = true -> startsClean u = true.
Proof. destruct u; [reflexivity|exact (fun H => H)]. Qed.

Lemma trim_tidy s : tidy (trim s) = true.
Proof.
  unfold tidy, trim. rewrite trimEnd_clean, andb_true_r.
  destruct (trimEnd_prefix (trimStart s)) as (ws & H).
  apply (startsClean_prefix _ ws). rewrite <- H. apply trimStart_clean.
Qed.

Lemma tidy_trim s : tidy s = true -> trim s = s.
Proof.
  unfold tidy, trim. intro H. apply andb_true_iff in H as [H1 H2].
  rewrite (trimStart_id _ H1). apply trimEnd_id, H2.
Qed.





(** ** The pattern of a tag *)

Lemma afterFirst_GT b s :
  afterFirst isChar [GT] b s =
  match s with
  | [] => None
  | y :: s' => if isChar GT y then Some (Cursor (Some y) s')
               else afterFirst isChar [GT] (Some y) s'
  end.
Proof.
  destruct s as [|y s]; [reflexivity|]. cbn [afterFirst dropPrefix rest].
  destruct (isChar GT y); reflexivity.
Qed.

Lemma afterFirst_GT_None s : forall b,
  existsb (isChar GT) s = false -> afterFirst isChar [GT] b s = None.
Proof.
  induction s as [|y s IH]; intros b H; rewrite afterFirst_GT; [reflexivity|].
  cbn [existsb] in H. apply orb_false_iff in H as [H1 H2].
  rewrite H1. apply IH, H2.
Qed.

Lemma afterFirst_GT_Some s : forall b y,
  afterFirst isChar [GT] b s = Some y ->
  existsb (isChar GT) s = true /\ length (rest y) < length s.
Proof.
  induction s as [|c s IH]; intros b y H; rewrite afterFirst_GT in H;
    [discriminate|].
  cbn [existsb length]. destruct (isChar GT c).
  - injection H as <-. cbn. split; [reflexivity|lia].
  - destruct (IH _ _ H) as [H1 H2]. split; [exact H1|lia].
Qed.

Lemma execTag_cons b c s :
  execTag (Cursor b (c :: s))
  = if N.eqb c LT then afterFirst isChar [GT] (Some c) s else None.
Proof. reflexivity. Qed.

Lemma afterFirst_GT_found s : forall b,
  afterFirst isChar [GT] b s = None -> existsb (isChar GT) s = false.
Proof.
  induction s as [|c s IH]; intros b H; [reflexivity|].
  rewrite afterFirst_GT in H. cbn [existsb].
  destruct (isChar GT c); [discriminate H|]. apply (IH _ H).
Qed.

Lemma afterFirst_GT_dropTags s : forall b y,
  afterFirst isChar [GT] b s = Some y ->
  dropTags true s = dropTags false (rest y).
Proof.
  induction s as [|c s IH]; intros b y H; rewrite afterFirst_GT in H;
    [discriminate H|].
  cbn [dropTags]. unfold isChar in H. destruct (N.eqb c GT).
  - injection H as <-. reflexivity.
  - apply (IH _ _ H).
Qed.

Lemma stripTags_dropTags n : forall s b,
  length s <= n -> strip execTag b s = dropTags false s.
Proof.
  induction n as [|n IH]; intros s b Hn.
  - destruct s; [reflexivity|cbn in Hn; lia].
  - destruct s as [|c s]; [reflexivity|]. cbn [length] in Hn.
    pose proof (execTag_cons b c s) as E. cbn [dropTags].
    destruct (N.eqb c LT) eqn:Ec; cbn [andb].
    + destruct (afterFirst isChar [GT] (Some c) s) as [y|] eqn:Ea.
      * destruct (afterFirst_GT_Some _ _ _ Ea) as [Hex Hlen].
        rewrite Hex, (strip_cut _ _ _ y E) by (cbn [length]; lia).
        rewrite (IH (rest y)) by lia.
        symmetry. apply (afterFirst_GT_dropTags _ _ _ Ea).
      * rewrite (afterFirst_GT_found _ _ Ea), (strip_keep _ _ _ _ E).
        rewrite (IH s) by lia. reflexivity.
    + rewrite (strip_keep _ _ _ _ E), (IH s) by lia. reflexivity.
Qed.

Lemma replaceAll_tagRe_dropTags s : replaceAll tagRe [] s = dropTags false s.
Proof.
  rewrite replaceAll_tagRe. apply (stripTags_dropTags (length s)), le_n.
Qed.

(** ** The city and the summary *)

(** ** Substrings *)

Lemma startsWith_spec p : forall s,
  startsWith p s = true <-> exists post, s = p ++ post.
Proof.
  induction p as [|x p IH]; intro s; cbn [startsWith].
  - split; [intros _; exists s; reflexivity | reflexivity].
  - destruct s as [|y s].
    + split; [discriminate | intros (post & H); discriminate H].
    + rewrite andb_true_iff, N.eqb_eq, IH. split.
      * intros (-> & post & ->). exists post. reflexivity.
      * intros (post & H). injection H as -> ->. eauto.
Qed.

Lemma includes_spec p : forall s, includes s p = true <-> occurs p s.
Proof.
  induction s as [|y s IH].
  - cbn [includes]. rewrite orb_false_r, startsWith_spec. split.
    + intros (post & H). exists [], post. exact H.
    + intros (pre & post & H). destruct pre; [eauto|discriminate H].
  - cbn [includes]. rewrite orb_true_iff, startsWith_spec, IH. split.
    + intros [(post & H)|(pre & post & H)].
      * exists [], post. exact H.
      * exists (y :: pre), post. rewrite H. reflexivity.
    + intros (pre & post & H). destruct pre as [|z pre].
      * left. exists post. exact H.
      * right. injection H as -> ->. exists pre, post. reflexivity.
Qed.

Lemma includes_false p s : includes s p = false <-> ~ occurs p s.
Proof.
  rewrite <- includes_spec. destruct (includes s p); split; congruence.
Qed.

(** [find] returns the first element, in list order, that passes the test. *)
Lemma find_first {A} (f : A -> bool) (l : list A) (x : A) :
  find f l = Some x <->
  exists i, nth_error l i = Some x /\ f x = true /\
            forall j y, j < i -> nth_error l j = Some y -> f y = false.
Proof.
  induction l as [|a l IH]; cbn [find].
  - split; [discriminate|]. intros (i & H & _). destruct i; discriminate H.
  - destruct (f a) eqn:Ea.
    + split.
      * intros [= ->]. exists 0. repeat split; auto. intros j y Hj. lia.
      * intros (i & Hi & Hx & Hmin). destruct i as [|i]; [cbn in Hi; congruence|].
        specialize (Hmin 0 a ltac:(lia) eq_refl). congruence.
    + rewrite IH. split.
      * intros (i & Hi & Hx & Hmin). exists (S i). repeat split; auto.
        intros [|j] y Hj Hy; [cbn in Hy; congruence|].
        apply (Hmin j y); [lia|exact Hy].
      * intros (i & Hi & Hx & Hmin). destruct i as [|i]; [cbn in Hi; congruence|].
        exists i. repeat split; auto. intros j y Hj Hy.
        apply (Hmin (S j) y); [lia|exact Hy].
Qed.

Lemma find_none_iff {A} (f : A -> bool) (l : list A) :
  find f l = None <-> forall x, In x l -> f x = false.
Proof.
  induction l as [|a l IH]; cbn [find].
  - split; [intros _ x []|reflexivity].
  - destruct (f a) eqn:Ea.
    + split; [discriminate|]. intro H. specialize (H a (or_introl eq_refl)). congruence.
    + rewrite IH. split.
      * intros H x [<-|Hin]; auto.
      * intros H x Hin. apply H. right. exact Hin.
Qed.

Lemma extractCity_find content :
  extractCity content = find (fun city => includes (cityText content) city) cities.
Proof.
  destruct content as [[|c s]|]; try reflexivity.
Qed.

(** C7: [extractCity] searches the content without its tags (every stretch
    from a less-than sign to the first greater-than sign after it is cut
    out), and answers the first entry of the gazetteer, in the order of its
    declaration (Paris, Lyon, Marseille, ...: twenty names), that occurs in
    that text as it is written, whatever stands around it and wherever it
    stands; it answers [null] exactly when no entry occurs. *)
Theorem C7_first_gazetteer_entry_wins content :
  let text := cityText content in
  text = match content with Some s => dropTags false s | None => [] end /\
  text = match content with Some s => stripTags s | None => [] end /\
  cities
  = [ lit "Paris"; lit "Lyon"; lit "Marseille"; lit "Toulouse"; lit "Nice";
      lit "Nantes"; lit "Strasbourg"; lit "Montpellier"; lit "Bordeaux";
      lit "Lille"; lit "Rennes"; lit "Reims"; lit "Le Havre";
      lit "Saint-" ++ [201%N] ++ lit "tienne"; lit "Toulon"; lit "Angers";
      lit "Grenoble"; lit "Dijon"; lit "N" ++ [238%N] ++ lit "mes";
      lit "Aix-en-Provence" ] /\
  (forall city,
     extractCity content = Some city <->
     exists i, nth_error cities i = Some city /\ occurs city text /\
               forall j other, j < i -> nth_error cities j = Some other ->
                               ~ occurs other text) /\
  (extractCity content = None <->
   forall city, In city cities -> ~ occurs city text).
Proof.
  cbv zeta. split; [|split; [|split; [reflexivity|]]].
  - destruct content as [s|]; [apply replaceAll_tagRe_dropTags|reflexivity].
  - destruct content as [s|]; [apply replaceAll_tagRe|reflexivity].
  - rewrite extractCity_find. split.
    + intro city. rewrite find_first. split.
      * intros (i & Hi & Hc & Hbefore). exists i.
        split; [exact Hi|]. split; [apply includes_spec, Hc|].
        intros j other Hj Hn. apply includes_false. apply (Hbefore j other Hj Hn).
      * intros (i & Hi & Hc & Hbefore). exists i.
        split; [exact Hi|]. split; [apply includes_spec, Hc|].
        intros j other Hj Hn. apply includes_false. apply (Hbefore j other Hj Hn).
    + rewrite find_none_iff. split; intros H city Hin.
      * apply includes_false, H, Hin.
      * apply includes_false, H, Hin.
Qed.

Lemma C7_first_gazetteer_entry_wins_witness :
  extractCity (Some (lit "A Nice day in <b>Par</b>is and Lyon"))
  = Some (lit "Paris") /\
  extractCity (Some (lit "<i title='Paris'>lyon</i>")) = None.
Proof.
  split.
  - destruct (C7_first_gazetteer_entry_wins
                (Some (lit "A Nice day in <b>Par</b>is and Lyon")))
      as (_ & _ & _ & H & _).
    apply H. exists 0. split; [reflexivity|]. split.
    + exists (lit "A Nice day in "), (lit " and Lyon"). reflexivity.
    + intros j other Hj. lia.
  - destruct (C7_first_gazetteer_entry_wins
                (Some (lit "<i title='Paris'>lyon</i>")))
      as (_ & _ & _ & _ & H).
    apply H. intros city Hin Hocc. apply includes_spec in Hocc.
    repeat (destruct Hin as [<-|Hin]; [discriminate Hocc|]).
    exact Hin.
Defined.

(** "Nice" comes first in the text, "Paris" first in the gazetteer. *)
Example extractCity_order :
  extractCity (Some (lit "A Nice day in <b>Par</b>is and Lyon"))
  = Some (lit "Paris").
Proof. reflexivity. Qed.

(** ** The summary *)

(** C5 as stated fails: in [twoParagraphs] the last whitespace of the first
    200 code units is a line feed at index 160, and the code cuts at 200. *)
Lemma C5_summary_backs_up_to_whitespace_counterexample :
  ~ (forall content,
       extractSummary content = extractSummary_whitespace content).
Proof.
  intro H. specialize (H (Some twoParagraphs)).
  apply (f_equal (@length N)) in H. vm_compute in H. discriminate H.
Qed.

Lemma lastIndexOf_from_spec c s : forall i,
  (0 <= i)%Z ->
  let r := lastIndexOf_from c i s in
  (r = (-1)%Z /\ forall j, nth_error s j <> Some c) \/
  (exists k, r = (i + Z.of_nat k)%Z /\ nth_error s k = Some c /\
             forall j, k < j -> nth_error s j <> Some c).
Proof.
  induction s as [|x s IH]; intros i Hi; cbn [lastIndexOf_from].
  - left. split; [reflexivity|]. intros [|j]; discriminate.
  - cbv zeta. destruct (IH (i + 1)%Z ltac:(lia)) as [(Hr & Hno)|(k & Hr & Hk & Hno)].
    + rewrite Hr. cbn [Z.leb Z.compare]. destruct (N.eqb x c) eqn:E.
      * apply N.eqb_eq in E. subst x. right. exists 0.
        split; [lia|]. split; [reflexivity|].
        intros [|j] Hj; [lia|]. apply Hno.
      * left. split; [reflexivity|]. intros [|j]; [|apply Hno].
        cbn. intros [= ->]. rewrite N.eqb_refl in E. discriminate.
    + rewrite Hr. destruct (0 <=? i + 1 + Z.of_nat k)%Z eqn:E; [|lia].
      right. exists (S k). split; [lia|]. split; [exact Hk|].
      intros [|j] Hj; [lia|]. apply Hno. lia.
Qed.

Lemma length_ellipsis : length ellipsis = 3.
Proof. reflexivity. Qed.

(** C5, as amended: a missing or empty content gives the placeholder;
    otherwise, with [t] the content with its markup tags cut out, trimmed:
    when [t] has at most 200 code units the summary is [t]; when it has more,
    the summary has at most 203 code units and ends with "...", and what
    comes before is the first 200 code units of [t], cut at the last SPACE
    (U+0020) among them when that space stands beyond index 150, and whole
    otherwise. Other whitespace (a line feed, a tab) does not count. *)
Theorem C5_summary_postcondition content :
  (falsy content = true -> extractSummary content = resumeAVenir) /\
  (forall s, content = Some s -> s <> [] ->
     let t := trim (replaceAll tagRe [] s) in
     t = trim (stripTags s) /\
     (length t <= 200 -> extractSummary content = t) /\
     (200 < length t ->
        length (extractSummary content) <= 203 /\
        exists body,
          extractSummary content = body ++ ellipsis /\
          ((exists i, 150 < i < 200 /\ nth_error t i = Some SPACE /\
                      (forall j, i < j < 200 -> nth_error t j <> Some SPACE) /\
                      body = firstn i t)
           \/ ((forall j, 150 < j < 200 -> nth_error t j <> Some SPACE) /\
               body = firstn 200 t)))).
Proof.
  split.
  - destruct content as [[|c s]|]; [reflexivity | discriminate | reflexivity].
  - intros s -> Hs t. destruct s as [|c s]; [contradiction|].
    cbn [extractSummary]. fold t. split; [|split].
    + unfold t. rewrite replaceAll_tagRe. reflexivity.
    + intro Hle. apply Nat.leb_le in Hle. rewrite Hle. reflexivity.
    + intro Hgt. destruct (length t <=? 200) eqn:E; [apply Nat.leb_le in E; lia|].
      cbv zeta. unfold substring0, lastIndexOf.
      assert (Hlen : length (firstn 200 t) = 200) by (rewrite length_firstn; lia).
      assert (Hnth : forall j, j < 200 -> nth_error (firstn 200 t) j = nth_error t j).
      { intros j Hj. rewrite nth_error_firstn.
        apply Nat.ltb_lt in Hj. rewrite Hj. reflexivity. }
      destruct (lastIndexOf_from_spec SPACE (firstn 200 t) 0 ltac:(lia))
        as [(Hr & Hno)|(k & Hr & Hk & Hno)]; cbv zeta in *; rewrite Hr.
      * cbn [Z.ltb Z.compare]. split.
        -- rewrite length_app, Hlen, length_ellipsis. lia.
        -- exists (firstn 200 t). split; [reflexivity|]. right.
           split; [|reflexivity]. intros j Hj. rewrite <- Hnth by lia. apply Hno.
      * assert (Hk200 : k < 200).
        { rewrite <- Hlen. apply nth_error_Some. congruence. }
        destruct (150 <? 0 + Z.of_nat k)%Z eqn:E2.
        -- apply Z.ltb_lt in E2.
           replace (Z.to_nat (0 + Z.of_nat k)) with k by lia.
           rewrite firstn_firstn. replace (Nat.min k 200) with k by lia.
           split.
           ++ rewrite length_app, length_firstn, length_ellipsis. lia.
           ++ exists (firstn k t). split; [reflexivity|]. left. exists k.
              split; [lia|]. split; [rewrite <- Hnth by lia; exact Hk|].
              split; [|reflexivity].
              intros j Hj. rewrite <- Hnth by lia. apply Hno. lia.
        -- apply Z.ltb_ge in E2. split.
           ++ rewrite length_app, Hlen, length_ellipsis. lia.
           ++ exists (firstn 200 t). split; [reflexivity|]. right.
              split; [|reflexivity]. intros j Hj. rewrite <- Hnth by lia.
              destruct (Nat.eq_dec j k) as [->|Hne]; [lia|].
              apply Hno. lia.
Qed.

Lemma C5_summary_postcondition_witness :
  length (extractSummary (Some twoParagraphs)) <= 203 /\
  extractSummary (Some (lit "<p>Hello <b>world</b></p> ")) = lit "Hello world".
Proof.
  split.
  - destruct (C5_summary_postcondition (Some twoParagraphs)) as (_ & H).
    destruct (H twoParagraphs eq_refl) as (_ & _ & H2); [discriminate|].
    apply H2. apply Nat.ltb_lt. vm_compute. reflexivity.
  - destruct (C5_summary_postcondition
                (Some (lit "<p>Hello <b>world</b></p> "))) as (_ & H).
    destruct (H _ eq_refl) as (_ & H1 & _); [discriminate|].
    rewrite H1; [reflexivity|]. apply Nat.leb_le. vm_compute. reflexivity.
Defined.

(** ** The cleaned content *)

Lemma prefixOf_app cls p : forall u v,
  prefixOf cls p u = true -> prefixOf cls p (u ++ v) = true.
Proof.
  induction p as [|c p IH]; intros u v H; [reflexivity|].
  destruct u as [|y u]; cbn [prefixOf app] in *; [discriminate|].
  apply andb_true_iff in H. destruct H as [Hy H]. rewrite Hy. apply IH, H.
Qed.

Lemma found_app_false cls p : forall u v,
  found cls p (u ++ v) = false ->
  found cls p u = false /\ found cls p v = false.
Proof.
  induction u as [|y u IH]; intros v H.
  - split; [|exact H]. cbn [app] in H.
    destruct p as [|c p]; [destruct v; discriminate H | reflexivity].
  - change ((y :: u) ++ v) with (y :: (u ++ v)) in H. cbn [found] in H.
    apply orb_false_iff in H. destruct H as [Hy H].
    destruct (IH v H) as [Hu Hv]. split; [|exact Hv].
    cbn [found]. rewrite Hu, orb_false_r.
    destruct (prefixOf cls p (y :: u)) eqn:E; [|reflexivity].
    apply (prefixOf_app cls p (y :: u) v) in E. cbn [app] in E. congruence.
Qed.

Lemma cleanContent_strips s :
  s <> [] ->
  cleanContent (Some s)
  = trim (stripComments (stripPairs "style" (stripPairs "script" s))).
Proof.
  destruct s as [|c s]; [contradiction|]. intros _.
  unfold cleanContent, scriptRe, styleRe.
  rewrite !replaceAll_blockRe, replaceAll_commentRe. reflexivity.
Qed.

Lemma plain_parts t :
  plain t = true ->
  found isCI (openTag "script") t = false /\
  found isCI (openTag "style") t = false /\
  found isChar (lit "<!--") t = false.
Proof.
  unfold plain. rewrite !andb_true_iff, !negb_true_iff. tauto.
Qed.

(** A script block between two stretches of plain text. *)
Lemma cleanContent_script a body r :
  plain (a ++ r) = true ->
  found isCI (closeTag "script") body = false ->
  cleanContent (Some (a ++ lit "<script>" ++ body ++ lit "</script>" ++ r))
  = trim (a ++ r).
Proof.
  intros Hp Hb. apply plain_parts in Hp. destruct Hp as (Hs & Hst & Hc).
  destruct (found_app_false isCI (openTag "script") a r Hs) as [Ha Hr].
  rewrite cleanContent_strips
    by (destruct a; cbn [app lit map list_ascii_of_string]; discriminate).
  change (lit "<script>" ++ body ++ lit "</script>" ++ r)
    with (openTag "script" ++ (GT :: body) ++ closeTag "script" ++ r).
  rewrite (stripPairs_block "script" eq_refl eq_refl eq_refl a
             (openTag "script") (GT :: body) (closeTag "script") r Ha eq_refl
             eq_refl Hb eq_refl).
  rewrite (stripPairs_none "script" r Hr).
  rewrite (stripPairs_none "style" (a ++ r) Hst).
  rewrite (stripComments_none (a ++ r) Hc). reflexivity.
Qed.



(** ** The documents of a run *)

Lemma jseqb_eq a : forall b, jseqb a b = true <-> a = b.
Proof.
  induction a as [|x a IH]; intros [|y b]; cbn; split; try congruence; auto.
  - intro H. apply andb_true_iff in H as [H1 H2].
    apply N.eqb_eq in H1. apply IH in H2. congruence.
  - intro H. injection H as -> ->. rewrite N.eqb_refl. apply IH. reflexivity.
Qed.

Lemma hasUrl_false_iff u db : hasUrl u db = false <-> ~ In u (map nd_url db).
Proof.
  unfold hasUrl. induction db as [|d db IH]; cbn.
  - tauto.
  - rewrite orb_false_iff, IH. split.
    + intros [H1 H2] [H|H]; [|tauto].
      rewrite H, jseqb_refl in H1. discriminate.
    + intro H. split; [|tauto].
      destruct (jseqb (nd_url d) u) eqn:E; [|reflexivity].
      apply jseqb_eq in E. tauto.
Qed.

Lemma appended_refl P st : appended P st st.
Proof.
  exists []. rewrite app_nil_r. repeat split; constructor.
Qed.

Lemma appended_trans P a b c : appended P a b -> appended P b c -> appended P a c.
Proof.
  intros (d1 & H1 & P1 & N1 & F1) (d2 & H2 & P2 & N2 & F2).
  exists (d1 ++ d2). rewrite H2, H1, app_assoc. split; [reflexivity|].
  rewrite H1 in F2.
  assert (F2' : Forall (fun d => hasUrl (nd_url d) (news a) = false /\
                                 ~ In (nd_url d) (map nd_url d1)) d2).
  { revert F2. apply Forall_impl. intros d H.
    rewrite hasUrl_app in H. apply orb_false_iff in H as [Ha Hb].
    split; [exact Ha|]. apply hasUrl_false_iff, Hb. }
  split; [apply Forall_app; auto|]. split.
  - rewrite map_app. clear - N1 N2 F2'. induction d1 as [|x d1 IH]; cbn.
    + exact N2.
    + inversion N1 as [|? ? Hx N1']; subst. constructor.
      * rewrite in_app_iff. intros [H|H]; [tauto|].
        apply in_map_iff in H as (d & Hd & Hin).
        rewrite Forall_forall in F2'. destruct (F2' d Hin) as [_ Hn].
        apply Hn. cbn. left. symmetry. exact Hd.
      * apply IH; [exact N1'|]. revert F2'. apply Forall_impl.
        intros d [Ha Hn]. split; [exact Ha|]. cbn in Hn. tauto.
  - apply Forall_app. split; [exact F1|].
    revert F2'. apply Forall_impl. tauto.
Qed.

Lemma appended_weaken (P Q : NewsData -> Prop) st st' :
  (forall d, P d -> Q d) -> appended P st st' -> appended Q st st'.
Proof.
  intros HPQ (docs & H & HP & HN & HF). exists docs. repeat split; auto.
  revert HP. apply Forall_impl. exact HPQ.
Qed.

Lemma appended_news P st st1 st2 :
  news st2 = news st1 -> appended P st st1 -> appended P st st2.
Proof.
  intros E (docs & H & HP). exists docs. rewrite E. auto.
Qed.

Lemma appended_from P st0 st st' :
  news st0 = news st -> appended P st st' -> appended P st0 st'.
Proof.
  intros E (docs & H & HP). exists docs. rewrite E. auto.
Qed.

Lemma processArticle_appended article source st :
  appended (fromItem source article) st (snd (processArticle article source st)).
Proof.
  rewrite processArticle_unfold. cbv zeta.
  assert (Hsame : forall st', news st' = news st -> appended (fromItem source article) st st').
  { intros st' E. apply (appended_news _ st st st' E), appended_refl. }
  destruct (fault st).
  { apply Hsame. cbn [snd]. rewrite log_news. reflexivity. }
  destruct (hasUrl (link article) (news st)) eqn:Hurl.
  { apply Hsame. reflexivity. }
  destruct (title article) as [t|] eqn:Ht.
  2:{ apply Hsame. cbn [snd]. rewrite log_news. reflexivity. }
  destruct (fault (afterGet article st)).
  { apply Hsame. cbn [snd]. rewrite log_news. reflexivity. }
  exists [buildNewsData article source (trim t)]. cbn [snd].
  rewrite log_news. cbn [news set_news set_faults set_calls afterGet].
  split; [reflexivity|]. split; [|split].
  - constructor; [|constructor]. exists t. auto.
  - constructor; [intros []|constructor].
  - constructor; [|constructor]. rewrite buildNewsData_url. exact Hurl.
Qed.

Lemma turn_news source article a p st :
  news (snd (turn source article a p st))
  = news (snd (processArticle article source st)).
Proof.
  unfold turn, tryCatch, bind, ret, exec_.
  destruct (processArticle article source st) as [[b|msg] st1]; cbn [snd].
  - reflexivity.
  - apply log_news.
Qed.

Lemma forArticles_appended source items : forall a p st,
  appended (fun d => exists article, In article items /\ fromItem source article d)
    st (snd (forArticles source items a p st)).
Proof.
  induction items as [|article more IH]; intros a p st.
  - apply appended_refl.
  - rewrite forArticles_cons.
    pose proof (turn_news source article a p st) as Hn.
    pose proof (processArticle_appended article source st) as Hp.
    destruct (turn source article a p st) as [[c|msg] st1]; cbn [snd] in Hn.
    + apply (appended_trans _ st st1).
      * apply (appended_news _ _ _ _ Hn) in Hp.
        revert Hp. apply appended_weaken. intros d H. exists article.
        split; [left; reflexivity|exact H].
      * generalize (IH (added c) (processed c) st1). apply appended_weaken.
        intros d (x & Hin & Hx). exists x. split; [right; exact Hin|exact Hx].
    + cbn [snd].
      apply (appended_news _ _ _ _ Hn) in Hp.
      revert Hp. apply appended_weaken. intros d H. exists article.
      split; [left; reflexivity|exact H].
Qed.

Lemma afterFetch_news source st : news (afterFetch source st) = news st.
Proof. apply afterFetch_state. Qed.

Lemma syncSource_appended fetch source st :
  appended (fromFeed fetch [source]) st (snd (syncSource fetch source st)).
Proof.
  rewrite syncSource_unfold.
  destruct (feedItems fetch source) as [items|msg] eqn:Hfeed.
  - cbv zeta.
    pose proof (forArticles_appended source items 0 0
                  (log (msgTrouves source (length items)) info
                     (afterFetch source st))) as H.
    destruct (forArticles _ _ _ _ _) as [[c|msg] st1]; cbn [fst snd] in *.
    + apply (appended_news _ st st1); [apply log_news|].
      apply (appended_from _ _ _ _ (eq_sym (eq_trans (log_news _ _ _) (afterFetch_news _ _)))) in H.
      revert H. apply appended_weaken. intros d (x & Hin & Hx).
      exists source, items, x. cbn. auto.
    + apply (appended_news _ st st1); [apply log_news|].
      apply (appended_from _ _ _ _ (eq_sym (eq_trans (log_news _ _ _) (afterFetch_news _ _)))) in H.
      revert H. apply appended_weaken. intros d (x & Hin & Hx).
      exists source, items, x. cbn. auto.
  - cbn [snd]. apply (appended_news _ st st); [|apply appended_refl].
    rewrite log_news. apply afterFetch_news.
Qed.

Lemma fromFeed_incl fetch l l' d :
  incl l l' -> fromFeed fetch l d -> fromFeed fetch l' d.
Proof.
  intros Hi (s & items & x & Hin & H). exists s, items, x.
  split; [apply Hi, Hin|exact H].
Qed.

Lemma forSources_appended fetch l : forall a p st,
  appended (fromFeed fetch l) st (snd (forSources fetch l a p st)).
Proof.
  induction l as [|source more IH]; intros a p st.
  - apply appended_refl.
  - rewrite forSources_cons.
    pose proof (syncSource_appended fetch source
                  (log (msgTraitement source) info st)) as H.
    apply (appended_from _ st) in H; [|symmetry; apply log_news].
    apply (appended_weaken _ (fromFeed fetch (source :: more))) in H.
    2:{ intro d. apply fromFeed_incl. intros x [<-|[]]. left. reflexivity. }
    destruct (syncSource _ _ _) as [[c|msg] st1]; cbn [snd] in H; [|exact H].
    apply (appended_trans _ st st1); [exact H|].
    generalize (IH (a + added c) (p + processed c) st1). apply appended_weaken.
    intro d. apply fromFeed_incl. intros x Hx. right. exact Hx.
Qed.

Lemma syncAll_appended fetch loadNews st :
  appended (fromFeed fetch (sources st)) st (snd (syncAll fetch loadNews st)).
Proof.
  destruct (isRunning st) eqn:Hrun.
  - unfold syncAll. rewrite Hrun. cbn [snd bind exec_ ret].
    apply (appended_news _ st st); [apply log_news|apply appended_refl].
  - rewrite (syncAll_idle fetch loadNews st Hrun).
    pose proof (forSources_appended fetch (sources st) 0 0
                  (log msgDebut info (set_isRunning true st))) as H.
    apply (appended_from _ st) in H; [|rewrite log_news; reflexivity].
    destruct (forSources _ _ _ _ _) as [[t|msg] st1]; cbn [snd] in H.
    + rewrite do_loadNews_unfold.
      destruct loadNews as [[[]|msg]|]; cbn [snd];
        refine (appended_news _ st st1 _ _ H);
        cbn [news set_isRunning set_calls]; rewrite ?log_news; reflexivity.
    + cbn [snd]. refine (appended_news _ st st1 _ _ H).
      cbn [news set_isRunning]. apply log_news.
Qed.

(** X2: whatever a run does (it returns, it is rejected, a feed or the
    reload fails, requests are rejected), the collection after it is the
    collection before it with documents added at its end: no document is
    removed, changed or moved.  Every added document is the one
    [processArticle] builds, with the trimmed title, for an item that has a
    title and stands in the feed of one of the sources; the same holds of
    [syncSource] for its source, and [processArticle] adds at most one
    document. *)
Theorem X2_a_run_only_appends_feed_documents fetch loadNews st :
  (exists docs,
     news (snd (syncAll fetch loadNews st)) = news st ++ docs /\
     Forall (fromFeed fetch (sources st)) docs) /\
  (forall source,
     exists docs,
       news (snd (syncSource fetch source st)) = news st ++ docs /\
       Forall (fromFeed fetch [source]) docs) /\
  (forall source article,
     exists docs,
       news (snd (processArticle article source st)) = news st ++ docs /\
       Forall (fromItem source article) docs /\ length docs <= 1).
Proof.
  split; [|split].
  - destruct (syncAll_appended fetch loadNews st) as (docs & H & HP & _).
    exists docs. auto.
  - intro source.
    destruct (syncSource_appended fetch source st) as (docs & H & HP & _).
    exists docs. auto.
  - intros source article.
    destruct (processArticle_appended article source st)
      as (docs & H & HP & HN & HF).
    exists docs. split; [exact H|]. split; [exact HP|].
    destruct docs as [|d [|d' docs]]; cbn; try lia.
    exfalso. inversion HN as [|? ? Hx _]; subst. apply Hx.
    inversion HP as [|? ? (t & Ht & ->) HP']; subst.
    inversion HP' as [|? ? (t' & Ht' & ->) _]; subst.
    rewrite !buildNewsData_url. left. reflexivity.
Qed.




(** ** A run whose feeds all answer *)

Lemma isItemError_success msg : isItemError (consoleLine msg success) = false.
Proof. reflexivity. Qed.

Lemma feedSize_cons_ok fetch source more items :
  feedItems fetch source = Return items ->
  feedSize fetch (source :: more) = length items + feedSize fetch more.
Proof.
  intro H. unfold feedSize. cbn [map list_sum]. rewrite H. reflexivity.
Qed.

Lemma forSources_counts fetch l : forall a p st,
  (forall s, In s l -> exists items, feedItems fetch s = Return items) ->
  exists t st',
    forSources fetch l a p st = (Return t, st') /\
    fetched (calls st') = fetched (calls st) ++ addresses rssApiUrl l /\
    lookedUp (calls st') = lookedUp (calls st) ++ feedLinks fetch l /\
    totalProcessed t + itemErrors (calls st')
    = p + feedSize fetch l + itemErrors (calls st) /\
    length (news st') + a = length (news st) + totalAdded t /\
    totalAdded t + p <= a + totalProcessed t.
Proof.
  induction l as [|source more IH]; intros a p st Hok.
  - exists {| totalAdded := a; totalProcessed := p |}, st.
    cbn. rewrite !app_nil_r. repeat split; lia.
  - rewrite forSources_cons.
    destruct (Hok source (or_introl eq_refl)) as (items & Hfeed).
    destruct (syncSource_counts fetch source items
                (log (msgTraitement source) info st) Hfeed)
      as (c & st1 & Hs & Hl1 & Hp1 & Hn1 & Ha1).
    destruct (syncSource_ok_fetched fetch source items
                (log (msgTraitement source) info st) Hfeed)
      as (c' & st1' & Hs' & Hf1).
    rewrite Hs in Hs'. injection Hs' as <- <-. rewrite Hs.
    destruct (IH (a + added c) (p + processed c) st1
                 (fun s Hin => Hok s (or_intror Hin)))
      as (t & st' & Hrun & Hf & Hl & Hp & Hn & Ha).
    exists t, st'. split; [exact Hrun|].
    rewrite log_calls in Hf1, Hl1, Hp1. rewrite log_news in Hn1.
    rewrite fetched_app in Hf1. rewrite lookedUp_app in Hl1.
    rewrite itemErrors_log, isItemError_info in Hp1.
    cbn [fetched lookedUp flat_map app] in Hf1, Hl1.
    rewrite app_nil_r in Hf1, Hl1.
    rewrite (feedSize_cons_ok _ _ _ _ Hfeed).
    unfold feedLinks in *. cbn [flat_map map]. rewrite Hfeed.
    rewrite (addresses_cons rssApiUrl source more).
    rewrite Hf, Hf1, Hl, Hl1, <- !app_assoc.
    repeat split; lia.
Qed.

Lemma forallb_feedOk fetch l :
  forallb (feedOk fetch) l = true <->
  (forall s, In s l -> exists items, feedItems fetch s = Return items).
Proof.
  rewrite forallb_forall. unfold feedOk. split; intros H s Hin.
  - specialize (H s Hin). destruct (feedItems fetch s); [eauto|discriminate].
  - destruct (H s Hin) as (items & ->). reflexivity.
Qed.

Lemma itemErrors_reload l : itemErrors (l ++ [LoadNews]) = itemErrors l.
Proof.
  unfold itemErrors. rewrite printed_app. cbn. rewrite app_nil_r. reflexivity.
Qed.

Lemma addresses_built fetch l :
  (forall s, In s l -> exists items, feedItems fetch s = Return items) ->
  map rssApiUrl l = map Return (addresses rssApiUrl l).
Proof.
  induction l as [|s l IH]; intro Hok; [reflexivity|].
  rewrite addresses_cons, map_app. cbn [map].
  destruct (Hok s (or_introl eq_refl)) as (items & Hitems).
  destruct (feedItems_address fetch s items Hitems) as (url & Hurl).
  rewrite (addresses_one _ _ _ Hurl), Hurl, IH; [reflexivity|].
  intros s' Hin. apply Hok. right. exact Hin.
Qed.

(** X1: a run that starts idle, whose feeds all answer and whose reload does
    not throw, returns its totals.  The address of every source was built,
    and it fetched them all, in the order of [this.sources], and looked up
    every item of every feed, in feed order; [totalProcessed] is the number of feed items less the items
    that failed (one error line each), the collection has grown by
    [totalAdded] documents, [totalAdded] is at most [totalProcessed], and
    [isRunning] is false again. *)
Theorem X1_syncAll_success_accounting fetch loadNews st :
  isRunning st = false ->
  (forall s, In s (sources st) ->
     exists items, feedItems fetch s = Return items) ->
  (forall msg, loadNews <> Some (Throw msg)) ->
  exists t st',
    syncAll fetch loadNews st = (Return (Some t), st') /\
    map rssApiUrl (sources st) = map Return (addresses rssApiUrl (sources st)) /\
    fetched (calls st')
    = fetched (calls st) ++ addresses rssApiUrl (sources st) /\
    lookedUp (calls st') = lookedUp (calls st) ++ feedLinks fetch (sources st) /\
    totalProcessed t + itemErrors (calls st')
    = feedSize fetch (sources st) + itemErrors (calls st) /\
    length (news st') = length (news st) + totalAdded t /\
    totalAdded t <= totalProcessed t /\
    isRunning st' = false.
Proof.
  intros Hrun Hok Hload. rewrite (syncAll_idle fetch loadNews st Hrun).
  destruct (forSources_counts fetch (sources st) 0 0
              (log msgDebut info (set_isRunning true st)) Hok)
    as (t & st1 & Hf & Hfe & Hlo & Hp & Hn & Ha).
  rewrite Hf, do_loadNews_unfold.
  rewrite log_calls in Hfe, Hlo, Hp. rewrite log_news in Hn.
  rewrite fetched_app in Hfe. rewrite lookedUp_app in Hlo.
  rewrite itemErrors_log, isItemError_info in Hp.
  cbn [fetched lookedUp flat_map app calls news set_isRunning] in Hfe, Hlo, Hp, Hn.
  rewrite app_nil_r in Hfe, Hlo.
  assert (Hlog : forall l,
            fetched (l ++ [ConsoleLog (consoleLine (msgTerminee t) success)])
            = fetched l /\
            lookedUp (l ++ [ConsoleLog (consoleLine (msgTerminee t) success)])
            = lookedUp l).
  { intro l. rewrite fetched_app, lookedUp_app. cbn. rewrite !app_nil_r. auto. }
  pose proof (addresses_built fetch (sources st) Hok) as Hbuilt.
  destruct loadNews as [[[]|msg]|].
  - eexists t, _. split; [reflexivity|]. split; [exact Hbuilt|].
    cbn [calls news isRunning set_isRunning set_calls].
    rewrite log_calls, log_news, fetched_app, lookedUp_app, itemErrors_reload.
    rewrite itemErrors_log, isItemError_success.
    destruct (Hlog (calls st1)) as [-> ->]. cbn [fetched lookedUp flat_map app].
    rewrite !app_nil_r, Hfe, Hlo. repeat split; lia.
  - exfalso. apply (Hload msg). reflexivity.
  - eexists t, _. split; [reflexivity|]. split; [exact Hbuilt|].
    cbn [calls news isRunning set_isRunning set_calls].
    rewrite log_calls, log_news.
    rewrite itemErrors_log, isItemError_success.
    destruct (Hlog (calls st1)) as [-> ->].
    rewrite Hfe, Hlo. repeat split; lia.
Qed.

Lemma X1_syncAll_success_accounting_witness :
  exists t st',
    syncAll (hotelFeed threeItems) None (constructor [] [] 0)
    = (Return (Some t), st') /\
    totalAdded t = 2 /\ totalProcessed t = 2 /\
    itemErrors (calls st') = 1 /\ length (news st') = 2.
Proof.
  destruct (X1_syncAll_success_accounting (hotelFeed threeItems) None
              (constructor [] [] 0))
    as (t & st' & H & _).
  - reflexivity.
  - intros s [<-|[<-|[]]]; [exists threeItems|exists []]; reflexivity.
  - discriminate.
  - exists t, st'. split; [exact H|].
    vm_compute in H. injection H as <- <-. repeat split.
Defined.

(** X4: [loadNews] is awaited inside the [try] of [syncAll].  When a run
    would return its totals without [loadNews], the same run with a
    [loadNews] that throws is rejected with the error of [loadNews]: it does
    all the run does, logs the success line with the totals, calls
    [loadNews], logs the global error and rethrows; the documents stay in the
    collection and [isRunning] is reset. *)
Theorem X4_a_failing_reload_fails_the_run fetch st t st1 msg :
  isRunning st = false ->
  syncAll fetch None st = (Return (Some t), st1) ->
  exists st',
    syncAll fetch (Some (Throw msg)) st = (Throw msg, st') /\
    calls st'
    = calls st1 ++ [LoadNews;
                    ConsoleLog (consoleLine (msgErreurGlobale msg) error)] /\
    (exists before,
       calls st1
       = before ++ [ConsoleLog (consoleLine (msgTerminee t) success)]) /\
    news st' = news st1 /\
    isRunning st' = false /\
    hd_error (logs st')
    = Some {| timestamp := clock st1; message := msgErreurGlobale msg;
              type := error |}.
Proof.
  intros Hrun Hnone.
  rewrite (syncAll_idle fetch None st Hrun) in Hnone.
  rewrite (syncAll_idle fetch (Some (Throw msg)) st Hrun).
  destruct (forSources _ _ _ _ _) as [[t'|msg'] st2]; [|discriminate Hnone].
  rewrite do_loadNews_unfold in *. injection Hnone as <- <-.
  eexists. split; [reflexivity|].
  cbn [calls news isRunning logs set_isRunning set_calls].
  rewrite !log_calls, !log_news, log_head. cbn [calls news set_calls clock].
  rewrite <- !app_assoc. cbn [app].
  repeat split. eexists. reflexivity.
Qed.

Lemma X4_a_failing_reload_fails_the_run_witness :
  exists st',
    syncAll (hotelFeed oneItem) (Some (Throw (lit "reload"))) (constructor [] [] 0)
    = (Throw (lit "reload"), st') /\
    length (news st') = 1 /\ isRunning st' = false.
Proof.
  destruct (X4_a_failing_reload_fails_the_run (hotelFeed oneItem)
              (constructor [] [] 0)
              {| totalAdded := 1; totalProcessed := 1 |}
              (snd (syncAll (hotelFeed oneItem) None (constructor [] [] 0)))
              (lit "reload"))
    as (st' & H & _ & _ & Hn & Hr & _).
  - reflexivity.
  - vm_compute. reflexivity.
  - exists st'. split; [exact H|]. split; [|exact Hr].
    rewrite Hn. vm_compute. reflexivity.
Defined.

(** ** The reload of the page *)

Lemma reloads_app l1 l2 : reloads (l1 ++ l2) = reloads l1 + reloads l2.
Proof. unfold reloads. rewrite filter_app, length_app. reflexivity. Qed.

Lemma forSources_reloads fetch l a p st :
  reloads (calls (snd (forSources fetch l a p st))) = reloads (calls st).
Proof.
  apply (@keeps_forSources
           (fun st st' => reloads (calls st') = reloads (calls st))
           (fun c => negb (isLoadNews c))); auto.
  - intros x y z H1 H2. congruence.
  - intros msg t st0. rewrite log_calls, reloads_app. cbn. lia.
  - intros c st0 Hc. cbn [calls set_calls]. rewrite reloads_app.
    destruct c; try discriminate Hc; cbn; lia.
Qed.

Lemma forSources_returns_iff fetch l a p st :
  (exists t st', forSources fetch l a p st = (Return t, st')) <->
  forallb (feedOk fetch) l = true.
Proof.
  rewrite forallb_feedOk. split.
  - intros (t & st' & H). apply (forSources_complete fetch l a p st t st' H).
  - intro Hok.
    destruct (forSources_counts fetch l a p st Hok) as (t & st' & H & _).
    eauto.
Qed.

(** X5: a call of [syncAll] calls [loadNews] once when it started idle,
    every feed answered and [loadNews] is defined, and not at all otherwise:
    not when the run is rejected, and not when a source fails. *)
Theorem X5_loadNews_runs_once_after_a_complete_run fetch loadNews st :
  reloads (calls (snd (syncAll fetch loadNews st)))
  = reloads (calls st)
    + (if negb (isRunning st) && forallb (feedOk fetch) (sources st)
       then match loadNews with Some _ => 1 | None => 0 end
       else 0).
Proof.
  destruct (isRunning st) eqn:Hrun.
  - unfold syncAll. rewrite Hrun. cbn [snd bind exec_ ret negb andb].
    rewrite log_calls, reloads_app. cbn. lia.
  - rewrite (syncAll_idle fetch loadNews st Hrun). cbn [negb andb].
    pose proof (forSources_reloads fetch (sources st) 0 0
                  (log msgDebut info (set_isRunning true st))) as Hr.
    pose proof (forSources_returns_iff fetch (sources st) 0 0
                  (log msgDebut info (set_isRunning true st))) as Hiff.
    rewrite log_calls, reloads_app in Hr.
    cbn [calls set_isRunning] in Hr.
    destruct (forSources _ _ _ _ _) as [[t|msg] st1]; cbn [snd] in Hr.
    + assert (Hall : forallb (feedOk fetch) (sources st) = true)
        by (apply Hiff; eauto).
      rewrite Hall, do_loadNews_unfold.
      destruct loadNews as [[[]|msg]|]; cbn [snd calls set_isRunning set_calls];
        rewrite ?log_calls, ?reloads_app; cbn [calls set_calls];
        rewrite ?log_calls, ?reloads_app, Hr; cbn; lia.
    + destruct (forallb (feedOk fetch) (sources st)).
      * destruct Hiff as [_ H]. destruct (H eq_refl) as (t & st' & Heq).
        discriminate Heq.
      * cbn [snd calls set_isRunning]. rewrite log_calls, reloads_app, Hr.
        cbn. lia.
Qed.

(** ** A run that meets no rejection *)






(** ** A feed that is refused *)

Lemma syncSource_refused fetch source url msg st :
  rssApiUrl source = Return url ->
  feedItems fetch source = Throw msg ->
  let r := syncSource fetch source st in
  fst r = Throw msg /\
  calls (snd r)
  = calls st ++ [ConsoleLog (consoleLine (msgRecuperation source) info);
                 Fetch url;
                 ConsoleLog (consoleLine (msgErreurSource source msg) error)] /\
  news (snd r) = news st /\ faults (snd r) = faults st.
Proof.
  intros Hurl H. cbv zeta. rewrite (syncSource_fail fetch source msg st H).
  cbn [fst snd]. split; [reflexivity|].
  rewrite log_calls, log_news, log_faults, (afterFetch_ok _ _ _ Hurl).
  cbn [calls news faults set_calls].
  rewrite log_calls, log_news, log_faults, <- !app_assoc. repeat split.
Qed.

(** X14: [syncSource] refuses a feed before it touches the collection.  When
    the response is not [ok] it throws "Erreur HTTP: " and the status, without
    reading the body; when the body says another status than "ok" it throws
    "Erreur RSS: " and the message of the body ("undefined" when there is
    none).  In both cases, and whenever the feed gives no items, it has logged
    the fetch line, fetched, and logged the error of the source: nothing is
    looked up or written and the collection is as before. *)
Theorem X14_a_refused_feed_leaves_the_store fetch source st url response :
  rssApiUrl source = Return url ->
  fetch url = Return response ->
  let r := syncSource fetch source st in
  let refused msg :=
    fst r = Throw msg /\
    calls (snd r)
    = calls st ++ [ConsoleLog (consoleLine (msgRecuperation source) info);
                   Fetch url;
                   ConsoleLog (consoleLine (msgErreurSource source msg) error)] /\
    news (snd r) = news st /\ faults (snd r) = faults st in
  (ok response = false ->
   refused (lit "Erreur HTTP: " ++ showNat (status response))) /\
  (forall data,
     ok response = true -> json response = Return data ->
     jseqb (rss_status data) (lit "ok") = false ->
     refused (lit "Erreur RSS: " ++ show (rss_message data))) /\
  (forall data,
     ok response = true -> json response = Return data ->
     jseqb (rss_status data) (lit "ok") = true -> rss_items data = None ->
     refused (typeError "length")).
Proof.
  intros Hurl Hfetch. cbv zeta. split; [|split].
  - intro Hok. apply (syncSource_refused _ _ _ _ _ Hurl). unfold feedItems.
    rewrite Hurl, Hfetch, Hok. reflexivity.
  - intros data Hok Hjson Hstatus. apply (syncSource_refused _ _ _ _ _ Hurl).
    unfold feedItems. rewrite Hurl, Hfetch, Hok, Hjson, Hstatus. reflexivity.
  - intros data Hok Hjson Hstatus Hitems.
    apply (syncSource_refused _ _ _ _ _ Hurl).
    unfold feedItems. rewrite Hurl, Hfetch, Hok, Hjson, Hstatus, Hitems.
    reflexivity.
Qed.

Lemma X14_a_refused_feed_leaves_the_store_witness :
  let fetch := fun _ : jsstring =>
    Return {| ok := false; status := 404;
              json := Return {| rss_status := lit "ok"; rss_message := None;
                                rss_items := Some oneItem |} |} in
  let r := syncSource fetch hotels (constructor [] [] 0) in
  fst r = Throw (lit "Erreur HTTP: 404") /\ news (snd r) = [].
Proof.
  cbv zeta.
  destruct (X14_a_refused_feed_leaves_the_store
              (fun _ : jsstring =>
                 Return {| ok := false; status := 404;
                           json := Return {| rss_status := lit "ok";
                                             rss_message := None;
                                             rss_items := Some oneItem |} |})
              hotels (constructor [] [] 0) hotelsAddress _ eq_refl eq_refl)
    as (H & _).
  destruct (H eq_refl) as (H1 & _ & H2 & _).
  split; [exact H1|exact H2].
Defined.

(** ** The test of the feeds *)

Lemma testSource_unfold fetch source results st :
  exists st1,
    testSource fetch source results st =
    (Return (results ++ testOutcome fetch source),
     log (fst (testLine fetch source)) (snd (testLine fetch source)) st1) /\
    calls st1 = calls st ++ map Fetch (addresses testApiUrl [source]) /\
    news st1 = news st /\ faults st1 = faults st /\
    isRunning st1 = isRunning st /\ sources st1 = sources st.
Proof.
  unfold testSource, testOutcome, testLine, testData, okWithoutItems, addresses.
  cbn [flat_map]. unfold tryCatch at 1. unfold bind at 1, await at 1.
  destruct (testApiUrl source) as [url|msg].
  2:{ exists st. cbn. rewrite app_nil_r. repeat split. }
  exists (set_calls (calls st ++ [Fetch url]) st).
  split; [|repeat split].
  unfold bind at 1. unfold do_fetch at 1.
  unfold bind at 1. unfold call, exec_ at 1. cbv beta iota.
  destruct (fetch url) as [response|msg]; cbn [fst snd].
  2:{ reflexivity. }
  unfold bind at 1, await at 1. cbv beta iota.
  destruct (json response) as [data|msg]; cbn [fst snd].
  2:{ reflexivity. }
  unfold tryCatch, bind, testCatch, exec_, ret, throw.
  destruct (jseqb (rss_status data) (lit "ok")); cbn [andb].
  - destruct (rss_items data); cbn [fst snd]; rewrite <- ?app_assoc; reflexivity.
  - reflexivity.
Qed.

Lemma forTests_run fetch l : forall results st,
  exists st',
    forTests fetch l results st
    = (Return (results ++ flat_map (testOutcome fetch) l), st') /\
    calls st' = calls st ++ flat_map (testCalls fetch) l /\
    news st' = news st /\ faults st' = faults st /\
    isRunning st' = isRunning st /\ sources st' = sources st.
Proof.
  induction l as [|source more IH]; intros results st.
  - exists st. cbn. rewrite !app_nil_r. repeat split.
  - cbn [forTests]. unfold bind.
    destruct (testSource_unfold fetch source results st)
      as (st1 & -> & Hc1 & Hn1 & Hf1 & Hr1 & Hs1).
    destruct (IH (results ++ testOutcome fetch source)
                 (log (fst (testLine fetch source)) (snd (testLine fetch source))
                    st1))
      as (st' & Hrun & Hc & Hn & Hf & Hr & Hs).
    exists st'. rewrite Hrun, Hc, Hn, Hf, Hr, Hs.
    rewrite log_calls, log_news, log_faults, log_isRunning, log_sources.
    rewrite Hc1, Hn1, Hf1, Hr1, Hs1.
    cbn [flat_map]. unfold testCalls at 2.
    rewrite <- !app_assoc. cbn [app]. repeat split.
Qed.

Lemma testFeeds_run fetch st :
  exists st',
    testFeeds fetch st
    = (Return (flat_map (testOutcome fetch) (sources st)), st') /\
    calls st'
    = calls st ++ ConsoleLog (consoleLine msgTestDebut info)
                  :: flat_map (testCalls fetch) (sources st)
                  ++ [ConsoleLog (consoleLine msgTestFin info)] /\
    news st' = news st /\ faults st' = faults st /\
    isRunning st' = isRunning st /\ sources st' = sources st.
Proof.
  unfold testFeeds. unfold bind at 1, exec_ at 1. unfold bind at 1.
  unfold bind at 1.
  destruct (forTests_run fetch (sources (log msgTestDebut info st)) []
              (log msgTestDebut info st))
    as (st1 & Hrun & Hc & Hn & Hf & Hr & Hs).
  rewrite Hrun. unfold bind, exec_, ret. eexists. rewrite log_sources.
  split; [reflexivity|].
  rewrite log_calls, log_news, log_faults, log_isRunning, log_sources.
  rewrite Hc, Hn, Hf, Hr, Hs.
  rewrite log_calls, log_news, log_faults, log_isRunning, log_sources.
  rewrite <- !app_assoc. cbn [app]. repeat split.
Qed.

Lemma testCalls_fetched fetch l :
  fetched (flat_map (testCalls fetch) l) = addresses testApiUrl l /\
  lookedUp (flat_map (testCalls fetch) l) = [] /\
  written (flat_map (testCalls fetch) l) = [].
Proof.
  induction l as [|s l (IH1 & IH2 & IH3)]; [repeat split|].
  cbn [flat_map]. rewrite fetched_app, lookedUp_app, written_app.
  rewrite IH1, IH2, IH3, (addresses_cons testApiUrl s l).
  unfold testCalls, addresses. cbn [flat_map].
  destruct (testApiUrl s) as [url|msg]; cbn; repeat split.
Qed.

(** X7: [testFeeds] never throws, whatever the urls of the sources and
    whatever the network does: every error is caught in the loop and the loop
    goes on.  It logs its first line, then for every source of
    [this.sources], in order, fetches the test address of the source (no
    [api_key], five items) when the address can be built, and logs one line
    in either case, then logs its last line.  It looks nothing up and writes
    nothing: the collection, the pending requests, [isRunning] and the
    sources are as before. *)
Theorem X7_testFeeds_always_returns_and_only_reads fetch st :
  exists results st',
    testFeeds fetch st = (Return results, st') /\
    calls st'
    = calls st ++ ConsoleLog (consoleLine msgTestDebut info)
                  :: flat_map (testCalls fetch) (sources st)
                  ++ [ConsoleLog (consoleLine msgTestFin info)] /\
    fetched (calls st')
    = fetched (calls st) ++ addresses testApiUrl (sources st) /\
    lookedUp (calls st') = lookedUp (calls st) /\
    written (calls st') = written (calls st) /\
    news st' = news st /\ faults st' = faults st /\
    isRunning st' = isRunning st /\ sources st' = sources st.
Proof.
  destruct (testFeeds_run fetch st) as (st' & Hrun & Hc & Hrest).
  eexists _, st'. split; [exact Hrun|]. split; [exact Hc|].
  destruct (testCalls_fetched fetch (sources st)) as (E1 & E2 & E3).
  rewrite Hc.
  change (ConsoleLog (consoleLine msgTestDebut info)
            :: flat_map (testCalls fetch) (sources st)
            ++ [ConsoleLog (consoleLine msgTestFin info)])
    with ([ConsoleLog (consoleLine msgTestDebut info)]
            ++ flat_map (testCalls fetch) (sources st)
            ++ [ConsoleLog (consoleLine msgTestFin info)]).
  rewrite !fetched_app, !lookedUp_app, !written_app, E1, E2, E3.
  cbn [fetched lookedUp written flat_map app]. rewrite !app_nil_r.
  repeat split; apply Hrest.
Qed.

Lemma testOutcome_length fetch s :
  length (testOutcome fetch s) = if okButEmpty fetch s then 2 else 1.
Proof.
  unfold testOutcome, okButEmpty.
  destruct (testData fetch s) as [data|msg]; [|reflexivity].
  destruct (okWithoutItems data); reflexivity.
Qed.

(** X8: [testFeeds] returns, for the sources in order, the result built from
    the answer of the feed, or the failure built from the error of the
    address or of the request; [response.ok] is not consulted.  A source whose answer says "ok"
    and has no [items] gets two results, because the result is pushed before
    [data.items.length] throws and the [catch] pushes a failure: the array
    has one element per source plus one per such source.  [isRunning] is not
    consulted either. *)
Theorem X8_testFeeds_results fetch st :
  let results := flat_map (testOutcome fetch) (sources st) in
  fst (testFeeds fetch st) = Return results /\
  length results
  = length (sources st) + length (filter (okButEmpty fetch) (sources st)) /\
  (forall b, fst (testFeeds fetch (set_isRunning b st)) = Return results).
Proof.
  cbv zeta. split; [|split].
  - destruct (testFeeds_run fetch st) as (st' & -> & _). reflexivity.
  - induction (sources st) as [|s l IH]; [reflexivity|].
    cbn [flat_map filter]. rewrite length_app, testOutcome_length, IH.
    destruct (okButEmpty fetch s); cbn [length]; lia.
  - intro b.
    destruct (testFeeds_run fetch (set_isRunning b st)) as (st' & -> & _).
    reflexivity.
Qed.

(** A feed that says "ok" and sends no items is reported twice. *)
Example testFeeds_reports_twice :
  let fetch := fun _ : jsstring =>
    Return {| ok := true; status := 200;
              json := Return {| rss_status := lit "ok"; rss_message := None;
                                rss_items := None |} |} in
  map tr_status
    (match fst (testFeeds fetch (constructor [] [] 0)) with
     | Return results => results
     | Throw _ => []
     end)
  = [lit "ok"; lit "error"; lit "ok"; lit "error"].
Proof. reflexivity. Qed.

(** A source whose url cannot be encoded is reported as a failure, and is not
    fetched. *)
Example testFeeds_reports_a_malformed_url :
  let st := set_calls [] (constructor [] [] 0) in
  let r := testSource (hotelFeed []) loneSurrogateSource [] st in
  fst r = Return [testFailure loneSurrogateSource (lit "URI malformed")] /\
  fetched (calls (snd r)) = [].
Proof. split; reflexivity. Qed.

(** ** Trimmed texts *)

Lemma tidy_cut k t :
  0 < k -> startsClean t = true ->
  tidy (firstn k t ++ ellipsis) = true.
Proof.
  intros Hk Ht. unfold tidy. rewrite rev_app_distr. cbn [ellipsis].
  apply andb_true_iff. split; [|reflexivity].
  destruct k as [|k]; [lia|]. destruct t as [|c t]; [reflexivity|exact Ht].
Qed.

Lemma lastIndexOf_from_bound c s : forall i,
  (0 <= i)%Z ->
  (lastIndexOf_from c i s < i + Z.of_nat (length s))%Z.
Proof.
  induction s as [|x s IH]; intros i Hi; cbn [lastIndexOf_from length].
  - lia.
  - specialize (IH (i + 1)%Z ltac:(lia)).
    destruct (0 <=? lastIndexOf_from c (i + 1) s)%Z; [lia|].
    destruct (N.eqb x c); lia.
Qed.

Lemma extractSummary_tidy content : tidy (extractSummary content) = true.
Proof.
  destruct content as [[|c s]|]; try reflexivity.
  unfold extractSummary.
  pose proof (trim_tidy (replaceAll tagRe [] (c :: s))) as Ht.
  set (t := trim (replaceAll tagRe [] (c :: s))) in *.
  destruct (length t <=? 200) eqn:Hlen; [exact Ht|].
  apply Nat.leb_gt in Hlen. unfold tidy in Ht.
  apply andb_true_iff in Ht as [Ht _]. unfold substring0.
  destruct (150 <? lastIndexOf (firstn 200 t) SPACE)%Z eqn:Hsp.
  - apply Z.ltb_lt in Hsp.
    pose proof (lastIndexOf_from_bound SPACE (firstn 200 t) 0 (Z.le_refl 0)) as Hb.
    fold (lastIndexOf (firstn 200 t) SPACE) in Hb.
    rewrite length_firstn in Hb.
    rewrite firstn_firstn.
    apply tidy_cut; [lia|exact Ht].
  - apply tidy_cut; [lia|exact Ht].
Qed.

Lemma cleanContent_tidy content : tidy (cleanContent content) = true.
Proof.
  destruct content as [[|c s]|]; try reflexivity.
  unfold cleanContent. apply trim_tidy.
Qed.

(** X10: [trim] leaves no whitespace at either end and a second [trim]
    changes nothing; so the content [cleanContent] returns and the summary
    [extractSummary] returns neither begin nor end with whitespace, for every
    input (the placeholders and the cut summaries included). *)
Theorem X10_texts_are_trimmed :
  (forall s, tidy (trim s) = true /\ trim (trim s) = trim s) /\
  (forall content, tidy (cleanContent content) = true) /\
  (forall content, tidy (extractSummary content) = true).
Proof.
  split; [|split].
  - intro s. split; [apply trim_tidy|apply tidy_trim, trim_tidy].
  - apply cleanContent_tidy.
  - apply extractSummary_tidy.
Qed.

(** ** Texts without tags *)

Lemma hasTag_noGT s : existsb (isChar GT) s = false -> hasTag s = false.
Proof.
  induction s as [|c s IH]; intro H; [reflexivity|].
  cbn [existsb] in H. apply orb_false_iff in H as [_ H].
  cbn [hasTag]. rewrite H, (IH H), andb_false_r. reflexivity.
Qed.

Lemma stripTags_fixed s : forall b,
  hasTag s = false -> strip execTag b s = s.
Proof.
  induction s as [|c s IH]; intros b H; [reflexivity|].
  cbn [hasTag] in H. apply orb_false_iff in H as [H1 H2].
  rewrite strip_keep, (IH _ H2); [reflexivity|].
  rewrite execTag_cons. destruct (N.eqb c LT); [|reflexivity].
  apply afterFirst_GT_None. exact H1.
Qed.

Lemma stripTags_clean n : forall s b,
  length s <= n -> hasTag (strip execTag b s) = false.
Proof.
  induction n as [|n IH]; intros s b Hn.
  - destruct s; [reflexivity|cbn in Hn; lia].
  - destruct s as [|c s]; [reflexivity|]. cbn [length] in Hn.
    pose proof (execTag_cons b c s) as E.
    destruct (N.eqb c LT) eqn:Ec.
    + destruct (afterFirst isChar [GT] (Some c) s) as [y|] eqn:Ea.
      * destruct (afterFirst_GT_Some _ _ _ Ea) as [_ Hlen].
        rewrite (strip_cut _ _ _ y E) by (cbn [length]; lia).
        apply IH. lia.
      * apply afterFirst_GT_found in Ea.
        rewrite (strip_keep _ _ _ _ E).
        rewrite (stripTags_fixed _ _ (hasTag_noGT _ Ea)).
        cbn [hasTag]. rewrite Ea, (hasTag_noGT _ Ea), andb_false_r.
        reflexivity.
    + rewrite (strip_keep _ _ _ _ E). cbn [hasTag]. rewrite Ec.
      cbn [andb orb]. apply IH. lia.
Qed.

Lemma hasTag_spec s :
  hasTag s = true <-> exists pre mid post, s = pre ++ LT :: mid ++ GT :: post.
Proof.
  split.
  - induction s as [|c s IH]; [discriminate|]. cbn [hasTag]. intro H.
    apply orb_true_iff in H as [H|H].
    + apply andb_true_iff in H as [Hc Hs]. apply N.eqb_eq in Hc. subst c.
      apply existsb_exists in Hs as (x & Hin & Hx).
      unfold isChar in Hx. apply N.eqb_eq in Hx. subst x.
      apply in_split in Hin as (mid & post & ->).
      exists [], mid, post. reflexivity.
    + destruct (IH H) as (pre & mid & post & ->).
      exists (c :: pre), mid, post. reflexivity.
  - intros (pre & mid & post & ->). induction pre as [|c pre IH].
    + cbn [app hasTag]. rewrite N.eqb_refl.
      replace (existsb (isChar GT) (mid ++ GT :: post)) with true; [reflexivity|].
      symmetry. apply existsb_exists. exists GT.
      split; [apply in_or_app; right; left; reflexivity|reflexivity].
    + cbn [app hasTag]. rewrite IH. apply orb_true_r.
Qed.

Lemma hasTag_app u v :
  hasTag (u ++ v) = false -> hasTag u = false /\ hasTag v = false.
Proof.
  intro H. split.
  - destruct (hasTag u) eqn:E; [|reflexivity].
    apply hasTag_spec in E as (pre & mid & post & ->).
    rewrite <- H. symmetry. apply hasTag_spec.
    exists pre, mid, (post ++ v). rewrite <- !app_assoc. cbn.
    rewrite <- app_assoc. reflexivity.
  - destruct (hasTag v) eqn:E; [|reflexivity].
    apply hasTag_spec in E as (pre & mid & post & ->).
    rewrite <- H. symmetry. apply hasTag_spec.
    exists (u ++ pre), mid, post. rewrite <- app_assoc. reflexivity.
Qed.

Lemma hasTag_trim s : hasTag s = false -> hasTag (trim s) = false.
Proof.
  intro H. unfold trim.
  destruct (trimStart_suffix s) as (ws & Hs).
  destruct (trimEnd_prefix (trimStart s)) as (ws' & He).
  rewrite Hs in H. apply hasTag_app in H as [_ H].
  rewrite He in H. apply hasTag_app in H as [H _]. exact H.
Qed.

Lemma hasTag_app_plain u v :
  existsb (isChar GT) v = false -> hasTag (u ++ v) = hasTag u.
Proof.
  intro Hv. induction u as [|c u IH]; cbn [app hasTag].
  - apply hasTag_noGT, Hv.
  - rewrite IH, existsb_app, Hv, orb_false_r. reflexivity.
Qed.

Lemma hasTag_cut k t :
  hasTag t = false -> hasTag (firstn k t ++ ellipsis) = false.
Proof.
  intro H. rewrite <- (firstn_skipn k t) in H.
  apply hasTag_app in H as [H _].
  rewrite hasTag_app_plain; [exact H|reflexivity].
Qed.

Lemma extractSummary_hasTag content : hasTag (extractSummary content) = false.
Proof.
  destruct content as [[|c s]|]; try reflexivity.
  unfold extractSummary.
  assert (Ht : hasTag (trim (replaceAll tagRe [] (c :: s))) = false).
  { apply hasTag_trim. rewrite replaceAll_tagRe.
    apply (stripTags_clean (length (c :: s))). lia. }
  set (t := trim (replaceAll tagRe [] (c :: s))) in *.
  destruct (length t <=? 200); [exact Ht|]. unfold substring0.
  destruct (150 <? lastIndexOf (firstn 200 t) SPACE)%Z.
  - rewrite firstn_firstn. apply hasTag_cut, Ht.
  - apply hasTag_cut, Ht.
Qed.

(** X9: the replacement of the tag pattern by the empty string, which
    [extractSummary] and [extractCity] run, leaves no less-than sign with a
    greater-than sign after it, so a second replacement changes nothing; the
    summary of every content, cut or not, and the text searched for a city
    hold no tag. *)
Theorem X9_tag_stripping_leaves_no_tag :
  (forall s pre mid post,
     replaceAll tagRe [] s <> pre ++ LT :: mid ++ GT :: post) /\
  (forall s,
     replaceAll tagRe [] (replaceAll tagRe [] s) = replaceAll tagRe [] s) /\
  (forall content pre mid post,
     extractSummary content <> pre ++ LT :: mid ++ GT :: post) /\
  (forall content pre mid post,
     cityText content <> pre ++ LT :: mid ++ GT :: post).
Proof.
  assert (Hclean : forall s, hasTag (replaceAll tagRe [] s) = false).
  { intro s. rewrite replaceAll_tagRe.
    apply (stripTags_clean (length s)). lia. }
  assert (Hno : forall t, hasTag t = false ->
                forall pre mid post, t <> pre ++ LT :: mid ++ GT :: post).
  { intros t Ht pre mid post E.
    assert (H : hasTag t = true) by (apply hasTag_spec; eauto).
    congruence. }
  repeat split.
  - intro s. apply Hno, Hclean.
  - intro s. rewrite (replaceAll_tagRe (replaceAll tagRe [] s)).
    apply stripTags_fixed, Hclean.
  - intro content. apply Hno, extractSummary_hasTag.
  - intro content. apply Hno. destruct content as [s|]; [apply Hclean|reflexivity].
Qed.

(** ** The documents the service builds *)

Lemma extractSummary_length content : length (extractSummary content) <= 203.
Proof.
  destruct content as [[|c s]|]; try (cbn; lia).
  unfold extractSummary.
  set (t := trim (replaceAll tagRe [] (c :: s))).
  destruct (length t <=? 200) eqn:Hlen; [apply Nat.leb_le in Hlen; lia|].
  unfold substring0.
  destruct (150 <? lastIndexOf (firstn 200 t) SPACE)%Z;
    rewrite length_app, ?firstn_firstn, length_firstn, length_ellipsis; lia.
Qed.

Lemma buildNewsData_fields article source t :
  let d := buildNewsData article source t in
  nd_title d = t /\
  nd_content d = cleanContent (orElse (content article) (description article)) /\
  nd_summary d
  = extractSummary (orElse (description article) (Some (nd_content d))) /\
  nd_city d = extractCity (Some (nd_content d)) /\
  nd_status d = lit "published" /\ nd_views d = 0 /\ nd_featured d = false /\
  nd_type d = src_type source /\
  nd_establishmentType d = src_establishmentType source /\
  nd_source d = src_url source.
Proof.
  cbv zeta. unfold buildNewsData.
  set (cleaned := cleanContent (orElse (content article) (description article))).
  destruct (extractCity (Some cleaned)) as [city|] eqn:Hcity;
    destruct (negb (falsy (thumbnail article)));
    try (destruct (enclosure article) as [e|];
         [destruct (negb (falsy (enc_link e)))|]);
    cbn [nd_title nd_content nd_summary nd_city nd_status nd_views nd_featured
         nd_type nd_establishmentType nd_source with_city with_imageUrl];
    rewrite ?Hcity; repeat split.
Qed.

Lemma fromFeed_wellFormed fetch l d : fromFeed fetch l d -> wellFormed l d.
Proof.
  intros (source & items & article & Hin & _ & _ & t & _ & ->).
  destruct (buildNewsData_fields article source (trim t))
    as (Ht & Hc & Hs & Hci & Hst & Hv & Hf & Hty & He & Hso).
  unfold wellFormed. rewrite Ht, Hs, Hci, Hst, Hv, Hf, Hc.
  split; [apply trim_tidy|]. split; [apply cleanContent_tidy|].
  split; [apply extractSummary_tidy|]. split; [apply extractSummary_length|].
  split; [apply extractSummary_hasTag|]. split.
  - intros city Hcity. rewrite extractCity_find in Hcity.
    apply find_some in Hcity as [Hin' Hinc]. split; [exact Hin'|].
    apply includes_spec, Hinc.
  - repeat split. exists source. auto.
Qed.

(** X11: every document a call of [syncAll] adds to the collection has a
    trimmed title, a trimmed content, a trimmed summary of at most 203 code
    units without tags, a city (if any) of the gazetteer that occurs in the
    tag-stripped content, the status "published", no views, and the type, the
    establishment type and the url of one of the sources. *)
Theorem X11_a_run_stores_well_formed_documents fetch loadNews st :
  exists docs,
    news (snd (syncAll fetch loadNews st)) = news st ++ docs /\
    Forall (wellFormed (sources st)) docs.
Proof.
  destruct (syncAll_appended fetch loadNews st) as (docs & H & HP & _).
  exists docs. split; [exact H|]. revert HP. apply Forall_impl.
  intro d. apply fromFeed_wellFormed.
Qed.

(** ** The address of the request *)

Lemma hexDigit_safe d : (d < 16)%N -> isUnreserved (hexDigit d) = true.
Proof.
  intro H. rewrite <- (N2Nat.id d).
  assert (Hn : N.to_nat d < 16) by lia.
  destruct (N.to_nat d) as [|n]; [reflexivity|].
  do 15 (destruct n as [|n]; [reflexivity|]). lia.
Qed.

Lemma percent_safe byte :
  (byte < 256)%N -> forallb isUriSafe (percent byte) = true.
Proof.
  intro H. unfold percent. cbn [forallb]. unfold isUriSafe at 2 3.
  rewrite !hexDigit_safe; [reflexivity| |].
  - apply N.mod_lt. discriminate.
  - apply N.Div0.div_lt_upper_bound. exact H.
Qed.

Lemma utf8_bytes cp :
  (cp < 1114112)%N -> Forall (fun b => (b < 256)%N) (utf8 cp).
Proof.
  intro H. unfold utf8.
  destruct (N.ltb_spec cp 128); [repeat constructor; lia|].
  destruct (N.ltb_spec cp 2048).
  { repeat constructor.
    - assert (cp / 64 < 32)%N by (apply N.Div0.div_lt_upper_bound; lia). lia.
    - assert (cp mod 64 < 64)%N by (apply N.mod_lt; discriminate). lia. }
  destruct (N.ltb_spec cp 65536).
  { repeat constructor.
    - assert (cp / 4096 < 16)%N by (apply N.Div0.div_lt_upper_bound; lia). lia.
    - assert ((cp / 64) mod 64 < 64)%N by (apply N.mod_lt; discriminate). lia.
    - assert (cp mod 64 < 64)%N by (apply N.mod_lt; discriminate). lia. }
  repeat constructor.
  - assert (cp / 262144 < 5)%N by (apply N.Div0.div_lt_upper_bound; lia). lia.
  - assert ((cp / 4096) mod 64 < 64)%N by (apply N.mod_lt; discriminate). lia.
  - assert ((cp / 64) mod 64 < 64)%N by (apply N.mod_lt; discriminate). lia.
  - assert (cp mod 64 < 64)%N by (apply N.mod_lt; discriminate). lia.
Qed.

Lemma surrogates_apart c :
  isHighSurrogate c = true -> isLowSurrogate c = false.
Proof.
  unfold isHighSurrogate, isLowSurrogate. intro H.
  apply andb_true_iff in H as [_ H]. apply N.leb_le in H.
  apply andb_false_iff. left. apply N.leb_gt. lia.
Qed.

Lemma codePoints_cons c s :
  codePoints (c :: s) =
  if isHighSurrogate c then
    match s with
    | d :: s'' =>
        if isLowSurrogate d
        then option_map
               (cons (65536 + (c - 55296) * 1024 + (d - 56320))%N)
               (codePoints s'')
        else None
    | [] => None
    end
  else if isLowSurrogate c then None
  else option_map (cons c) (codePoints s).
Proof. reflexivity. Qed.

Lemma codePoints_range n : forall s cps,
  length s <= n ->
  codePoints s = Some cps ->
  Forall (fun c => (c < 65536)%N) s ->
  Forall (fun cp => (cp < 1114112)%N) cps.
Proof.
  induction n as [|n IH]; intros s cps Hn Hcp Hs.
  - destruct s; [|cbn in Hn; lia]. injection Hcp as <-. constructor.
  - destruct s as [|c s]; [injection Hcp as <-; constructor|].
    rewrite codePoints_cons in Hcp. cbn [length] in Hn.
    inversion Hs as [|? ? Hc Hs']; subst.
    destruct (isHighSurrogate c) eqn:Eh.
    + destruct s as [|d s]; [discriminate Hcp|].
      destruct (isLowSurrogate d) eqn:El; [|discriminate Hcp].
      destruct (codePoints s) as [cps'|] eqn:E; [|discriminate Hcp].
      cbn [option_map] in Hcp.
      assert (Hcps : cps = (65536 + (c - 55296) * 1024 + (d - 56320))%N :: cps')
        by congruence.
      rewrite Hcps. inversion Hs' as [|? ? Hd Hs'']; subst.
      cbn [length] in Hn. constructor; [|apply (IH s); [lia|exact E|exact Hs'']].
      unfold isHighSurrogate in Eh. unfold isLowSurrogate in El.
      apply andb_true_iff in Eh as [_ E1]. apply andb_true_iff in El as [_ E2].
      apply N.leb_le in E1. apply N.leb_le in E2. cbv beta. lia.
    + destruct (isLowSurrogate c); [discriminate Hcp|].
      destruct (codePoints s) as [cps'|] eqn:E; [|discriminate Hcp].
      injection Hcp as <-. constructor; [lia|].
      apply (IH s); [lia|exact E|exact Hs'].
Qed.

Lemma forallb_flat_map {A B} (f : B -> bool) (g : A -> list B) l :
  (forall x, In x l -> forallb f (g x) = true) ->
  forallb f (flat_map g l) = true.
Proof.
  intro H. induction l as [|x l IH]; [reflexivity|]. cbn [flat_map].
  rewrite forallb_app, (H x (or_introl eq_refl)), IH; [reflexivity|].
  intros y Hy. apply H. right. exact Hy.
Qed.

Lemma encodeURIComponent_safe s q :
  Forall (fun c => (c < 65536)%N) s ->
  encodeURIComponent s = Some q ->
  forallb isUriSafe q = true.
Proof.
  intros Hs Hq. unfold encodeURIComponent in Hq.
  destruct (codePoints s) as [cps|] eqn:E; [|discriminate Hq].
  injection Hq as <-. apply forallb_flat_map. intros cp Hin.
  pose proof (codePoints_range (length s) s cps (le_n _) E Hs) as Hcp.
  rewrite Forall_forall in Hcp. specialize (Hcp cp Hin).
  destruct (isUnreserved cp) eqn:Eu.
  - cbn [forallb]. unfold isUriSafe. rewrite Eu. reflexivity.
  - apply forallb_flat_map. intros b Hb. apply percent_safe.
    pose proof (utf8_bytes cp Hcp) as Hu. rewrite Forall_forall in Hu.
    apply Hu, Hb.
Qed.

Lemma codePoints_None n : forall s,
  length s <= n -> codePoints s = None -> loneSurrogate s.
Proof.
  induction n as [|n IH]; intros s Hn Hcp.
  - destruct s; [discriminate Hcp|cbn in Hn; lia].
  - destruct s as [|c s]; [discriminate Hcp|].
    rewrite codePoints_cons in Hcp. cbn [length] in Hn.
    destruct (isHighSurrogate c) eqn:Eh.
    + destruct s as [|d s].
      { exists [], c, []. split; [reflexivity|]. left. split; [exact Eh|].
        intros d post' E. discriminate E. }
      destruct (isLowSurrogate d) eqn:El.
      2:{ exists [], c, (d :: s). split; [reflexivity|]. left.
          split; [exact Eh|]. intros d' post' E. injection E as <- <-.
          exact El. }
      destruct (codePoints s) as [cps|] eqn:E; [discriminate Hcp|].
      cbn [length] in Hn.
      destruct (IH s ltac:(lia) E) as (pre & x & post & -> & Hx).
      exists (c :: d :: pre), x, post. split; [reflexivity|].
      destruct Hx as [Hx|[Hx Hpre]]; [left; exact Hx|right].
      split; [exact Hx|]. intros pre' b Eb.
      destruct pre as [|y pre] using rev_ind.
      * destruct pre' as [|? [|? [|? ?]]]; try discriminate Eb.
        injection Eb as _ <-.
        destruct (isHighSurrogate d) eqn:Ed; [|reflexivity].
        apply surrogates_apart in Ed. congruence.
      * change (c :: d :: pre ++ [y]) with ((c :: d :: pre) ++ [y]) in Eb.
        apply app_inj_tail in Eb as [_ <-]. apply (Hpre pre y eq_refl).
    + destruct (isLowSurrogate c) eqn:El.
      { exists [], c, s. split; [reflexivity|]. right. split; [exact El|].
        intros pre' b E. destruct pre'; discriminate E. }
      destruct (codePoints s) as [cps|] eqn:E; [discriminate Hcp|].
      destruct (IH s ltac:(lia) E) as (pre & x & post & -> & Hx).
      exists (c :: pre), x, post. split; [reflexivity|].
      destruct Hx as [Hx|[Hx Hpre]]; [left; exact Hx|right].
      split; [exact Hx|]. intros pre' b Eb.
      destruct pre as [|y pre] using rev_ind.
      * destruct pre' as [|? [|? ?]]; try discriminate Eb.
        injection Eb as <-. exact Eh.
      * change (c :: pre ++ [y]) with ((c :: pre) ++ [y]) in Eb.
        apply app_inj_tail in Eb as [_ <-]. apply (Hpre pre y eq_refl).
Qed.
Lemma loneSurrogate_None n : forall s,
  length s <= n -> loneSurrogate s -> codePoints s = None.
Proof.
  induction n as [|n IH]; intros s Hn (pre & c & post & Hs & Hc).
  - subst s. rewrite length_app in Hn. cbn in Hn. lia.
  - destruct pre as [|x pre]; cbn [app] in Hs; subst s;
      rewrite codePoints_cons; cbn [length] in Hn.
    + destruct Hc as [[Hh Hpost]|[Hl _]].
      * rewrite Hh. destruct post as [|d post]; [reflexivity|].
        rewrite (Hpost d post eq_refl). reflexivity.
      * destruct (isHighSurrogate c) eqn:Eh.
        { apply surrogates_apart in Eh. congruence. }
        rewrite Hl. reflexivity.
    + destruct (isHighSurrogate x) eqn:Ex.
      * destruct pre as [|y pre]; cbn [app].
        { destruct (isLowSurrogate c) eqn:El; [|reflexivity].
          destruct Hc as [[Hh _]|[_ Hpre]].
          - apply surrogates_apart in Hh. congruence.
          - rewrite (Hpre [] x eq_refl) in Ex. discriminate Ex. }
        destruct (isLowSurrogate y) eqn:Ey; [|reflexivity].
        rewrite (IH (pre ++ c :: post)); [reflexivity| |].
        { rewrite length_app in *. cbn [length] in *. lia. }
        exists pre, c, post. split; [reflexivity|].
        destruct Hc as [Hc|[Hl Hpre]]; [left; exact Hc|right].
        split; [exact Hl|]. intros pre' b E. subst pre.
        apply (Hpre (x :: y :: pre') b). reflexivity.
      * destruct (isLowSurrogate x); [reflexivity|].
        rewrite (IH (pre ++ c :: post)); [reflexivity| |].
        { rewrite length_app in *. cbn [length] in *. lia. }
        exists pre, c, post. split; [reflexivity|].
        destruct Hc as [Hc|[Hl Hpre]]; [left; exact Hc|right].
        split; [exact Hl|]. intros pre' b E. subst pre.
        apply (Hpre (x :: pre') b). reflexivity.
Qed.

Lemma codePoints_lone s : codePoints s = None <-> loneSurrogate s.
Proof.
  split; [apply (codePoints_None (length s)), le_n
         |apply (loneSurrogate_None (length s)), le_n].
Qed.

(** X12: for a source url of 16-bit code units.  When a surrogate stands in
    the url without its other half, [encodeURIComponent] throws and neither
    [syncSource] nor [testFeeds] builds an address.  Otherwise the addresses
    they fetch are the fixed prefix, the encoded url and the fixed suffix,
    and the encoded url consists of unreserved characters and percent signs
    only: it holds no ampersand, equals sign, hash, question mark, slash or
    space, so the url of a source stays inside the [rss_url] parameter. *)
Theorem X12_the_feed_address_is_one_parameter source :
  Forall (fun c => (c < 65536)%N) (src_url source) ->
  match encodeURIComponent (src_url source) with
  | None =>
      loneSurrogate (src_url source) /\
      rssApiUrl source = Throw (lit "URI malformed") /\
      testApiUrl source = Throw (lit "URI malformed")
  | Some q =>
      ~ loneSurrogate (src_url source) /\
      rssApiUrl source
      = Return (lit "https://api.rss2json.com/v1/api.json?rss_url=" ++ q
                ++ lit "&api_key=YOUR_API_KEY&count=20") /\
      testApiUrl source
      = Return (lit "https://api.rss2json.com/v1/api.json?rss_url=" ++ q
                ++ lit "&count=5") /\
      forallb isUriSafe q = true /\
      (forall c, In c q ->
         c <> 38%N /\ c <> 61%N /\ c <> 35%N /\ c <> 63%N /\ c <> 47%N
         /\ c <> 32%N)
  end.
Proof.
  intro H. unfold rssApiUrl, testApiUrl.
  destruct (encodeURIComponent (src_url source)) as [q|] eqn:E.
  - pose proof (encodeURIComponent_safe _ _ H E) as Hs.
    split; [|split; [reflexivity|split; [reflexivity|split; [exact Hs|]]]].
    + intro Hl. apply codePoints_lone in Hl. unfold encodeURIComponent in E.
      rewrite Hl in E. discriminate E.
    + intros c Hin. rewrite forallb_forall in Hs. specialize (Hs c Hin).
      repeat split; intros ->; discriminate Hs.
  - split; [|split; reflexivity]. apply codePoints_lone.
    unfold encodeURIComponent in E.
    destruct (codePoints (src_url source)); [discriminate E|reflexivity].
Qed.

Lemma X12_the_feed_address_is_one_parameter_witness :
  rssApiUrl hotels = Return hotelsAddress /\
  rssApiUrl loneSurrogateSource = Throw (lit "URI malformed").
Proof.
  split.
  - pose proof (X12_the_feed_address_is_one_parameter hotels) as H.
    destruct (encodeURIComponent (src_url hotels)) as [q|] eqn:E;
      [|vm_compute in E; discriminate E].
    destruct H as (_ & H & _); [repeat constructor|].
    rewrite H. vm_compute in E. injection E as <-. reflexivity.
  - pose proof (X12_the_feed_address_is_one_parameter loneSurrogateSource) as H.
    destruct (encodeURIComponent (src_url loneSurrogateSource)) as [q|] eqn:E;
      [vm_compute in E; discriminate E|].
    destruct H as (_ & H & _); [repeat constructor|]. exact H.
Defined.

(** ** One pass over the content *)

Lemma found_skip cls p u v :
  (forall y, cls LT y = N.eqb y LT) ->
  forallb (isNot LT) u = true ->
  found cls (LT :: p) (u ++ v) = found cls (LT :: p) v.
Proof.
  intros Hcls. induction u as [|y u IH]; intro Hu; [reflexivity|].
  cbn [forallb] in Hu. apply andb_true_iff in Hu as [Hy Hu].
  change ((y :: u) ++ v) with (y :: (u ++ v)).
  cbn [found prefixOf]. rewrite Hcls, (IH Hu).
  unfold isNot in Hy. apply negb_true_iff in Hy. rewrite Hy. reflexivity.
Qed.

Lemma found_plain cls p u :
  (forall y, cls LT y = N.eqb y LT) ->
  forallb (isNot LT) u = true ->
  found cls (LT :: p) u = false.
Proof.
  intros Hcls Hu. rewrite <- (app_nil_r u), (found_skip _ _ _ _ Hcls Hu).
  reflexivity.
Qed.

Lemma isChar_LT y : isChar LT y = N.eqb y LT.
Proof. reflexivity. Qed.

Lemma found_in_block cls p body :
  (forall y, cls LT y = N.eqb y LT) ->
  forallb (isNot LT) body = true ->
  prefixOf cls (LT :: p) (lit "<script>") = false ->
  length (LT :: p) <= 8 ->
  found cls (LT :: p) (lit "</script>") = false ->
  found cls (LT :: p) (lit "<script>" ++ body ++ lit "</script>") = false.
Proof.
  intros Hcls Hb Hpre Hlen Hclose.
  change (lit "<script>" ++ body ++ lit "</script>")
    with (LT :: (lit "script>" ++ body ++ lit "</script>")).
  cbn [found]. apply orb_false_iff. split.
  - change (LT :: (lit "script>" ++ body ++ lit "</script>"))
      with (lit "<script>" ++ body ++ lit "</script>").
    rewrite prefixOf_app_long; [exact Hpre|exact Hlen].
  - rewrite app_assoc, found_skip; [exact Hclose|exact Hcls|].
    rewrite forallb_app, Hb. reflexivity.
Qed.

Lemma stripPairs_splitScript body :
  forallb (isNot LT) body = true ->
  stripPairs "script" (splitScript body)
  = lit "<script>" ++ body ++ lit "</script>".
Proof.
  intro Hb. unfold splitScript.
  change (lit "<scr" ++ lit "<script></script>" ++ lit "ipt>" ++ body
          ++ lit "</scr" ++ lit "<script></script>" ++ lit "ipt>")
    with (lit "<scr" ++ openTag "script" ++ [GT] ++ closeTag "script"
          ++ (lit "ipt>" ++ body ++ lit "</scr" ++ lit "<script></script>"
              ++ lit "ipt>")).
  rewrite (stripPairs_block "script" eq_refl eq_refl eq_refl (lit "<scr")
             (openTag "script") [GT] (closeTag "script") _
             eq_refl eq_refl eq_refl eq_refl eq_refl).
  replace (lit "ipt>" ++ body ++ lit "</scr" ++ lit "<script></script>"
           ++ lit "ipt>")
    with ((lit "ipt>" ++ body ++ lit "</scr") ++ openTag "script" ++ [GT]
          ++ closeTag "script" ++ lit "ipt>")
    by (rewrite <- !app_assoc; reflexivity).
  rewrite (stripPairs_block "script" eq_refl eq_refl eq_refl
             (lit "ipt>" ++ body ++ lit "</scr")
             (openTag "script") [GT] (closeTag "script") (lit "ipt>")).
  - rewrite <- !app_assoc. reflexivity.
  - rewrite app_assoc.
    change (openTag "script") with (LT :: lit "script").
    rewrite found_skip; [reflexivity|exact isCI_LT|].
    rewrite forallb_app, Hb. reflexivity.
  - reflexivity.
  - reflexivity.
  - reflexivity.
  - reflexivity.
Qed.

Lemma tidy_block body :
  tidy (lit "<script>" ++ body ++ lit "</script>") = true.
Proof.
  unfold tidy. rewrite !rev_app_distr. reflexivity.
Qed.

(** X13: [cleanContent] makes one pass for each pattern.  For a body without
    less-than sign, a script block whose two tags are each split by an empty
    script block comes out as the script block itself: the content returned
    can hold a script block.  A second [cleanContent] removes it, so
    [cleanContent] is not idempotent. *)
Theorem X13_cleanContent_can_assemble_a_script_block body :
  forallb (isNot LT) body = true ->
  cleanContent (Some (splitScript body))
  = lit "<script>" ++ body ++ lit "</script>" /\
  cleanContent (Some (cleanContent (Some (splitScript body)))) = [].
Proof.
  intro Hb.
  assert (H1 : cleanContent (Some (splitScript body))
               = lit "<script>" ++ body ++ lit "</script>").
  { rewrite cleanContent_strips by discriminate.
    rewrite (stripPairs_splitScript body Hb).
    rewrite (stripPairs_none "style").
    2:{ change (openTag "style") with (LT :: lit "style").
        apply found_in_block;
          [exact isCI_LT|exact Hb|reflexivity|cbn; lia|reflexivity]. }
    rewrite stripComments_none.
    2:{ change (lit "<!--") with (LT :: lit "!--").
        apply found_in_block;
          [exact isChar_LT|exact Hb|reflexivity|cbn; lia|reflexivity]. }
    apply tidy_trim, tidy_block. }
  split; [exact H1|]. rewrite H1.
  replace (lit "<script>" ++ body ++ lit "</script>")
    with ([] ++ lit "<script>" ++ body ++ lit "</script>" ++ [])
    by (rewrite app_nil_r; reflexivity).
  rewrite cleanContent_script; [reflexivity|reflexivity|].
  change (closeTag "script") with (LT :: lit "/script>").
  apply found_plain; [exact isCI_LT|exact Hb].
Qed.

Lemma X13_cleanContent_can_assemble_a_script_block_witness :
  cleanContent (Some (lit "<scr<script></script>ipt>alert(1)</scr<script></script>ipt>"))
  = lit "<script>alert(1)</script>".
Proof.
  apply (X13_cleanContent_can_assemble_a_script_block (lit "alert(1)")).
  reflexivity.
Defined.
